(** * Maze-Runner: treasure hollows, balanced tree build and maze search

    A shallow embedding of [betterbst.py], [hollows.py] and [maze.py].
    Python integers are [Z]; a Python list is a [list]; an exception is the
    [None] of an error monad; objects that several cells can point at (the
    hollows) live in a store indexed by location. *)

From Stdlib Require Import QArith.
From Equations Require Import Equations.
From stdpp Require Import base option list gmap strings sorting.

Open Scope Z_scope.

(** ** Python helpers *)

(** [l[i]] on a Python list: a negative index counts from the end, an index
    out of range raises [IndexError] ([None]). *)
Definition py_index (n i : Z) : option nat :=
  if bool_decide (0 ≤ i < n) then Some (Z.to_nat i)
  else if bool_decide (- n ≤ i < 0) then Some (Z.to_nat (n + i))
  else None.

Definition py_getitem {A} (l : list A) (i : Z) : option A :=
  k ← py_index (Z.of_nat (length l)) i; l !! k.

(** [l[i] = x]. *)
Definition py_setitem {A} (l : list A) (i : Z) (x : A) : option (list A) :=
  k ← py_index (Z.of_nat (length l)) i; Some (<[k := x]> l).

(** [l.remove(x)]: the first item equal to [x] goes; [ValueError] ([None])
    when there is none. *)
Fixpoint py_remove `{EqDecision A} (x : A) (l : list A) : option (list A) :=
  match l with
  | [] => None
  | y :: l' => if decide (y = x) then Some l' else (y ::.) <$> py_remove x l'
  end.

(** [a / b] on Python integers: the true quotient, [ZeroDivisionError] at
    [b = 0].  The float that Python returns is modelled by the exact
    rational. *)
Definition py_truediv (a b : Z) : option Q :=
  if bool_decide (b = 0) then None else Some (inject_Z a / inject_Z b)%Q.

(** ** Treasures *)

(** Modelled from the spec: [treasure.Treasure] is not in the sources; the
    spec gives it as an immutable record of a value and a weight. *)
Record Treasure := mkTreasure { value : Z; weight : Z }.

#[global] Instance Treasure_eq_dec : EqDecision Treasure.
Proof. solve_decision. Defined.

(** A key/item pair as the tree and the heap store it. *)
Abbreviation entry I := (Q * I)%type.

Definition Qleb (a b : Q) : bool := Qle_bool a b.
Definition Qltb (a b : Q) : bool := negb (Qle_bool b a).

(** ** Sequence sorter *)

(** Modelled from the spec: [algorithms.mergesort] is not in the sources; the
    spec gives it as a stable merge sort of key/value pairs into
    non-decreasing key order. *)
Fixpoint merge {I} (l1 : list (entry I)) : list (entry I) → list (entry I) :=
  fix merge_right (l2 : list (entry I)) : list (entry I) :=
    match l1, l2 with
    | [], _ => l2
    | _, [] => l1
    | x :: l1', y :: l2' =>
        if Qleb x.1 y.1 then x :: merge l1' l2 else y :: merge_right l2'
    end.

(** Modelled from the spec: the halving recursion of the sorter; a list of
    [n] items is sorted within [n] levels. *)
Fixpoint mergesort_fuel {I} (fuel : nat) (l : list (entry I)) : list (entry I) :=
  match fuel with
  | O => l
  | S fuel' =>
      if bool_decide (length l ≤ 1)%nat then l
      else
        let break_index := ((length l + 1) `div` 2)%nat in
        merge (mergesort_fuel fuel' (take break_index l))
              (mergesort_fuel fuel' (drop break_index l))
  end.

(** Modelled from the spec: [mergesort(l)]. *)
Definition mergesort {I} (l : list (entry I)) : list (entry I) :=
  mergesort_fuel (length l) l.

(** ** Binary search tree *)

(** Modelled from the spec: [data_structures.bst.BinarySearchTree] is not in
    the sources.  The spec gives a search tree on a totally ordered key whose
    keys need not be unique (left keys are [≤], right keys are [≥] the node's
    key), with insert, delete by key (a fault when the key is absent), length
    and an in-order traversal.  An equal key is inserted to the right, so
    that ties keep their insertion order; delete removes the first node with
    the key on the search path from the root. *)
Inductive tree (I : Type) : Type :=
| Leaf
| Node (l : tree I) (key : Q) (item : I) (r : tree I).
Arguments Leaf {I}.
Arguments Node {I} l key item r.

Section bst.
Context {I : Type}.

(** Modelled from the spec: [self[key] = item]; an equal key goes right. *)
Fixpoint insert_aux (key : Q) (item : I) (current : tree I) : tree I :=
  match current with
  | Leaf => Node Leaf key item Leaf
  | Node l k i r =>
      if Qltb key k then Node (insert_aux key item l) k i r
      else Node l k i (insert_aux key item r)
  end.

(** Modelled from the spec: the in-order traversal, [for node in self], the
    nodes in ascending key order. *)
Fixpoint inorder (t : tree I) : list (entry I) :=
  match t with
  | Leaf => []
  | Node l k i r => inorder l ++ (k, i) :: inorder r
  end.

(** Modelled from the spec: [len(self)]. *)
Fixpoint tree_len (t : tree I) : nat :=
  match t with
  | Leaf => O
  | Node l _ _ r => S (tree_len l + tree_len r)
  end.

(** Modelled from the spec: the smallest node of a non-empty tree and the
    tree without it, for the delete of a node with two children. *)
Fixpoint delete_min (l : tree I) (k : Q) (i : I) (r : tree I) : entry I * tree I :=
  match l with
  | Leaf => ((k, i), r)
  | Node ll lk li lr =>
      let '(m, l') := delete_min ll lk li lr in (m, Node l' k i r)
  end.

(** Modelled from the spec: [del self[key]]; [None] is the fault for an
    absent key. *)
Fixpoint delete_aux (key : Q) (current : tree I) : option (tree I) :=
  match current with
  | Leaf => None
  | Node l k i r =>
      if Qltb key k then l' ← delete_aux key l; Some (Node l' k i r)
      else if Qltb k key then r' ← delete_aux key r; Some (Node l k i r')
      else match l, r with
           | Leaf, _ => Some r
           | _, Leaf => Some l
           | _, Node rl rk ri rr =>
               let '((sk, si), r') := delete_min rl rk ri rr in
               Some (Node l sk si r')
           end
  end.

End bst.

(** ** BetterBST ([betterbst.py]) *)

Section betterbst.
Context {I : Type}.

(** [BetterBST.__sort_elements]. *)
Definition __sort_elements (elements : list (entry I)) : list (entry I) :=
  mergesort elements.

(** [BetterBST.build_tree_aux]: [self] is the tree built so far. *)
Equations? build_tree_aux (sorted_elements : list (entry I)) (start end_ : Z)
    (self : tree I) : option (tree I) by wf (Z.to_nat (end_ + 1 - start)) lt :=
build_tree_aux sorted_elements start end_ self with decide (start > end_) := {
  | left _ => Some self
  | right _ =>
      match py_getitem sorted_elements ((start + end_) `div` 2) with
      | None => None
      | Some (key, value) =>
          match build_tree_aux sorted_elements start ((start + end_) `div` 2 - 1)
                  (insert_aux key value self) with
          | None => None
          | Some self' =>
              build_tree_aux sorted_elements ((start + end_) `div` 2 + 1) end_ self'
          end
      end }.
Proof.
  all: pose proof (Z.div_mod (start + end_) 2 ltac:(lia));
    pose proof (Z.mod_pos_bound (start + end_) 2 ltac:(lia)); lia.
Qed.

(** [BetterBST.__build_balanced_tree]. *)
Definition __build_balanced_tree (elements : list (entry I)) (self : tree I)
    : option (tree I) :=
  build_tree_aux elements 0 (Z.of_nat (length elements) - 1) self.

(** [BetterBST.__init__]: the base class starts from the empty tree. *)
Definition BetterBST (elements : list (entry I)) : option (tree I) :=
  let new_elements := __sort_elements elements in
  __build_balanced_tree new_elements Leaf.

End betterbst.

(** ** Max-heap *)

(** Modelled from the spec: [data_structures.heap.MaxHeap] is not in the
    sources.  The spec gives an array-backed binary max-heap (a dense
    sequence in which every parent's key is at least its children's keys)
    with a bulk build, extract-max, insert and length.  The array is indexed
    from 0: the children of [k] are [2k+1] and [2k+2]. *)
Abbreviation heap I := (list (entry I)).

Section maxheap_moves.
Context {I : Type}.

(** Modelled from the spec: exchange two entries of the array. *)
Definition swap (h : heap I) (i j : nat) : heap I :=
  match h !! i, h !! j with
  | Some x, Some y => <[i := y]> (<[j := x]> h)
  | _, _ => h
  end.

(** Modelled from the spec: the index of the child of [k] with the larger
    key, when [k] has one. *)
Definition largest_child (h : heap I) (k : nat) : option nat :=
  match h !! (2 * k + 1)%nat, h !! (2 * k + 2)%nat with
  | None, _ => None
  | Some _, None => Some (2 * k + 1)%nat
  | Some a, Some b => if Qltb a.1 b.1 then Some (2 * k + 2)%nat else Some (2 * k + 1)%nat
  end.

(** Modelled from the spec: move the entry at [k] down while a child has a
    larger key. *)
Fixpoint sink (fuel : nat) (h : heap I) (k : nat) : heap I :=
  match fuel with
  | O => h
  | S fuel' =>
      match largest_child h k with
      | None => h
      | Some c =>
          match h !! k, h !! c with
          | Some x, Some y => if Qltb x.1 y.1 then sink fuel' (swap h k c) c else h
          | _, _ => h
          end
      end
  end.

(** Modelled from the spec: move the entry at [k] up while its parent has a
    smaller key. *)
Fixpoint rise (fuel : nat) (h : heap I) (k : nat) : heap I :=
  match fuel with
  | O => h
  | S fuel' =>
      match k with
      | O => h
      | S _ =>
          let p := ((k - 1) `div` 2)%nat in
          match h !! k, h !! p with
          | Some x, Some y => if Qltb y.1 x.1 then rise fuel' (swap h k p) p else h
          | _, _ => h
          end
      end
  end.

End maxheap_moves.

Module MaxHeap.
Section maxheap.
Context {I : Type}.

(** Modelled from the spec: [MaxHeap.heapify], the bulk build; sink every
    inner position, last one first. *)
Definition heapify (points : list (entry I)) : heap I :=
  foldl (λ h k, sink (length h) h k) points (reverse (seq 0 (length points `div` 2)%nat)).

(** Modelled from the spec: [MaxHeap.add], the insert. *)
Definition add (element : entry I) (h : heap I) : heap I :=
  rise (S (length h)) (h ++ [element]) (length h).

(** Modelled from the spec: [MaxHeap.get_max], the extract-max; the root,
    and the heap with the last entry moved to the root and sunk; [None] is
    the fault on an empty heap. *)
Definition get_max (h : heap I) : option (entry I * heap I) :=
  match h with
  | [] => None
  | top :: rest =>
      match last rest with
      | None => Some (top, [])
      | Some z =>
          let h' := z :: removelast rest in
          Some (top, sink (length h') h' 0%nat)
      end
  end.

End maxheap.
End MaxHeap.

(** ** Outcomes of a call *)

(** What a call whose model takes fuel can do: return a value, raise an
    exception, or exhaust the fuel of the model. *)
Inductive outcome (A : Type) : Type :=
| Returns (a : A)
| Raises
| OutOfFuel.
Arguments Returns {A} a.
Arguments Raises {A}.
Arguments OutOfFuel {A}.

Definition of_option {A} (o : option A) : outcome A :=
  match o with Some a => Returns a | None => Raises end.

(** ** Hollows ([hollows.py]) *)

(** A hollow after [restructure_hollow]: [treasures] is a [BetterBST] in a
    spooky hollow and a [MaxHeap] in a mystical one. *)
Inductive Hollow : Type :=
| SpookyHollow (treasures : tree Treasure)
| MysticalHollow (treasures : heap Treasure).

Module SpookyHollow.

(** The loop of [restructure_hollow] that pairs every treasure with its
    key, [-treasure.value / treasure.weight]. *)
Definition treasure_tuples (treasures : list Treasure) : option (list (entry Treasure)) :=
  mapM (λ treasure,
          ratio ← py_truediv (- value treasure) (weight treasure);
          Some (ratio, treasure)) treasures.

(** [SpookyHollow.restructure_hollow], from the generated list. *)
Definition restructure_hollow (treasures : list Treasure) : option Hollow :=
  treasure_tuples ← treasure_tuples treasures;
  SpookyHollow <$> BetterBST treasure_tuples.

(** The [for node in self.treasures] loop of [get_optimal_treasure]: the
    first node, in in-order, whose treasure fits. *)
Fixpoint scan (nodes : list (entry Treasure)) (backpack_capacity : Z)
    : option (entry Treasure) :=
  match nodes with
  | [] => None
  | node :: rest =>
      if bool_decide (weight node.2 ≤ backpack_capacity) then Some node
      else scan rest backpack_capacity
  end.

(** [SpookyHollow.get_optimal_treasure]; [if optimal_treasure:] holds of
    every treasure found (an object is true). *)
Definition get_optimal_treasure (treasures : tree Treasure) (backpack_capacity : Z)
    : option (option Treasure * tree Treasure) :=
  match scan (inorder treasures) backpack_capacity with
  | Some optimal_treasure_node =>
      treasures' ← delete_aux optimal_treasure_node.1 treasures;
      Some (Some optimal_treasure_node.2, treasures')
  | None => Some (None, treasures)
  end.

End SpookyHollow.

Module MysticalHollow.

(** The loop of [restructure_hollow] that pairs every treasure with its
    key, [treasure.value / treasure.weight]. *)
Definition treasure_tuples (treasures : list Treasure) : option (list (entry Treasure)) :=
  mapM (λ treasure,
          ratio ← py_truediv (value treasure) (weight treasure);
          Some (ratio, treasure)) treasures.

(** [MysticalHollow.restructure_hollow], from the generated list. *)
Definition restructure_hollow (treasures : list Treasure) : option Hollow :=
  treasure_tuples ← treasure_tuples treasures;
  Some (MysticalHollow (MaxHeap.heapify treasure_tuples)).

(** The [while] loop of [get_optimal_treasure]. *)
Fixpoint scan (fuel : nat) (treasures : heap Treasure) (backpack_capacity : Z)
    (temp_storage : list (entry Treasure))
    : outcome (option Treasure * heap Treasure * list (entry Treasure)) :=
  match fuel with
  | O => OutOfFuel
  | S fuel' =>
      if bool_decide (length treasures = 0%nat) then Returns (None, treasures, temp_storage)
      else
        match MaxHeap.get_max treasures with
        | None => Raises
        | Some ((ratio, treasure), treasures') =>
            if bool_decide (weight treasure ≤ backpack_capacity)
            then Returns (Some treasure, treasures', temp_storage)
            else scan fuel' treasures' backpack_capacity
                   (temp_storage ++ [(ratio, treasure)])
        end
  end.

(** The loop of [get_optimal_treasure] that adds the rejected entries
    back. *)
Definition restore (treasures : heap Treasure) (temp_storage : list (entry Treasure))
    : heap Treasure :=
  foldl (λ h e, MaxHeap.add e h) treasures temp_storage.

(** [MysticalHollow.get_optimal_treasure]: the heap has an entry less after
    every turn of the loop, so a turn more than it has entries is enough. *)
Definition get_optimal_treasure (treasures : heap Treasure) (backpack_capacity : Z)
    : outcome (option Treasure * heap Treasure) :=
  match scan (S (length treasures)) treasures backpack_capacity [] with
  | Returns (optimal_treasure, treasures', temp_storage) =>
      Returns (optimal_treasure, restore treasures' temp_storage)
  | Raises => Raises
  | OutOfFuel => OutOfFuel
  end.

End MysticalHollow.

(** [Hollow.__len__]. *)
Definition hollow_len (self : Hollow) : nat :=
  match self with
  | SpookyHollow treasures => tree_len treasures
  | MysticalHollow treasures => length treasures
  end.

(** The treasures a hollow holds, in the order of its structure. *)
Definition hollow_contents (self : Hollow) : list Treasure :=
  match self with
  | SpookyHollow treasures => (inorder treasures).*2
  | MysticalHollow treasures => treasures.*2
  end.

(** [Hollow.get_optimal_treasure], by the class of [self]. *)
Definition get_optimal_treasure (self : Hollow) (backpack_capacity : Z)
    : outcome (option Treasure * Hollow) :=
  match self with
  | SpookyHollow treasures =>
      match SpookyHollow.get_optimal_treasure treasures backpack_capacity with
      | Some (r, treasures') => Returns (r, SpookyHollow treasures')
      | None => Raises
      end
  | MysticalHollow treasures =>
      match MysticalHollow.get_optimal_treasure treasures backpack_capacity with
      | Returns (r, treasures') => Returns (r, MysticalHollow treasures')
      | Raises => Raises
      | OutOfFuel => OutOfFuel
      end
  end.

(** ** Positions, cells and the maze ([maze.py]) *)

Record Position := mkPosition { row : Z; col : Z }.

#[global] Instance Position_eq_dec : EqDecision Position.
Proof. solve_decision. Defined.

(** A hollow is an object; a cell that holds one holds its location in the
    store of hollows. *)
Abbreviation loc := nat.
Abbreviation store := (gmap nat Hollow).

(** [MazeCell.tile]: a display string or a hollow. *)
Inductive tile_value : Type :=
| TileStr (s : string)
| TileHollow (h : loc).

#[global] Instance tile_value_eq_dec : EqDecision tile_value.
Proof. solve_decision. Defined.

Record MazeCell := mkMazeCell {
  tile : tile_value;
  position : Position;
  visited : bool
}.

(** Modelled from the spec: [config.Tiles] is not in the sources and the
    spec leaves the tile vocabulary open, so the values of the members that
    the sources read are a parameter of the model.  [Tiles_values] is the
    list of the values of all members. *)
Record TilesEnum := mkTiles {
  SPOOKY_HOLLOW : string;
  MYSTICAL_HOLLOW : string;
  WALL : string;
  EXIT : string;
  START_POSITION : string;
  Tiles_values : list string
}.

(** Modelled from the spec: [config.Directions] is not in the sources; its
    four members are the keys of [Maze.directions]. *)
Inductive Directions := UP | DOWN | LEFT | RIGHT.

Record Maze := mkMaze {
  start_position : Position;
  end_positions : list Position;
  rows : Z;
  cols : Z;
  grid : list (list MazeCell)
}.

(** [Maze.directions], in the order of the dict literal. *)
Definition directions : list (Directions * (Z * Z)) :=
  [(UP, (-1, 0)); (DOWN, (1, 0)); (LEFT, (0, -1)); (RIGHT, (0, 1))].

(** [range(n)]. *)
Definition py_range (n : Z) : list Z := Z.of_nat <$> seq 0 (Z.to_nat n).

(** [grid[row][col]]. *)
Definition grid_get (g : list (list MazeCell)) (p : Position) : option MazeCell :=
  r ← py_getitem g (row p); py_getitem r (col p).

(** [grid[row][col] = cell]. *)
Definition grid_set (g : list (list MazeCell)) (p : Position) (cell : MazeCell)
    : option (list (list MazeCell)) :=
  r ← py_getitem g (row p);
  r' ← py_setitem r (col p) cell;
  py_setitem g (row p) r'.

(** [grid[row][col].tile = t]. *)
Definition grid_set_tile (g : list (list MazeCell)) (p : Position) (t : tile_value)
    : option (list (list MazeCell)) :=
  cell ← grid_get g p;
  grid_set g p (mkMazeCell t (position cell) (visited cell)).

(** [grid[row][col].visited = True]. *)
Definition grid_set_visited (g : list (list MazeCell)) (p : Position)
    : option (list (list MazeCell)) :=
  cell ← grid_get g p;
  grid_set g p (mkMazeCell (tile cell) (position cell) true).

Definition with_grid (m : Maze) (g : list (list MazeCell)) : Maze :=
  mkMaze (start_position m) (end_positions m) (rows m) (cols m) g.

Section maze.
Context (Tiles : TilesEnum).

(** [Maze._create_grid]. *)
Definition _create_grid (start_position : Position) (rows cols : Z)
    (walls : list Position) (hollows : list (loc * Position))
    (end_positions : list Position) : option (list (list MazeCell)) :=
  let grid0 :=
    (λ i, (λ j, mkMazeCell (TileStr " ") (mkPosition i j) false) <$> py_range cols)
      <$> py_range rows in
  grid1 ← grid_set grid0 start_position
             (mkMazeCell (TileStr (START_POSITION Tiles)) start_position false);
  grid2 ← foldl (λ og wall, g ← og; grid_set_tile g wall (TileStr (WALL Tiles)))
             (Some grid1) walls;
  grid3 ← foldl (λ og hp, g ← og; grid_set_tile g hp.2 (TileHollow hp.1))
             (Some grid2) hollows;
  foldl (λ og end_position, g ← og; grid_set_tile g end_position (TileStr (EXIT Tiles)))
    (Some grid3) end_positions.

(** [Maze.__init__]. *)
Definition Maze_init (start_position : Position) (end_positions walls : list Position)
    (hollows : list (loc * Position)) (rows cols : Z) : option Maze :=
  mkMaze start_position end_positions rows cols
    <$> _create_grid start_position rows cols walls hollows end_positions.

(** [Maze.is_valid_position]: [and] stops at the first false operand, so the
    grid is read only inside the bounds. *)
Definition is_valid_position (m : Maze) (position : Position) : option bool :=
  if bool_decide (0 ≤ row position < rows m) then
    if bool_decide (0 ≤ col position < cols m) then
      cell ← grid_get (grid m) position;
      Some (bool_decide (tile cell ≠ TileStr (WALL Tiles)))
    else Some false
  else Some false.

(** The loop of [Maze.get_available_positions] over the directions left. *)
Fixpoint available_loop (m : Maze) (current_position : Position)
    (dirs : list (Directions * (Z * Z))) (available_positions : list Position)
    : option (list Position) :=
  match dirs with
  | [] => Some available_positions
  | (_, (dr, dc)) :: dirs' =>
      let new_position :=
        mkPosition (row current_position + dr) (col current_position + dc) in
      ok ← is_valid_position m new_position;
      available_loop m current_position dirs'
        (if ok : bool then available_positions ++ [new_position] else available_positions)
  end.

(** [Maze.get_available_positions]. *)
Definition get_available_positions (m : Maze) (current_position : Position)
    : option (list Position) :=
  available_loop m current_position directions [].

(** The state a path search works on: the maze (its cells' visited flags),
    the [path] list that every call appends to and removes from, and, as a
    record of the run that the code does not keep, the positions at which
    [cell.visited = True] was executed, in order. *)
Record search := mkSearch {
  s_maze : Maze;
  s_path : list Position;
  s_marked : list Position
}.

(** The [for next_position in available_positions] loop of
    [Maze.find_path_aux] and the backtracking step after it; [rec] is the
    recursive call. *)
Fixpoint explore (rec : search → Position → outcome (option (list Position) * search))
    (current_position : Position) (nexts : list Position) (s : search)
    : outcome (option (list Position) * search) :=
  match nexts with
  | [] =>
      match py_remove current_position (s_path s) with
      | None => Raises
      | Some path => Returns (None, mkSearch (s_maze s) path (s_marked s))
      end
  | next_position :: nexts' =>
      match rec s next_position with
      | Returns (Some result, s') => Returns (Some result, s')
      | Returns (None, s') => explore rec current_position nexts' s'
      | Raises => Raises
      | OutOfFuel => OutOfFuel
      end
  end.

(** [Maze.find_path_aux]; the result is [Some path] or [None]. *)
Fixpoint find_path_aux (fuel : nat) (s : search) (current_position : Position)
    : outcome (option (list Position) * search) :=
  match fuel with
  | O => OutOfFuel
  | S fuel' =>
      if bool_decide (current_position ∈ end_positions (s_maze s)) then
        let path := s_path s ++ [current_position] in
        Returns (Some path, mkSearch (s_maze s) path (s_marked s))
      else
        match grid_get (grid (s_maze s)) current_position with
        | None => Raises
        | Some cell =>
            if visited cell then Returns (None, s)
            else
              match grid_set_visited (grid (s_maze s)) current_position with
              | None => Raises
              | Some g =>
                  let m := with_grid (s_maze s) g in
                  match get_available_positions m current_position with
                  | None => Raises
                  | Some available_positions =>
                      explore (find_path_aux fuel') current_position available_positions
                        (mkSearch m (s_path s ++ [current_position])
                           (s_marked s ++ [current_position]))
                  end
              end
        end
  end.

(** The number of cells of a grid. *)
Definition grid_size (g : list (list MazeCell)) : nat :=
  sum_list (length <$> g).

(** [Maze.find_way_out]: every call below the first marks a cell first, so
    the calls nest no deeper than the grid has cells. *)
Definition find_way_out (m : Maze) : outcome (option (list Position) * search) :=
  find_path_aux (S (grid_size (grid m))) (mkSearch m [] []) (start_position m).

End maze.

(** [Maze.take_treasures]: the loop over [path], with the capacity left, the
    treasures taken so far and the store of hollows. *)
Fixpoint take_loop (path : list MazeCell) (backpack_capacity : Z)
    (treasures_taken : list Treasure) (σ : store)
    : outcome (list Treasure * Z * store) :=
  match path with
  | [] => Returns (treasures_taken, backpack_capacity, σ)
  | cell :: path' =>
      match tile cell with
      | TileStr _ => take_loop path' backpack_capacity treasures_taken σ
      | TileHollow h =>
          match σ !! h with
          | None => Raises
          | Some hollow =>
              match get_optimal_treasure hollow backpack_capacity with
              | Returns (Some optimal_treasure, hollow') =>
                  if bool_decide (weight optimal_treasure ≤ backpack_capacity) then
                    take_loop path' (backpack_capacity - weight optimal_treasure)
                      (treasures_taken ++ [optimal_treasure]) (<[h := hollow']> σ)
                  else take_loop path' backpack_capacity treasures_taken (<[h := hollow']> σ)
              | Returns (None, hollow') =>
                  take_loop path' backpack_capacity treasures_taken (<[h := hollow']> σ)
              | Raises => Raises
              | OutOfFuel => OutOfFuel
              end
          end
      end
  end.

Definition take_treasures (path : list MazeCell) (backpack_capacity : Z) (σ : store)
    : outcome (option (list Treasure) * store) :=
  match take_loop path backpack_capacity [] σ with
  | Returns (treasures_taken, _, σ') =>
      Returns (match treasures_taken with [] => None | _ => Some treasures_taken end, σ')
  | Raises => Raises
  | OutOfFuel => OutOfFuel
  end.

(** ** Loading a maze ([Maze.validate_maze_file], [Maze.load_maze_from_file]) *)

(** A text is a list of code points below 256.  [str.isspace] on them. *)
Definition is_space (c : Ascii.ascii) : bool :=
  let n := Ascii.nat_of_ascii c in
  ((9 <=? n) && (n <=? 13) || (28 <=? n) && (n <=? 32) || (n =? 133) || (n =? 160))%nat.

Fixpoint lstrip (l : list Ascii.ascii) : list Ascii.ascii :=
  match l with
  | [] => []
  | c :: l' => if is_space c then lstrip l' else l
  end.

(** [line.strip()], as the list of its one-character strings. *)
Definition py_strip (line : string) : list string :=
  (λ c, String c EmptyString)
    <$> reverse (lstrip (reverse (lstrip (String.list_ascii_of_string line)))).

(** [enumerate(l)]. *)
Definition py_enumerate {A} (l : list A) : list (Z * A) :=
  zip (py_range (Z.of_nat (length l))) l.

Section loading.
Context (Tiles : TilesEnum).

(** The counting loop of [validate_maze_file]; [None] is its [ValueError]
    for uneven columns. *)
Definition count_line (cols : nat) (acc : option (gmap string nat)) (line : string)
    : option (gmap string nat) :=
  tile_count ← acc;
  if bool_decide (length (py_strip line) ≠ cols) then None
  else Some (foldl (λ (tc : gmap string nat) tile,
                      match tc !! tile with
                      | None => <[tile := 1%nat]> tc
                      | Some n => <[tile := S n]> tc
                      end) tile_count (py_strip line)).

(** [Maze.validate_maze_file], on the lines read from the file: [None] is
    an exception, [Some ()] a file that passed. *)
Definition validate_maze_file (lines : list string) : option () :=
  line0 ← lines !! 0%nat;
  let cols := length (py_strip line0) in
  tile_count ← foldl (count_line cols) (Some ∅) lines;
  if bool_decide (tile_count !! "P" = None ∨ tile_count !! "E" = None) then None
  else if bool_decide (1 < default 0 (tile_count !! "P"))%nat then None
  else if bool_decide (tile_count !! SPOOKY_HOLLOW Tiles = None
                       ∧ tile_count !! MYSTICAL_HOLLOW Tiles = None) then None
  else if bool_decide (Forall (λ tile, tile ∈ Tiles_values Tiles)
                         (map_to_list tile_count).*1) then Some ()
  else None.

(** What the loops of [load_maze_from_file] have built so far.  [ld_made]
    counts the hollows constructed; the n-th hollow constructed takes the
    n-th list of [gen_treasures] and lives at location [n] of the store. *)
Record loader := mkLoader {
  ld_start : option Position;
  ld_ends : list Position;
  ld_walls : list Position;
  ld_hollows : list (loc * Position);
  ld_store : store;
  ld_made : nat
}.

(** [gen_treasures] draws at random: the lists it returns, call by call,
    are a parameter. *)
Context (gen_treasures : nat → list Treasure).

(** [SpookyHollow()] and [MysticalHollow()]: [Hollow.__init__]. *)
Definition new_hollow (restructure : list Treasure → option Hollow) (σ : store) (made : nat)
    : option (loc * store * nat) :=
  hollow ← restructure (gen_treasures made);
  Some (made, <[made := hollow]> σ, S made).

(** The body of the inner loop: the [if]/[elif] chain on one tile. *)
Definition load_tile (mystical_hollow : loc) (i : Z) (acc : option loader)
    (jt : Z * string) : option loader :=
  ld ← acc;
  let '(j, tile) := jt in
  if bool_decide (tile = START_POSITION Tiles) then
    Some (mkLoader (Some (mkPosition i j)) (ld_ends ld) (ld_walls ld) (ld_hollows ld)
            (ld_store ld) (ld_made ld))
  else if bool_decide (tile = EXIT Tiles) then
    Some (mkLoader (ld_start ld) (ld_ends ld ++ [mkPosition i j]) (ld_walls ld)
            (ld_hollows ld) (ld_store ld) (ld_made ld))
  else if bool_decide (tile = WALL Tiles) then
    Some (mkLoader (ld_start ld) (ld_ends ld) (ld_walls ld ++ [mkPosition i j])
            (ld_hollows ld) (ld_store ld) (ld_made ld))
  else if bool_decide (tile = SPOOKY_HOLLOW Tiles) then
    '(h, σ, made) ← new_hollow SpookyHollow.restructure_hollow (ld_store ld) (ld_made ld);
    Some (mkLoader (ld_start ld) (ld_ends ld) (ld_walls ld)
            (ld_hollows ld ++ [(h, mkPosition i j)]) σ made)
  else if bool_decide (tile = MYSTICAL_HOLLOW Tiles) then
    Some (mkLoader (ld_start ld) (ld_ends ld) (ld_walls ld)
            (ld_hollows ld ++ [(mystical_hollow, mkPosition i j)])
            (ld_store ld) (ld_made ld))
  else Some ld.

(** The body of the outer loop: one line. *)
Definition load_line (mystical_hollow : loc) (acc : option loader) (il : Z * string)
    : option loader :=
  foldl (load_tile mystical_hollow il.1) acc (py_enumerate (py_strip il.2)).

(** [Maze.load_maze_from_file], on the lines read from the file; the maze
    comes with the store of the hollows made for it. *)
Definition load_maze_from_file (lines : list string) : option (Maze * store) :=
  _ ← validate_maze_file lines;
  '(mystical_hollow, σ0, made0) ← new_hollow MysticalHollow.restructure_hollow ∅ 0%nat;
  let rows := Z.of_nat (length lines) in
  line0 ← lines !! 0%nat;
  let cols := Z.of_nat (length (py_strip line0)) in
  ld ← foldl (load_line mystical_hollow) (Some (mkLoader None [] [] [] σ0 made0))
         (py_enumerate lines);
  start_position ← ld_start ld;
  m ← Maze_init Tiles start_position (ld_ends ld) (ld_walls ld) (ld_hollows ld) rows cols;
  Some (m, ld_store ld).

End loading.

(** * Invariants and notions the properties are stated with *)

(** The search-tree invariant of the spec: left keys [≤] the node's key,
    right keys [≥] it. *)
Fixpoint bst {I} (t : tree I) : Prop :=
  match t with
  | Leaf => True
  | Node l k _ r =>
      bst l ∧ bst r
      ∧ Forall (λ e, (e.1 <= k)%Q) (inorder l)
      ∧ Forall (λ e, (k <= e.1)%Q) (inorder r)
  end.

(** [elements[start : end_ + 1]] for indices inside the list. *)
Definition slice {I} (elements : list (entry I)) (start end_ : Z) : list (entry I) :=
  take (Z.to_nat (end_ + 1 - start)) (drop (Z.to_nat start) elements).

(** [value / weight], the ratio the hollows rank by. *)
Definition ratio (t : Treasure) : Q := (inject_Z (value t) / inject_Z (weight t))%Q.

(** [c] is a child of [k] in the array of a heap. *)
Definition is_child (k c : nat) : Prop := (c = 2 * k + 1 ∨ c = 2 * k + 2)%nat.

(** The entry at [p], when there is one, has a key at least that of the
    entry at [c]. *)
Definition dominates {I} (h : heap I) (p c : nat) : Prop :=
  ∀ x y, h !! p = Some x → h !! c = Some y → (y.1 <= x.1)%Q.

(** The max-heap invariant of the spec, for the parents from [lo] on. *)
Definition max_heap_from {I} (lo : nat) (h : heap I) : Prop :=
  ∀ p c, (lo ≤ p)%nat → is_child p c → dominates h p c.

Definition max_heap {I} (h : heap I) : Prop := max_heap_from 0 h.

(** A heap but for the entry at [k], which may be too small for its
    place. *)
Definition sink_inv {I} (lo : nat) (h : heap I) (k : nat) : Prop :=
  (∀ p c, (lo ≤ p)%nat → p ≠ k → is_child p c → dominates h p c)
  ∧ (∀ g c, (lo ≤ g)%nat → is_child g k → is_child k c → dominates h g c).

(** A heap but for the entry at [k], which may be too large for its
    place. *)
Definition rise_inv {I} (h : heap I) (k : nat) : Prop :=
  (∀ p c, c ≠ k → is_child p c → dominates h p c)
  ∧ (∀ g c, is_child g k → is_child k c → dominates h g c).


(** Entries in non-decreasing key order. *)
Definition key_le {I} (a b : entry I) : Prop := (a.1 <= b.1)%Q.

(** Entries in non-increasing key order. *)
Definition key_ge {I} (a b : entry I) : Prop := (b.1 <= a.1)%Q.

(** The invariant of a hollow's collection: a search tree in a spooky
    hollow, a max-heap in a mystical one. *)
Definition hollow_ok (self : Hollow) : Prop :=
  match self with
  | SpookyHollow treasures => bst treasures
  | MysticalHollow treasures => max_heap treasures
  end.

(** The cell that [grid[row][col]] reaches at a position, by its two
    indices counted from 0 (a negative coordinate counts from the end). *)
Definition cell_index (g : list (list MazeCell)) (p : Position) : option (nat * nat) :=
  i ← py_index (Z.of_nat (length g)) (row p);
  r ← g !! i;
  j ← py_index (Z.of_nat (length r)) (col p);
  Some (i, j).

(** The visited flag of the cell at a position. *)
Definition is_visited (g : list (list MazeCell)) (p : Position) : bool :=
  match grid_get g p with
  | Some cell => visited cell
  | None => false
  end.

(** [marks g ps g']: writing [visited = True] at the positions [ps], one
    after the other, each on a cell that is not visited at that time, takes
    the grid [g] to [g']. *)
Inductive marks : list (list MazeCell) → list Position → list (list MazeCell) → Prop :=
| marks_nil g : marks g [] g
| marks_cons g p cell g1 ps g' :
    grid_get g p = Some cell → visited cell = false →
    grid_set_visited g p = Some g1 → marks g1 ps g' →
    marks g (p :: ps) g'.

(** The cells of a grid that are not visited. *)
Definition count_unvisited (g : list (list MazeCell)) : nat :=
  length (filter (λ cell, visited cell = false) (mjoin g)).

(** What a call of [find_path_aux] that returns has done to the state of the
    search: it marked the cells at the positions [new], each one unvisited
    until then and none of them an end position, and changed nothing else
    of the maze; a path it returns is the [path] list itself. *)
Definition search_post (s : search) (r : option (list Position)) (s' : search) : Prop :=
  ∃ new, s_marked s' = s_marked s ++ new
         ∧ marks (grid (s_maze s)) new (grid (s_maze s'))
         ∧ s_maze s' = with_grid (s_maze s) (grid (s_maze s'))
         ∧ Forall (λ q, q ∉ end_positions (s_maze s)) new
         ∧ (∀ path, r = Some path → path = s_path s').

(** A position inside the bounds of the maze. *)
Definition in_bounds (m : Maze) (p : Position) : Prop :=
  0 ≤ row p < rows m ∧ 0 ≤ col p < cols m.

(** The grid has [rows] rows of [cols] cells, as [_create_grid] builds it. *)
Definition grid_shape (m : Maze) : Prop :=
  length (grid m) = Z.to_nat (rows m)
  ∧ Forall (λ r, length r = Z.to_nat (cols m)) (grid m).

(** The four positions next to a position: up, down, left, right. *)
Definition neighbours (p : Position) : list Position :=
  [mkPosition (row p - 1) (col p); mkPosition (row p + 1) (col p);
   mkPosition (row p) (col p - 1); mkPosition (row p) (col p + 1)].

(** A position with no negative coordinate: [grid[row][col]] reads it
    without counting from the end. *)
Definition nonneg (p : Position) : Prop := 0 ≤ row p ∧ 0 ≤ col p.

(** The weight of a list of treasures. *)
Definition total_weight (ts : list Treasure) : Z :=
  foldr (λ t acc, weight t + acc) 0 ts.

(** Every hollow of the store has the invariant of its collection. *)
Definition store_ok (σ : store) : Prop :=
  ∀ h hollow, σ !! h = Some hollow → hollow_ok hollow.

(** The walk along a path as the spec words it: the cells are taken in the
    order of the path; a cell without a hollow is passed; at a cell with a
    hollow, the hollow is asked for its best fitting treasure with the
    capacity left: a treasure it gives is appended to the output and its
    weight taken off the capacity left, and when it gives none the cell is
    skipped.  [walk σ cap path ts cap' σ']: from the store [σ] and the
    capacity [cap], the walk along [path] collects [ts] and ends with the
    capacity [cap'] and the store [σ']. *)
Inductive walk : store → Z → list MazeCell → list Treasure → Z → store → Prop :=
| walk_end σ cap : walk σ cap [] [] cap σ
| walk_pass σ cap cell s path ts cap' σ' :
    tile cell = TileStr s →
    walk σ cap path ts cap' σ' →
    walk σ cap (cell :: path) ts cap' σ'
| walk_take σ cap cell h hollow t hollow' path ts cap' σ' :
    tile cell = TileHollow h → σ !! h = Some hollow →
    get_optimal_treasure hollow cap = Returns (Some t, hollow') →
    walk (<[h := hollow']> σ) (cap - weight t) path ts cap' σ' →
    walk σ cap (cell :: path) (t :: ts) cap' σ'
| walk_skip σ cap cell h hollow hollow' path ts cap' σ' :
    tile cell = TileHollow h → σ !! h = Some hollow →
    get_optimal_treasure hollow cap = Returns (None, hollow') →
    walk (<[h := hollow']> σ) cap path ts cap' σ' →
    walk σ cap (cell :: path) ts cap' σ'.

(** What holds of the loader between two tiles: the mystical hollow made
    first is at location 0, the spooky ones made since are at the
    locations after it, every hollow has its invariant, and the hollows
    placed so far are hollows of the store, at positions without a negative
    coordinate, no spooky one placed twice. *)
Definition loader_ok (ld : loader) : Prop :=
  (∃ t, ld_store ld !! 0%nat = Some (MysticalHollow t))
  ∧ (0 < ld_made ld)%nat
  ∧ (∀ h, (0 < h < ld_made ld)%nat → ∃ t, ld_store ld !! h = Some (SpookyHollow t))
  ∧ store_ok (ld_store ld)
  ∧ Forall (λ hp : nat * Position, (hp.1 < ld_made ld)%nat ∧ nonneg hp.2) (ld_hollows ld)
  ∧ (∀ a b h p q, ld_hollows ld !! a = Some (h, p) → ld_hollows ld !! b = Some (h, q) →
                  h ≠ 0%nat → a = b).

(** The tile at line [i], column [j] of the file (after [strip]). *)
Definition tile_at (lines : list string) (p : Position) : option string :=
  line ← lines !! Z.to_nat (row p); py_strip line !! Z.to_nat (col p).

(** The branch of the [if]/[elif] chain of [load_maze_from_file] that a
    tile takes: the exit, a spooky hollow, the mystical hollow. *)
Definition exit_tile (Tiles : TilesEnum) (c : string) : Prop :=
  c ≠ START_POSITION Tiles ∧ c = EXIT Tiles.

Definition spooky_tile (Tiles : TilesEnum) (c : string) : Prop :=
  c ≠ START_POSITION Tiles ∧ c ≠ EXIT Tiles ∧ c ≠ WALL Tiles ∧ c = SPOOKY_HOLLOW Tiles.

Definition mystical_tile (Tiles : TilesEnum) (c : string) : Prop :=
  c ≠ START_POSITION Tiles ∧ c ≠ EXIT Tiles ∧ c ≠ WALL Tiles
  ∧ c ≠ SPOOKY_HOLLOW Tiles ∧ c = MYSTICAL_HOLLOW Tiles.

(** The hollows and the exits the loader has placed are those of the file:
    a hollow placed at a position is the mystical one (location 0) where
    the file has the mystical tile, and a spooky one where it has the
    spooky tile; an exit is placed where the file has the exit tile. *)
Definition loader_sound (Tiles : TilesEnum) (lines : list string) (ld : loader) : Prop :=
  Forall (λ hp : nat * Position,
            ∃ c, tile_at lines hp.2 = Some c
                 ∧ ((mystical_tile Tiles c ∧ hp.1 = 0%nat)
                    ∨ (spooky_tile Tiles c ∧ hp.1 ≠ 0%nat))) (ld_hollows ld)
  ∧ Forall (λ p, nonneg p ∧ ∃ c, tile_at lines p = Some c ∧ exit_tile Tiles c) (ld_ends ld).

(** The tile [c] at the position [p] has its hollow placed. *)
Definition placed (Tiles : TilesEnum) (p : Position) (c : string) (ld : loader) : Prop :=
  (mystical_tile Tiles c → (0%nat, p) ∈ ld_hollows ld)
  ∧ (spooky_tile Tiles c → ∃ h, (h, p) ∈ ld_hollows ld).

(** * Notions for the further properties *)

(** Every key of the hollow's collection is the ratio of its treasure, as
    [restructure_hollow] stores it: negated in a spooky hollow. *)
Definition hollow_keyed (self : Hollow) : Prop :=
  match self with
  | SpookyHollow treasures => Forall (λ e, (e.1 == - ratio e.2)%Q) (inorder treasures)
  | MysticalHollow treasures => Forall (λ e, (e.1 == ratio e.2)%Q) treasures
  end.

(** The height of a tree: the number of nodes on its longest branch. *)
Fixpoint height {I} (t : tree I) : nat :=
  match t with
  | Leaf => O
  | Node l _ _ r => S (height l `max` height r)
  end.

(** A tree with one leaf taken out, from that leaf up to the root. *)
Inductive ctx (I : Type) : Type :=
| CTop
| CLeft (c : ctx I) (key : Q) (item : I) (r : tree I)
| CRight (c : ctx I) (l : tree I) (key : Q) (item : I).
Arguments CTop {I}.
Arguments CLeft {I} c key item r.
Arguments CRight {I} c l key item.

(** The tree with [t] in the place of the leaf taken out. *)
Fixpoint plug {I} (c : ctx I) (t : tree I) : tree I :=
  match c with
  | CTop => t
  | CLeft c k i r => plug c (Node t k i r)
  | CRight c l k i => plug c (Node l k i t)
  end.

(** The search for [key] from the root arrives at the leaf taken out. *)
Fixpoint fits {I} (c : ctx I) (key : Q) : Prop :=
  match c with
  | CTop => True
  | CLeft c k _ _ => (key < k)%Q ∧ fits c key
  | CRight c _ k _ => (k <= key)%Q ∧ fits c key
  end.

(** No two entries of the list have the same key. *)
Fixpoint distinct_keys {I} (l : list (entry I)) : Prop :=
  match l with
  | [] => True
  | a :: l' => Forall (λ b, ¬ (a.1 == b.1)%Q) l' ∧ distinct_keys l'
  end.

(** A position that [grid[row][col]] can index in a grid of [rows] by
    [cols] cells: Python counts a negative index from the end. *)
Definition py_in_range (rows cols : Z) (p : Position) : Prop :=
  (- rows ≤ row p < rows) ∧ (- cols ≤ col p < cols).

(** A grid of [rows] lists of [cols] cells. *)
Definition shaped (rows cols : Z) (g : list (list MazeCell)) : Prop :=
  length <$> g = replicate (Z.to_nat rows) (Z.to_nat cols).

(** The tile that the writes of [_create_grid] leave at a position: the
    later write wins, so an exit covers a hollow, a hollow (the last one
    given for the position) a wall, and a wall the start. *)
Definition tile_of (Tiles : TilesEnum) (start : Position) (walls : list Position)
    (hollows : list (loc * Position)) (ends : list Position) (p : Position) : tile_value :=
  if decide (p ∈ ends) then TileStr (EXIT Tiles)
  else match last (filter (λ hp, hp.2 = p) hollows) with
       | Some hp => TileHollow hp.1
       | None =>
           if decide (p ∈ walls) then TileStr (WALL Tiles)
           else if decide (p = start) then TileStr (START_POSITION Tiles)
           else TileStr " "
       end.

(** The tiles of a file, line after line, each line stripped. *)
Definition tiles_of (lines : list string) : list string :=
  mjoin (py_strip <$> lines).

(** How often a tile occurs in a list of tiles. *)
Definition occurrences (t : string) (tiles : list string) : nat :=
  length (filter (λ x, x = t) tiles).

(** [tile_count] counts the tiles [l]: a tile that occurs has its number of
    occurrences, a tile that does not has no entry. *)
Definition counts (tile_count : gmap string nat) (l : list string) : Prop :=
  ∀ t, tile_count !! t = if decide (occurrences t l = 0%nat) then None
                         else Some (occurrences t l).


(** A move of the search: [q] is next to [p] and is a valid position. *)
Definition step (Tiles : TilesEnum) (m : Maze) (p q : Position) : Prop :=
  q ∈ neighbours p ∧ is_valid_position Tiles m q = Some true.

(** A route from [p]: every position of [ps] is a move from the one
    before it. *)
Fixpoint route (Tiles : TilesEnum) (m : Maze) (p : Position) (ps : list Position) : Prop :=
  match ps with
  | [] => True
  | q :: ps' => step Tiles m p q ∧ route Tiles m q ps'
  end.

(** The [path] list of a search in progress: no position twice, every
    position marked as visited, none of them an end position. *)
Definition path_ok (s : search) : Prop :=
  NoDup (s_path s)
  ∧ ∀ q, q ∈ s_path s →
         is_visited (grid (s_maze s)) q = true ∧ q ∉ end_positions (s_maze s).

(** What a call of [find_path_aux] at [p] does to the [path] list: it is as
    before when the call returns [None]; a path returned is the list with a
    route from [p] to an end position appended. *)
Definition path_post (Tiles : TilesEnum) (s : search) (p : Position)
    (r : option (list Position)) (s' : search) : Prop :=
  match r with
  | None => s_path s' = s_path s
  | Some path =>
      ∃ rest e, path = s_path s ++ p :: rest
                ∧ route Tiles (s_maze s) p rest
                ∧ last (p :: rest) = Some e ∧ e ∈ end_positions (s_maze s)
                ∧ NoDup path
  end.

(** Two mazes that differ in the visited flags only, as far as the search
    can tell. *)
Definition same_maze (Tiles : TilesEnum) (m m' : Maze) : Prop :=
  end_positions m' = end_positions m ∧ rows m' = rows m ∧ cols m' = cols m
  ∧ (grid_shape m → grid_shape m')
  ∧ (∀ q, is_valid_position Tiles m' q = is_valid_position Tiles m q)
  ∧ (∀ q, is_visited (grid m) q = true → is_visited (grid m') q = true).
(** The positions [new] are explored to the end: every move from one of
    them leads to a position that is marked as visited in the grid [g'] and
    is no end position. *)
Definition closed (Tiles : TilesEnum) (m : Maze) (g' : list (list MazeCell))
    (new : list Position) : Prop :=
  ∀ q n, q ∈ new → step Tiles m q n → (n ∉ end_positions m) ∧ is_visited g' n = true.

(** What a call of [find_path_aux] at [p] that returns [None] has done: [p]
    is no end position and is marked, and the positions marked by the call
    are explored to the end. *)
Definition close_post (Tiles : TilesEnum) (s : search) (p : Position) (s' : search) : Prop :=
  (p ∉ end_positions (s_maze s))
  ∧ is_visited (grid (s_maze s')) p = true
  ∧ ∃ new, s_marked s' = s_marked s ++ new
           ∧ closed Tiles (s_maze s) (grid (s_maze s')) new.

(** The number of treasures in the hollows of a store. *)
Definition store_treasures (σ : store) : nat :=
  map_fold (λ _ hollow n, (hollow_len hollow + n)%nat) 0%nat σ.

(** The branches of the [if]/[elif] chain of [load_maze_from_file] that a
    wall takes, and that a tile takes which the chain passes over. *)
Definition wall_tile (Tiles : TilesEnum) (c : string) : Prop :=
  c ≠ START_POSITION Tiles ∧ c ≠ EXIT Tiles ∧ c = WALL Tiles.

Definition blank_tile (Tiles : TilesEnum) (c : string) : Prop :=
  c ≠ START_POSITION Tiles ∧ c ≠ EXIT Tiles ∧ c ≠ WALL Tiles
  ∧ c ≠ SPOOKY_HOLLOW Tiles ∧ c ≠ MYSTICAL_HOLLOW Tiles.

(** What the loader has recorded is in the file: the start where the file
    has the start tile, an exit where it has the exit tile, a wall where it
    has the wall tile and a hollow where it has a hollow tile. *)
Definition loader_mirrors (Tiles : TilesEnum) (lines : list string) (ld : loader) : Prop :=
  (∀ p, ld_start ld = Some p →
        nonneg p ∧ tile_at lines p = Some (START_POSITION Tiles))
  ∧ Forall (λ p, nonneg p ∧ ∃ c, tile_at lines p = Some c ∧ exit_tile Tiles c) (ld_ends ld)
  ∧ Forall (λ p, nonneg p ∧ ∃ c, tile_at lines p = Some c ∧ wall_tile Tiles c) (ld_walls ld)
  ∧ Forall (λ hp : loc * Position,
              nonneg hp.2 ∧ ∃ c, tile_at lines hp.2 = Some c
                                 ∧ (spooky_tile Tiles c ∨ mystical_tile Tiles c))
      (ld_hollows ld).

(** The exit or the wall that the tile [c] at [p] stands for is recorded. *)
Definition recorded (Tiles : TilesEnum) (p : Position) (c : string) (ld : loader) : Prop :=
  (exit_tile Tiles c → p ∈ ld_ends ld) ∧ (wall_tile Tiles c → p ∈ ld_walls ld).

(** * Properties *)

(** ** Keys *)

Lemma Qltb_lt (a b : Q) : Qltb a b = true ↔ (a < b)%Q.
Proof.
  unfold Qltb. rewrite negb_true_iff, <- not_true_iff_false, Qle_bool_iff.
  split; [apply Qnot_le_lt | apply Qlt_not_le].
Qed.

Lemma Qltb_ge (a b : Q) : Qltb a b = false ↔ (b <= a)%Q.
Proof.
  unfold Qltb. rewrite negb_false_iff, Qle_bool_iff. done.
Qed.

Lemma Qleb_le (a b : Q) : Qleb a b = true ↔ (a <= b)%Q.
Proof. apply Qle_bool_iff. Qed.

Lemma Qleb_gt (a b : Q) : Qleb a b = false → (b <= a)%Q.
Proof.
  unfold Qleb. rewrite <- not_true_iff_false, Qle_bool_iff.
  intros H. apply Qlt_le_weak, Qnot_le_lt, H.
Qed.

#[global] Instance Qle_transitive : Transitive Qle.
Proof. intros a b c. apply Qle_trans. Qed.

#[global] Instance key_le_trans {I} : Transitive (@key_le I).
Proof. intros a b c. unfold key_le. apply Qle_trans. Qed.

(** ** Python indexing *)

Lemma py_getitem_nat {A} (l : list A) (i : Z) :
  0 ≤ i < Z.of_nat (length l) → py_getitem l i = l !! Z.to_nat i.
Proof.
  intros Hi. unfold py_getitem, py_index.
  rewrite bool_decide_eq_true_2 by done. done.
Qed.

Lemma py_getitem_is_Some {A} (l : list A) (i : Z) :
  0 ≤ i < Z.of_nat (length l) → is_Some (py_getitem l i).
Proof.
  intros Hi. rewrite py_getitem_nat by done. apply lookup_lt_is_Some_2. lia.
Qed.

(** ** The sorter *)

Section sorter.
Context {I : Type}.
Implicit Types l : list (entry I).

Lemma merge_perm l1 l2 : merge l1 l2 ≡ₚ l1 ++ l2.
Proof.
  revert l2. induction l1 as [|x l1 IH]; intros l2; [by destruct l2|].
  induction l2 as [|y l2 IH2]; [by rewrite app_nil_r|].
  cbn [merge]. destruct (Qleb x.1 y.1).
  - cbn. by rewrite IH.
  - change (y :: merge (x :: l1) l2 ≡ₚ (x :: l1) ++ y :: l2).
    rewrite IH2. by rewrite Permutation_middle.
Qed.

Lemma merge_sorted l1 l2 :
  StronglySorted key_le l1 → StronglySorted key_le l2 →
  StronglySorted key_le (merge l1 l2).
Proof.
  revert l2. induction l1 as [|x l1 IH]; intros l2 H1 H2; [by destruct l2|].
  induction l2 as [|y l2 IH2]; [done|].
  cbn [merge]. destruct (Qleb x.1 y.1) eqn:Hxy.
  - apply StronglySorted_inv in H1 as [H1 Hx].
    constructor; [by apply IH|].
    rewrite merge_perm. apply Forall_app; split; [done|].
    apply Qleb_le in Hxy. apply StronglySorted_inv in H2 as [_ Hy].
    constructor; [done|].
    eapply Forall_impl; [exact Hy|]. intros z Hz. by etrans.
  - change (StronglySorted key_le (y :: merge (x :: l1) l2)).
    pose proof H2 as H2'. apply StronglySorted_inv in H2' as [H2' Hy].
    constructor; [by apply IH2|].
    rewrite merge_perm. apply Forall_app; split; [|done].
    apply Qleb_gt in Hxy. apply StronglySorted_inv in H1 as [_ Hx].
    constructor; [done|].
    eapply Forall_impl; [exact Hx|]. intros z Hz. by etrans.
Qed.

Lemma mergesort_fuel_perm fuel l : mergesort_fuel fuel l ≡ₚ l.
Proof.
  revert l. induction fuel as [|fuel IH]; intros l; [done|].
  cbn [mergesort_fuel]. case_bool_decide; [done|].
  rewrite merge_perm, !IH. by rewrite take_drop.
Qed.

Lemma mergesort_fuel_sorted fuel l :
  (length l ≤ fuel)%nat → StronglySorted key_le (mergesort_fuel fuel l).
Proof.
  revert l. induction fuel as [|fuel IH]; intros l Hl.
  - destruct l; [constructor | cbn in Hl; lia].
  - cbn [mergesort_fuel]. case_bool_decide as Hlen.
    + destruct l as [|x [|y l]]; cbn in Hlen; [constructor| |lia].
      constructor; [constructor | constructor].
    + assert (Hdiv : (1 ≤ (length l + 1) `div` 2 ∧ (length l + 1) `div` 2 < length l)%nat).
      { pose proof (Nat.div_mod (length l + 1) 2 ltac:(lia)).
        pose proof (Nat.mod_upper_bound (length l + 1) 2 ltac:(lia)). lia. }
      apply merge_sorted; apply IH.
      * rewrite length_take. lia.
      * rewrite length_drop. lia.
Qed.

Lemma mergesort_perm l : mergesort l ≡ₚ l.
Proof. apply mergesort_fuel_perm. Qed.

Lemma mergesort_sorted l : StronglySorted key_le (mergesort l).
Proof. by apply mergesort_fuel_sorted. Qed.

End sorter.

(** ** The search tree *)

Section bst_props.
Context {I : Type}.
Implicit Types t : tree I.

Lemma tree_len_inorder t : tree_len t = length (inorder t).
Proof.
  induction t as [|l IHl k i r IHr]; [done|].
  cbn. rewrite length_app. cbn. lia.
Qed.

Lemma insert_aux_perm key item t :
  inorder (insert_aux key item t) ≡ₚ (key, item) :: inorder t.
Proof.
  induction t as [|l IHl k i r IHr]; [done|].
  cbn. destruct (Qltb key k); cbn.
  - by rewrite IHl.
  - rewrite IHr. by rewrite <- !Permutation_middle, Permutation_swap.
Qed.

Lemma insert_aux_bst key item t : bst t → bst (insert_aux key item t).
Proof.
  induction t as [|l IHl k i r IHr]; [cbn; by auto|].
  intros (Hl & Hr & Hle & Hge). cbn. destruct (Qltb key k) eqn:Hk; cbn.
  - apply Qltb_lt in Hk. split_and!; [by auto|done| |done].
    rewrite insert_aux_perm. constructor; [|done]. by apply Qlt_le_weak.
  - apply Qltb_ge in Hk. split_and!; [done|by auto|done|].
    rewrite insert_aux_perm. by constructor.
Qed.

Lemma bst_inorder_sorted t : bst t → StronglySorted key_le (inorder t).
Proof.
  induction t as [|l IHl k i r IHr]; [constructor|].
  intros (Hl & Hr & Hle & Hge). cbn.
  apply StronglySorted_app_2; [|by auto|].
  - intros x y Hx Hy. rewrite Forall_forall in Hle, Hge.
    apply Hle in Hx. apply elem_of_cons in Hy as [->|Hy]; [done|].
    apply Hge in Hy. unfold key_le. by etrans.
  - constructor; [by auto|].
    eapply Forall_impl; [exact Hge|]. by intros [].
Qed.

Lemma delete_min_inorder l k i r m t' :
  delete_min l k i r = (m, t') →
  inorder (Node l k i r) = m :: inorder t'.
Proof.
  revert k i r m t'. induction l as [|ll IHll lk li lr _]; intros k i r m t'.
  - cbn. by intros [= <- <-].
  - cbn [delete_min]. destruct (delete_min ll lk li lr) as [m' l'] eqn:Hd.
    intros [= <- <-]. apply IHll in Hd. cbn in *. by rewrite Hd.
Qed.

(** A successful delete removes one node whose key equals the key asked
    for; every other node stays, in its place of the traversal. *)
Lemma delete_aux_inorder key t t' :
  delete_aux key t = Some t' →
  ∃ l1 k i l2, inorder t = l1 ++ (k, i) :: l2 ∧ inorder t' = l1 ++ l2 ∧ (k == key)%Q.
Proof.
  revert t'. induction t as [|l IHl k i r IHr]; intros t'; [done|].
  cbn [delete_aux]. destruct (Qltb key k) eqn:H1.
  - destruct (delete_aux key l) as [l'|] eqn:Hd; [|done]. intros [= <-].
    destruct (IHl _ eq_refl) as (l1 & k' & i' & l2 & E1 & E2 & Hk).
    exists l1, k', i', (l2 ++ (k, i) :: inorder r). cbn.
    by rewrite E1, E2, <- !app_assoc.
  - destruct (Qltb k key) eqn:H2.
    + destruct (delete_aux key r) as [r'|] eqn:Hd; [|done]. intros [= <-].
      destruct (IHr _ eq_refl) as (l1 & k' & i' & l2 & E1 & E2 & Hk).
      exists (inorder l ++ (k, i) :: l1), k', i', l2. cbn.
      by rewrite E1, E2, <- !app_assoc.
    + apply Qltb_ge in H1, H2.
      assert (Hk : (k == key)%Q) by by apply Qle_antisym.
      destruct l as [|ll lk li lr].
      { intros [= <-]. by exists [], k, i, (inorder r). }
      destruct r as [|rl rk ri rr].
      { intros [= <-]. exists (inorder (Node ll lk li lr)), k, i, [].
        by rewrite app_nil_r. }
      destruct (delete_min rl rk ri rr) as [[sk si] r'] eqn:Hd.
      intros [= <-]. apply delete_min_inorder in Hd.
      exists (inorder (Node ll lk li lr)), k, i, (inorder (Node rl rk ri rr)).
      split; [done|]. split; [|done]. cbn [inorder] in *. by rewrite Hd.
Qed.

Lemma delete_aux_len key t t' :
  delete_aux key t = Some t' → tree_len t = S (tree_len t').
Proof.
  intros (l1 & k & i & l2 & H1 & H2 & _)%delete_aux_inorder.
  rewrite !tree_len_inorder, H1, H2, !length_app. cbn. lia.
Qed.

(** In a search tree the delete finds every key that a node carries. *)
Lemma delete_aux_is_Some key t :
  bst t → (∃ e, e ∈ inorder t ∧ (e.1 == key)%Q) → is_Some (delete_aux key t).
Proof.
  induction t as [|l IHl k i r IHr]; intros Hb (e & He & Hk).
  { by apply elem_of_nil in He. }
  destruct Hb as (Hl & Hr & Hle & Hge). cbn [delete_aux].
  cbn in He. apply elem_of_app in He.
  destruct (Qltb key k) eqn:H1.
  - apply Qltb_lt in H1.
    destruct He as [He|He].
    + destruct (IHl Hl) as [l' ->]; [by eauto|]. by eexists.
    + exfalso. apply elem_of_cons in He as [->|He].
      * cbn in Hk. rewrite Hk in H1. by apply Qlt_irrefl in H1.
      * rewrite Forall_forall in Hge. apply Hge in He. rewrite Hk in He.
        by apply Qle_not_lt in He.
  - destruct (Qltb k key) eqn:H2.
    + apply Qltb_lt in H2.
      destruct He as [He|He].
      * exfalso. rewrite Forall_forall in Hle. apply Hle in He. rewrite Hk in He.
        by apply Qle_not_lt in He.
      * apply elem_of_cons in He as [->|He].
        { exfalso. cbn in Hk. rewrite Hk in H2. by apply Qlt_irrefl in H2. }
        destruct (IHr Hr) as [r' ->]; [by eauto|]. by eexists.
    + destruct l; [by eexists|]. destruct r; [by eexists|].
      destruct (delete_min _ _ _ _) as [[sk si] r']. by eexists.
Qed.

Lemma Forall_sublist_middle {A} (P : A → Prop) (l1 l2 : list A) x :
  Forall P (l1 ++ x :: l2) → Forall P (l1 ++ l2).
Proof. rewrite !Forall_app, Forall_cons. intros (H1 & _ & H2). by split. Qed.

Lemma delete_min_bst l k i r m t' :
  delete_min l k i r = (m, t') → bst (Node l k i r) →
  bst t' ∧ Forall (λ e, (m.1 <= e.1)%Q) (inorder t').
Proof.
  revert k i r m t'. induction l as [|ll IHll lk li lr _]; intros k i r m t'.
  - cbn. intros [= <- <-] (_ & Hr & _ & Hge). done.
  - cbn [delete_min]. destruct (delete_min ll lk li lr) as [m' l'] eqn:Hd.
    intros [= <- <-] (Hl & Hr & Hle & Hge).
    destruct (IHll _ _ _ _ _ Hd Hl) as [Hl' Hm].
    pose proof (delete_min_inorder _ _ _ _ _ _ Hd) as Hin.
    rewrite Hin in Hle. apply Forall_cons in Hle as [Hmk Hle].
    split; [done|]. cbn. apply Forall_app; split; [done|].
    constructor; [done|]. eapply Forall_impl; [exact Hge|].
    intros e He. cbn in *. by etrans.
Qed.

Lemma delete_aux_bst key t t' : delete_aux key t = Some t' → bst t → bst t'.
Proof.
  revert t'. induction t as [|l IHl k i r IHr]; intros t'; [done|].
  cbn [delete_aux]. intros Hd (Hl & Hr & Hle & Hge).
  destruct (Qltb key k) eqn:H1.
  - destruct (delete_aux key l) as [l'|] eqn:Hdl; [|done].
    injection Hd as <-. cbn. split_and!; [by eauto|done| |done].
    destruct (delete_aux_inorder _ _ _ Hdl) as (l1 & k' & i' & l2 & E1 & E2 & _).
    rewrite E2. rewrite E1 in Hle. by eapply Forall_sublist_middle.
  - destruct (Qltb k key) eqn:H2.
    + destruct (delete_aux key r) as [r'|] eqn:Hdr; [|done].
      injection Hd as <-. cbn. split_and!; [done|by eauto|done|].
      destruct (delete_aux_inorder _ _ _ Hdr) as (l1 & k' & i' & l2 & E1 & E2 & _).
      rewrite E2. rewrite E1 in Hge. by eapply Forall_sublist_middle.
    + destruct l as [|ll lk li lr]; [by injection Hd as <-|].
      destruct r as [|rl rk ri rr]; [by injection Hd as <-|].
      destruct (delete_min rl rk ri rr) as [[sk si] r'] eqn:Hdm.
      injection Hd as <-.
      destruct (delete_min_bst _ _ _ _ _ _ Hdm Hr) as [Hr' Hm].
      pose proof (delete_min_inorder _ _ _ _ _ _ Hdm) as Hin.
      rewrite Hin in Hge. apply Forall_cons in Hge as [Hks _].
      refine (conj Hl (conj Hr' (conj _ Hm))).
      eapply Forall_impl; [exact Hle|]. intros e He. cbn in *. by etrans.
Qed.

End bst_props.

(** ** The balanced build *)

Section betterbst_props.
Context {I : Type}.
Implicit Types (elements : list (entry I)) (self t : tree I).

Lemma build_tree_aux_step elements start end_ self :
  build_tree_aux elements start end_ self =
  if decide (start > end_) then Some self
  else
    '(key, value) ← py_getitem elements ((start + end_) `div` 2);
    self' ← build_tree_aux elements start ((start + end_) `div` 2 - 1)
              (insert_aux key value self);
    build_tree_aux elements ((start + end_) `div` 2 + 1) end_ self'.
Proof.
  rewrite build_tree_aux_equation_1.
  destruct (decide (start > end_)) as [H|H]; cbn; [done|].
  destruct (py_getitem elements _) as [[key value]|]; cbn; [|done].
  by destruct (build_tree_aux elements start _ _).
Qed.

Lemma mid_bounds (start end_ : Z) :
  start ≤ end_ → start ≤ (start + end_) `div` 2 ≤ end_.
Proof.
  intros H. pose proof (Z.div_mod (start + end_) 2 ltac:(lia)).
  pose proof (Z.mod_pos_bound (start + end_) 2 ltac:(lia)). lia.
Qed.

Lemma slice_empty elements start end_ : start > end_ → slice elements start end_ = [].
Proof. intros H. unfold slice. by replace (Z.to_nat _) with O by lia. Qed.

Lemma slice_all elements :
  slice elements 0 (Z.of_nat (length elements) - 1) = elements.
Proof.
  unfold slice. cbn [Z.to_nat drop]. apply take_ge. lia.
Qed.

Lemma slice_split elements start mid end_ x :
  0 ≤ start ≤ mid → mid ≤ end_ →
  elements !! Z.to_nat mid = Some x →
  slice elements start end_ =
  slice elements start (mid - 1) ++ x :: slice elements (mid + 1) end_.
Proof.
  intros Hs He Hx. unfold slice.
  replace (Z.to_nat (end_ + 1 - start))
    with (Z.to_nat (mid - 1 + 1 - start) + S (Z.to_nat (end_ + 1 - (mid + 1))))%nat by lia.
  rewrite <- take_take_drop.
  rewrite drop_drop.
  replace (Z.to_nat start + Z.to_nat (mid - 1 + 1 - start))%nat with (Z.to_nat mid) by lia.
  rewrite (drop_S _ x _ Hx). cbn [take].
  by replace (S (Z.to_nat mid)) with (Z.to_nat (mid + 1)) by lia.
Qed.

(** The recursion on an index range inside the list: it returns, and the
    tree it returns holds the entries it started with and those of the
    range. *)
Lemma build_tree_aux_range (n : nat) elements start end_ self :
  Z.to_nat (end_ + 1 - start) = n →
  0 ≤ start → end_ < Z.of_nat (length elements) →
  ∃ t, build_tree_aux elements start end_ self = Some t
       ∧ inorder t ≡ₚ inorder self ++ slice elements start end_
       ∧ (bst self → bst t).
Proof.
  revert start end_ self. induction (lt_wf n) as [n _ IH].
  intros start end_ self Hn Hs He. rewrite build_tree_aux_step.
  destruct (decide (start > end_)) as [Hgt|Hle].
  { exists self. by rewrite slice_empty, app_nil_r. }
  pose proof (mid_bounds start end_ ltac:(lia)) as Hmid.
  set (mid := (start + end_) `div` 2) in *.
  rewrite py_getitem_nat by lia.
  destruct (lookup_lt_is_Some_2 elements (Z.to_nat mid) ltac:(lia)) as [[key value] Hx].
  rewrite Hx. cbn.
  destruct (IH (Z.to_nat (mid - 1 + 1 - start)) ltac:(lia) start (mid - 1)
              (insert_aux key value self) eq_refl Hs ltac:(lia))
    as (t1 & -> & Hp1 & Hb1).
  cbn.
  destruct (IH (Z.to_nat (end_ + 1 - (mid + 1))) ltac:(lia) (mid + 1) end_
              t1 eq_refl ltac:(lia) He)
    as (t2 & -> & Hp2 & Hb2).
  exists t2. split; [done|]. split.
  - rewrite Hp2, Hp1, insert_aux_perm.
    rewrite (slice_split elements start mid end_ (key, value)) by (done || lia).
    rewrite <- !app_assoc. cbn. rewrite !app_assoc. apply Permutation_middle.
  - intros Hb. by apply Hb2, Hb1, insert_aux_bst.
Qed.

Lemma build_balanced_tree_spec elements self :
  ∃ t, __build_balanced_tree elements self = Some t
       ∧ inorder t ≡ₚ inorder self ++ elements
       ∧ (bst self → bst t).
Proof.
  unfold __build_balanced_tree.
  destruct (build_tree_aux_range _ elements 0 (Z.of_nat (length elements) - 1)
              self eq_refl ltac:(lia) ltac:(lia)) as (t & Ht & Hp & Hb).
  rewrite slice_all in Hp. by exists t.
Qed.

Lemma BetterBST_spec elements :
  ∃ t, BetterBST elements = Some t ∧ inorder t ≡ₚ elements ∧ bst t.
Proof.
  unfold BetterBST, __sort_elements.
  destruct (build_balanced_tree_spec (mergesort elements) Leaf) as (t & Ht & Hp & Hb).
  exists t. split; [done|]. split; [|by apply Hb].
  by rewrite Hp, mergesort_perm.
Qed.

End betterbst_props.

(** C5: [build_tree_aux] does nothing on an empty range ([start > end_]);
    on any other range it inserts the entry at index
    [mid = (start + end_) // 2] with the ordinary insert and then recurses
    on [start, mid - 1] and on [mid + 1, end_], in this order.  On a range
    inside the list it returns a tree that holds the entries it started
    with and those of the range, so the tree built from a list of [n]
    entries holds exactly these [n] key/item pairs (and is a search
    tree). *)
Theorem build_tree_aux_midpoint_recursion {I} (sorted_elements : list (entry I))
    (start end_ : Z) (self : tree I) :
  (start > end_ → build_tree_aux sorted_elements start end_ self = Some self)
  ∧ (start ≤ end_ →
     build_tree_aux sorted_elements start end_ self =
       '(key, value) ← py_getitem sorted_elements ((start + end_) `div` 2);
       self' ← build_tree_aux sorted_elements start ((start + end_) `div` 2 - 1)
                 (insert_aux key value self);
       build_tree_aux sorted_elements ((start + end_) `div` 2 + 1) end_ self')
  ∧ (0 ≤ start → end_ < Z.of_nat (length sorted_elements) →
     ∃ t, build_tree_aux sorted_elements start end_ self = Some t
          ∧ inorder t ≡ₚ inorder self ++ slice sorted_elements start end_)
  ∧ (∃ t, __build_balanced_tree sorted_elements Leaf = Some t
          ∧ inorder t ≡ₚ sorted_elements
          ∧ tree_len t = length sorted_elements
          ∧ bst t).
Proof.
  split_and!.
  - intros H. rewrite build_tree_aux_step. by rewrite decide_True.
  - intros H. rewrite build_tree_aux_step at 1. by rewrite decide_False by lia.
  - intros Hs He.
    destruct (build_tree_aux_range _ sorted_elements start end_ self eq_refl Hs He)
      as (t & Ht & Hp & _).
    by exists t.
  - destruct (build_balanced_tree_spec sorted_elements Leaf) as (t & Ht & Hp & Hb).
    exists t. cbn in Hp. split_and!; [done|done| |by apply Hb].
    by rewrite tree_len_inorder, Hp.
Qed.

(** ** The spooky hollow *)

Lemma StronglySorted_Forall_impl {A} (R R' : relation A) (P : A → Prop) (l : list A) :
  (∀ a b, P a → P b → R a b → R' a b) →
  Forall P l → StronglySorted R l → StronglySorted R' l.
Proof.
  intros HR HP Hs. induction Hs as [|a l Hs IH Ha]; [constructor|].
  apply Forall_cons in HP as [Pa HP]. constructor; [by auto|].
  rewrite Forall_forall in Ha, HP |- *. intros b Hb. apply HR; auto.
Qed.

Lemma neg_ratio_key (t : Treasure) :
  (inject_Z (- value t) / inject_Z (weight t) == - ratio t)%Q.
Proof. unfold ratio, Qdiv. rewrite inject_Z_opp. ring. Qed.

Lemma spooky_tuples_spec (treasures : list Treasure) :
  Forall (λ t, weight t ≠ 0) treasures →
  ∃ tuples, SpookyHollow.treasure_tuples treasures = Some tuples
            ∧ tuples.*2 = treasures
            ∧ Forall (λ e, (e.1 == - ratio e.2)%Q) tuples.
Proof.
  unfold SpookyHollow.treasure_tuples. induction 1 as [|t ts Ht _ (tuples & IH & E & HF)].
  - by exists [].
  - exists (((inject_Z (- value t) / inject_Z (weight t))%Q, t) :: tuples).
    cbn [mapM]. rewrite IH. unfold py_truediv.
    rewrite bool_decide_eq_false_2 by done. cbn.
    split; [done|]. split; [by rewrite E|].
    constructor; [apply neg_ratio_key | done].
Qed.

(** C4: for treasures of positive weight, [SpookyHollow.restructure_hollow]
    builds a tree that holds exactly the treasures given, each under the key
    [-(value / weight)], and whose in-order traversal lists them in
    non-increasing order of [value / weight]. *)
Theorem spooky_restructure_hollow_order (treasures : list Treasure) :
  Forall (λ t, 0 < weight t) treasures →
  ∃ tr, SpookyHollow.restructure_hollow treasures = Some (SpookyHollow tr)
        ∧ (inorder tr).*2 ≡ₚ treasures
        ∧ Forall (λ e, (e.1 == - ratio e.2)%Q) (inorder tr)
        ∧ StronglySorted (λ a b, (ratio b.2 <= ratio a.2)%Q) (inorder tr).
Proof.
  intros Hw.
  destruct (spooky_tuples_spec treasures) as (tuples & Ht & E & Hk).
  { eapply Forall_impl; [exact Hw|]. cbn. lia. }
  destruct (BetterBST_spec tuples) as (tr & Hb & Hp & Hbst).
  exists tr. unfold SpookyHollow.restructure_hollow. rewrite Ht. cbn. rewrite Hb. cbn.
  assert (Hk' : Forall (λ e : entry Treasure, (e.1 == - ratio e.2)%Q) (inorder tr)).
  { by rewrite Hp. }
  split_and!; [done| |done|].
  - by rewrite Hp, E.
  - eapply StronglySorted_Forall_impl; [|exact Hk'|by apply bst_inorder_sorted].
    intros a b Ha Hb' Hab. unfold key_le in Hab. rewrite Ha, Hb' in Hab.
    by apply Qopp_le_compat in Hab; rewrite !Qopp_involutive in Hab.
Qed.

Lemma spooky_restructure_hollow_order_witness :
  ∃ tr, SpookyHollow.restructure_hollow [mkTreasure 10 5; mkTreasure 9 3; mkTreasure 1 4]
        = Some (SpookyHollow tr)
        ∧ (inorder tr).*2 ≡ₚ [mkTreasure 10 5; mkTreasure 9 3; mkTreasure 1 4]
        ∧ Forall (λ e, (e.1 == - ratio e.2)%Q) (inorder tr)
        ∧ StronglySorted (λ a b, (ratio b.2 <= ratio a.2)%Q) (inorder tr).
Proof.
  apply (spooky_restructure_hollow_order [mkTreasure 10 5; mkTreasure 9 3; mkTreasure 1 4]).
  repeat constructor.
Defined.

Lemma spooky_scan_Some nodes cap node :
  SpookyHollow.scan nodes cap = Some node →
  ∃ l1 l2, nodes = l1 ++ node :: l2
           ∧ Forall (λ e, cap < weight e.2) l1 ∧ weight node.2 ≤ cap.
Proof.
  induction nodes as [|e nodes IH]; [done|]. cbn. case_bool_decide as He.
  - intros [= <-]. by exists [], nodes.
  - intros (l1 & l2 & -> & Hl1 & Hn)%IH. exists (e :: l1), l2.
    split; [done|]. split; [|done]. constructor; [lia|done].
Qed.

Lemma spooky_scan_None nodes cap :
  SpookyHollow.scan nodes cap = None ↔ Forall (λ e, cap < weight e.2) nodes.
Proof.
  induction nodes as [|e nodes IH]; [done|]. cbn. case_bool_decide as He.
  - split; [done|]. intros [? _]%Forall_cons. lia.
  - rewrite IH, Forall_cons. split; [|tauto]. intros H. split; [lia|done].
Qed.

(** What one call of [SpookyHollow.get_optimal_treasure] does to a search
    tree: it returns; a treasure returned is the first of the traversal that
    fits, and one node with that node's key is gone; with no treasure
    returned nothing fits and the tree is the same. *)
Lemma spooky_get_optimal_treasure_spec (treasures : tree Treasure) (cap : Z) :
  bst treasures →
  ∃ r treasures',
    SpookyHollow.get_optimal_treasure treasures cap = Some (r, treasures')
    ∧ bst treasures'
    ∧ match r with
      | Some t =>
          ∃ l1 k l2, inorder treasures = l1 ++ (k, t) :: l2
                     ∧ Forall (λ e, cap < weight e.2) l1 ∧ weight t ≤ cap
                     ∧ ∃ m1 k' t' m2, inorder treasures = m1 ++ (k', t') :: m2
                                      ∧ inorder treasures' = m1 ++ m2 ∧ (k' == k)%Q
      | None => treasures' = treasures
                ∧ Forall (λ e, cap < weight e.2) (inorder treasures)
      end.
Proof.
  intros Hb. unfold SpookyHollow.get_optimal_treasure.
  destruct (SpookyHollow.scan (inorder treasures) cap) as [[k t]|] eqn:Hs.
  - destruct (spooky_scan_Some _ _ _ Hs) as (l1 & l2 & E & Hl1 & Hfit).
    destruct (delete_aux_is_Some k treasures Hb) as [treasures' Hd].
    { exists (k, t). split; [|done]. rewrite E. set_solver. }
    cbn. rewrite Hd. cbn. exists (Some t), treasures'.
    split; [done|]. split; [by eapply delete_aux_bst|].
    exists l1, k, l2. split_and!; [done..|].
    destruct (delete_aux_inorder _ _ _ Hd) as (m1 & k' & t' & m2 & ? & ? & ?).
    by exists m1, k', t', m2.
  - exists None, treasures. by apply spooky_scan_None in Hs.
Qed.

(** ** The heap: contents *)

#[local] Arguments sink : simpl never.
#[local] Arguments rise : simpl never.

Section maxheap_contents.
Context {I : Type}.
Implicit Types h : heap I.

Lemma sink_S fuel h k :
  sink (S fuel) h k =
  match largest_child h k with
  | None => h
  | Some c =>
      match h !! k, h !! c with
      | Some x, Some y => if Qltb x.1 y.1 then sink fuel (swap h k c) c else h
      | _, _ => h
      end
  end.
Proof. done. Qed.

Lemma rise_S fuel h k :
  rise (S fuel) h (S k) =
  match h !! S k, h !! ((S k - 1) `div` 2)%nat with
  | Some x, Some y =>
      if Qltb y.1 x.1
      then rise fuel (swap h (S k) ((S k - 1) `div` 2)%nat) ((S k - 1) `div` 2)%nat
      else h
  | _, _ => h
  end.
Proof. done. Qed.

Lemma swap_length h i j : length (swap h i j) = length h.
Proof.
  unfold swap. destruct (h !! i), (h !! j); try done. by rewrite !length_insert.
Qed.

Lemma swap_perm h i j : swap h i j ≡ₚ h.
Proof.
  unfold swap. destruct (h !! i) eqn:Hi, (h !! j) eqn:Hj; try done.
  by apply Permutation_insert_swap.
Qed.

Lemma sink_length fuel h k : length (sink fuel h k) = length h.
Proof.
  revert h k. induction fuel as [|fuel IH]; intros h k; [done|]. rewrite sink_S.
  destruct (largest_child h k) as [c|]; [|done].
  destruct (h !! k), (h !! c); try done.
  destruct (Qltb _ _); [|done]. by rewrite IH, swap_length.
Qed.

Lemma sink_perm fuel h k : sink fuel h k ≡ₚ h.
Proof.
  revert h k. induction fuel as [|fuel IH]; intros h k; [done|]. rewrite sink_S.
  destruct (largest_child h k) as [c|]; [|done].
  destruct (h !! k), (h !! c); try done.
  destruct (Qltb _ _); [|done]. by rewrite IH, swap_perm.
Qed.

Lemma rise_length fuel h k : length (rise fuel h k) = length h.
Proof.
  revert h k. induction fuel as [|fuel IH]; intros h k; [done|].
  destruct k as [|k]; [done|]. rewrite rise_S.
  destruct (h !! S k), (h !! ((S k - 1) `div` 2)%nat); try done.
  destruct (Qltb _ _); [|done]. by rewrite IH, swap_length.
Qed.

Lemma rise_perm fuel h k : rise fuel h k ≡ₚ h.
Proof.
  revert h k. induction fuel as [|fuel IH]; intros h k; [done|].
  destruct k as [|k]; [done|]. rewrite rise_S.
  destruct (h !! S k), (h !! ((S k - 1) `div` 2)%nat); try done.
  destruct (Qltb _ _); [|done]. by rewrite IH, swap_perm.
Qed.

Lemma heap_add_perm x h : MaxHeap.add x h ≡ₚ x :: h.
Proof.
  unfold MaxHeap.add. rewrite rise_perm. by rewrite Permutation_app_comm.
Qed.

Lemma heap_add_length x h : length (MaxHeap.add x h) = S (length h).
Proof. unfold MaxHeap.add. rewrite rise_length, length_app. cbn. lia. Qed.

Lemma heapify_perm (points : list (entry I)) : MaxHeap.heapify points ≡ₚ points.
Proof.
  unfold MaxHeap.heapify. generalize (reverse (seq 0 (length points `div` 2)%nat)).
  intros ks. revert points. induction ks as [|k ks IH]; intros points; [done|].
  cbn. by rewrite IH, sink_perm.
Qed.

Lemma get_max_is_Some h : h ≠ [] → is_Some (MaxHeap.get_max h).
Proof.
  destruct h as [|top rest]; [done|]. intros _. cbn.
  destruct (last rest); by eexists.
Qed.

Lemma get_max_perm h x h' : MaxHeap.get_max h = Some (x, h') → h ≡ₚ x :: h'.
Proof.
  destruct h as [|top rest]; [done|]. unfold MaxHeap.get_max.
  destruct (last rest) as [z|] eqn:Hl.
  - intros [= <- <-]. apply last_Some in Hl as [rl ->].
    rewrite removelast_last, sink_perm. constructor.
    by rewrite Permutation_app_comm.
  - intros [= <- <-]. apply last_None in Hl as ->. done.
Qed.

Lemma get_max_length h x h' : MaxHeap.get_max h = Some (x, h') → length h = S (length h').
Proof. intros Hp%get_max_perm. by rewrite Hp. Qed.

End maxheap_contents.

(** ** The heap: order *)

(** Close a goal [y.1 <= x.1] from a hypothesis on the order of the heap,
    at the two positions where [x] and [y] are found. *)
Ltac use_dominates H :=
  match goal with
  | Hp : ?h !! ?p = Some ?x, Hc : ?h !! ?c = Some ?y |- (?y.1 <= ?x.1)%Q =>
      first [ eapply (H p c); [first [done | lia]..]
            | eapply (H c y); [first [done | lia]..] ]
  end.

Section maxheap_order.
Context {I : Type}.
Implicit Types h : heap I.

Lemma swap_lookup h i j x y n :
  i ≠ j → h !! i = Some x → h !! j = Some y →
  swap h i j !! n =
  if decide (n = i) then Some y else if decide (n = j) then Some x else h !! n.
Proof.
  intros Hij Hi Hj. unfold swap. rewrite Hi, Hj.
  apply lookup_lt_Some in Hi as Hil. apply lookup_lt_Some in Hj as Hjl.
  destruct (decide (n = i)) as [->|Hni].
  - rewrite list_lookup_insert_eq; [done|]. by rewrite length_insert.
  - rewrite list_lookup_insert_ne by done.
    destruct (decide (n = j)) as [->|Hnj].
    + by rewrite list_lookup_insert_eq.
    + by rewrite list_lookup_insert_ne.
Qed.

Lemma largest_child_None h k :
  largest_child h k = None → ∀ c, is_child k c → h !! c = None.
Proof.
  unfold largest_child. destruct (h !! (2 * k + 1)%nat) eqn:H1.
  { by destruct (h !! (2 * k + 2)%nat); [destruct (Qltb _ _)|]. }
  intros _ c [->| ->]; [done|].
  apply lookup_ge_None. apply lookup_ge_None in H1. lia.
Qed.

Lemma largest_child_Some h k c :
  largest_child h k = Some c →
  is_child k c ∧ ∃ y, h !! c = Some y
    ∧ ∀ c' y', is_child k c' → h !! c' = Some y' → (y'.1 <= y.1)%Q.
Proof.
  unfold largest_child, is_child.
  destruct (h !! (2 * k + 1)%nat) as [a|] eqn:H1; [|done].
  destruct (h !! (2 * k + 2)%nat) as [b|] eqn:H2.
  - destruct (Qltb a.1 b.1) eqn:Hab; intros [= <-].
    + apply Qltb_lt in Hab. split; [by right|]. exists b. split; [done|].
      intros c' y' [->| ->] Hy'; simplify_eq; [by apply Qlt_le_weak | apply Qle_refl].
    + apply Qltb_ge in Hab. split; [by left|]. exists a. split; [done|].
      intros c' y' [->| ->] Hy'; simplify_eq; [apply Qle_refl | done].
  - intros [= <-]. split; [by left|]. exists a. split; [done|].
    intros c' y' [->| ->] Hy'; simplify_eq. apply Qle_refl.
Qed.

Lemma sink_max_heap fuel lo h k :
  (lo ≤ k)%nat → (length h ≤ fuel + k)%nat → sink_inv lo h k →
  max_heap_from lo (sink fuel h k).
Proof.
  revert h k. induction fuel as [|fuel IH]; intros h k Hlo Hlen [H1 H2].
  - change (sink 0 h k) with h.
    intros p c Hp Hc x y Hx Hy. destruct (decide (p = k)) as [->|Hpk].
    + apply lookup_lt_Some in Hx. cbn in Hlen. lia.
    + by eapply H1.
  - rewrite sink_S. destruct (largest_child h k) as [c|] eqn:Hlc.
    2:{ intros p c Hp Hc x y Hx Hy. destruct (decide (p = k)) as [->|Hpk].
        - by rewrite (largest_child_None _ _ Hlc c Hc) in Hy.
        - by eapply H1. }
    destruct (largest_child_Some _ _ _ Hlc) as (Hkc & y & Hy & Hmax).
    destruct (h !! k) as [x|] eqn:Hx.
    2:{ apply lookup_ge_None in Hx. apply lookup_lt_Some in Hy.
        unfold is_child in Hkc. lia. }
    rewrite Hy. destruct (Qltb x.1 y.1) eqn:Hxy.
    + apply Qltb_lt in Hxy.
      assert (Hne : k ≠ c) by (unfold is_child in Hkc; lia).
      apply IH.
      * unfold is_child in Hkc. lia.
      * rewrite swap_length. unfold is_child in Hkc. lia.
      * split.
        -- intros p' c' Hp' Hpc Hc' x' y'.
           rewrite !(swap_lookup h k c x y) by done.
           intros Hx' Hy'. unfold is_child in *.
           repeat case_decide; simplify_eq; try lia;
             first [ by apply Qlt_le_weak | by use_dominates Hmax
                   | by use_dominates H2 | by use_dominates H1 ].
        -- intros g c' Hg Hgc Hcc' x' y'.
           rewrite !(swap_lookup h k c x y) by done.
           intros Hx' Hy'. unfold is_child in *.
           repeat case_decide; simplify_eq; try lia; by use_dominates H1.
    + apply Qltb_ge in Hxy.
      intros p c' Hp Hc x' y' Hx' Hy'. destruct (decide (p = k)) as [->|Hpk].
      * simplify_eq. etrans; [by eapply Hmax|done].
      * by eapply H1.
Qed.

Lemma parent_is_child (k : nat) : is_child ((S k - 1) `div` 2)%nat (S k).
Proof.
  unfold is_child.
  pose proof (Nat.div_mod (S k - 1) 2 ltac:(lia)).
  pose proof (Nat.mod_upper_bound (S k - 1) 2 ltac:(lia)). lia.
Qed.

Lemma rise_max_heap fuel h k :
  (k < fuel)%nat → rise_inv h k → max_heap (rise fuel h k).
Proof.
  revert h k. induction fuel as [|fuel IH]; intros h k Hk [H1 H2]; [lia|].
  destruct k as [|k].
  { change (rise (S fuel) h 0) with h. intros p c _ Hc.
    apply H1; [unfold is_child in Hc; lia | done]. }
  rewrite rise_S. pose proof (parent_is_child k) as Hpk.
  set (q := ((S k - 1) `div` 2)%nat) in *.
  assert (Hq : q ≠ S k) by (unfold is_child in Hpk; lia).
  destruct (h !! S k) as [x|] eqn:Hx.
  2:{ intros p c _ Hc x' y' Hx' Hy'. destruct (decide (c = S k)) as [->|Hne].
      - by rewrite Hx in Hy'.
      - by eapply H1. }
  destruct (h !! q) as [y|] eqn:Hy.
  2:{ intros p c _ Hc x' y' Hx' Hy'. destruct (decide (c = S k)) as [->|Hne].
      - unfold is_child in *. assert (p = q) as -> by lia. by rewrite Hy in Hx'.
      - by eapply H1. }
  destruct (Qltb y.1 x.1) eqn:Hyx.
  - apply Qltb_lt in Hyx. apply IH.
    + unfold is_child in Hpk. lia.
    + split.
      * intros p c Hcq Hc x' y'.
        rewrite !(swap_lookup h (S k) q x y) by done.
        intros Hx' Hy'. unfold is_child in *.
        repeat case_decide; simplify_eq; try lia;
          first [ by apply Qlt_le_weak | by use_dominates H2 | by use_dominates H1
                | etrans; [|by apply Qlt_le_weak]; by use_dominates H1 ].
      * intros g c Hg Hc x' y'.
        rewrite !(swap_lookup h (S k) q x y) by done.
        intros Hx' Hy'. unfold is_child in *.
        repeat case_decide; simplify_eq; try lia;
          first [ by use_dominates H1 | by (trans y.1; use_dominates H1) ].
  - apply Qltb_ge in Hyx.
    intros p c _ Hc x' y' Hx' Hy'. destruct (decide (c = S k)) as [->|Hne].
    + unfold is_child in *. assert (p = q) as -> by lia. by simplify_eq.
    + by eapply H1.
Qed.

Lemma heap_add_max_heap x h : max_heap h → max_heap (MaxHeap.add x h).
Proof.
  intros Hh. unfold MaxHeap.add. apply rise_max_heap; [lia|]. split.
  - intros p c Hc Hpc x' y' Hx' Hy'.
    apply lookup_lt_Some in Hy' as Hlt. rewrite length_app in Hlt. cbn in Hlt.
    unfold is_child in Hpc.
    rewrite lookup_app_l in Hx', Hy' by lia.
    eapply (Hh p c); [lia|done..].
  - intros g c _ Hc x' y' _ Hy'.
    apply lookup_lt_Some in Hy'. rewrite length_app in Hy'. cbn in Hy'.
    unfold is_child in Hc. lia.
Qed.

(** The root of a max-heap carries a largest key. *)
Lemma max_heap_root h top :
  max_heap h → h !! 0%nat = Some top → Forall (λ e, (e.1 <= top.1)%Q) h.
Proof.
  intros Hh Htop. apply Forall_lookup. intros i.
  induction (lt_wf i) as [i _ IH]. intros e He.
  destruct i as [|i]; [simplify_eq; apply Qle_refl|].
  pose proof (parent_is_child i) as Hpc.
  set (q := ((S i - 1) `div` 2)%nat) in *.
  assert (Hq : (q < S i)%nat) by (unfold is_child in Hpc; lia).
  destruct (lookup_lt_is_Some_2 h q) as [e' He'].
  { apply lookup_lt_Some in He. lia. }
  etrans; [|by apply (IH q Hq e')].
  eapply (Hh q (S i)); [lia|done..].
Qed.

Lemma get_max_max_heap h x h' :
  max_heap h → MaxHeap.get_max h = Some (x, h') →
  max_heap h' ∧ Forall (λ e, (e.1 <= x.1)%Q) h'.
Proof.
  intros Hh Hg. split.
  - destruct h as [|top rest]; [done|]. unfold MaxHeap.get_max in Hg.
    destruct (last rest) as [z|] eqn:Hl.
    2:{ injection Hg as <- <-. by intros p c _ _ x' y' Hx'. }
    injection Hg as <- <-. apply last_Some in Hl as [rl ->].
    rewrite removelast_last. apply sink_max_heap; [lia|cbn; lia|]. split.
    + intros p c _ Hp Hc x' y' Hx' Hy'. unfold is_child in Hc.
      apply lookup_lt_Some in Hy' as Hlt. cbn in Hlt.
      eapply (Hh p c); [lia|done|..].
      * destruct p as [|p]; [done|]. simpl in *.
        rewrite lookup_app_l; [done|]. lia.
      * destruct c as [|c]; [lia|]. simpl in *.
        rewrite lookup_app_l; [done|]. lia.
    + intros g c _ Hg. unfold is_child in Hg. lia.
  - pose proof (get_max_perm _ _ _ Hg) as Hp.
    destruct h as [|top rest]; [done|].
    assert (x = top) as ->.
    { unfold MaxHeap.get_max in Hg. by destruct (last rest); injection Hg as <- <-. }
    pose proof (max_heap_root _ top Hh eq_refl) as Hall.
    rewrite Hp in Hall. by apply Forall_cons in Hall as [_ ?].
Qed.

Lemma heapify_max_heap (points : list (entry I)) : max_heap (MaxHeap.heapify points).
Proof.
  unfold MaxHeap.heapify.
  assert (H0 : max_heap_from (length points `div` 2)%nat points).
  { intros p c Hp Hc x y _ Hy. apply lookup_lt_Some in Hy.
    unfold is_child in Hc.
    pose proof (Nat.div_mod (length points) 2 ltac:(lia)).
    pose proof (Nat.mod_upper_bound (length points) 2 ltac:(lia)). lia. }
  revert H0. generalize (length points `div` 2)%nat. intros m. revert points.
  induction m as [|m IH]; intros h Hm; [done|].
  rewrite seq_S, reverse_app. cbn. apply IH.
  apply sink_max_heap; [lia|lia|]. split.
  - intros p c Hp Hne Hc. apply Hm; [lia|done].
  - intros g c Hg Hc. unfold is_child in Hc. lia.
Qed.

End maxheap_order.

(** ** The mystical hollow *)

Lemma mystical_restore_perm (treasures temp_storage : heap Treasure) :
  MysticalHollow.restore treasures temp_storage ≡ₚ temp_storage ++ treasures.
Proof.
  unfold MysticalHollow.restore. revert treasures.
  induction temp_storage as [|e temp IH]; intros treasures; [done|].
  cbn. rewrite IH, heap_add_perm. by rewrite Permutation_middle.
Qed.

Lemma mystical_restore_max_heap (treasures temp_storage : heap Treasure) :
  max_heap treasures → max_heap (MysticalHollow.restore treasures temp_storage).
Proof.
  unfold MysticalHollow.restore. revert treasures.
  induction temp_storage as [|e temp IH]; intros treasures Hh; [done|].
  cbn. by apply IH, heap_add_max_heap.
Qed.

(** The [while] loop on a max-heap, with fuel for every entry: it returns;
    the entries it took out, the rejected ones first and the accepted one
    last, came out in non-increasing key order, each with a key no smaller
    than any key left; the rejected ones do not fit, the accepted one does;
    and without an accepted one the heap is empty. *)
Lemma mystical_scan_spec fuel (treasures : heap Treasure) cap temp_storage :
  (length treasures < fuel)%nat → max_heap treasures →
  ∃ accepted rest rejected,
    MysticalHollow.scan fuel treasures cap temp_storage
    = Returns (snd <$> accepted, rest, temp_storage ++ rejected)
    ∧ treasures ≡ₚ rejected ++ option_list accepted ++ rest
    ∧ StronglySorted key_ge (rejected ++ option_list accepted)
    ∧ (∀ e e', e ∈ rejected ++ option_list accepted → e' ∈ rest → (e'.1 <= e.1)%Q)
    ∧ Forall (λ e, cap < weight e.2) rejected
    ∧ (∀ e, accepted = Some e → weight e.2 ≤ cap)
    ∧ (accepted = None → rest = [])
    ∧ max_heap rest.
Proof.
  revert treasures temp_storage.
  induction fuel as [|fuel IH]; intros h temp Hlen Hh; [lia|].
  cbn [MysticalHollow.scan]. case_bool_decide as Hempty.
  { apply nil_length_inv in Hempty as ->. exists None, [], [].
    rewrite app_nil_r. split_and!; try done; [constructor|set_solver]. }
  destruct (get_max_is_Some h) as [[[ratio t] h1] Hg].
  { by intros ->. }
  rewrite Hg.
  pose proof (get_max_perm _ _ _ Hg) as Hp.
  destruct (get_max_max_heap _ _ _ Hh Hg) as [Hh1 Hmax]. cbn in Hmax.
  case_bool_decide as Hfit.
  - exists (Some (ratio, t)), h1, []. rewrite app_nil_r. cbn.
    split_and!; try done.
    + repeat constructor.
    + intros e e' ->%list_elem_of_singleton He'.
      rewrite Forall_forall in Hmax. by apply Hmax.
    + by intros e [= <-].
  - destruct (IH h1 (temp ++ [(ratio, t)])) as
      (accepted & rest & rejected & Hscan & Hp1 & Hsorted & Hrest & Hrej & Hacc & Hnone & Hrok).
    { apply get_max_length in Hg. lia. }
    { done. }
    exists accepted, rest, ((ratio, t) :: rejected).
    rewrite Hscan, <- app_assoc. cbn.
    rewrite Hp1 in Hmax, Hp. rewrite app_assoc in Hmax.
    apply Forall_app in Hmax as [Hmax1 Hmax2].
    split_and!; try done.
    + constructor; [done|]. eapply Forall_impl; [exact Hmax1|]. done.
    + intros e e' [->|He]%elem_of_cons He'.
      * rewrite Forall_forall in Hmax2. by apply Hmax2.
      * by apply Hrest.
    + constructor; [cbn; lia|done].
Qed.

(** What one call of [MysticalHollow.get_optimal_treasure] does to a
    max-heap. *)
Lemma mystical_get_optimal_treasure_spec (treasures : heap Treasure) cap :
  max_heap treasures →
  ∃ accepted rest rejected,
    MysticalHollow.scan (S (length treasures)) treasures cap [] = Returns (snd <$> accepted, rest, rejected)
    ∧ MysticalHollow.get_optimal_treasure treasures cap
      = Returns (snd <$> accepted, MysticalHollow.restore rest rejected)
    ∧ treasures ≡ₚ rejected ++ option_list accepted ++ rest
    ∧ StronglySorted key_ge (rejected ++ option_list accepted)
    ∧ (∀ e e', e ∈ rejected ++ option_list accepted → e' ∈ rest → (e'.1 <= e.1)%Q)
    ∧ Forall (λ e, cap < weight e.2) rejected
    ∧ (∀ e, accepted = Some e → weight e.2 ≤ cap)
    ∧ (accepted = None → rest = [])
    ∧ max_heap rest.
Proof.
  intros Hh.
  destruct (mystical_scan_spec (S (length treasures)) treasures cap [] ltac:(lia) Hh)
    as (accepted & rest & rejected & Hscan & H).
  exists accepted, rest, rejected. cbn [app] in Hscan.
  unfold MysticalHollow.get_optimal_treasure. rewrite Hscan. done.
Qed.

(** ** Both hollows *)

Lemma spooky_restructure_hollow_ok treasures self :
  SpookyHollow.restructure_hollow treasures = Some self → hollow_ok self.
Proof.
  unfold SpookyHollow.restructure_hollow.
  destruct (SpookyHollow.treasure_tuples treasures) as [tuples|]; [|done]. cbn.
  destruct (BetterBST_spec tuples) as (t & -> & _ & Hb). by intros [= <-].
Qed.

Lemma mystical_restructure_hollow_ok treasures self :
  MysticalHollow.restructure_hollow treasures = Some self → hollow_ok self.
Proof.
  unfold MysticalHollow.restructure_hollow.
  destruct (MysticalHollow.treasure_tuples treasures) as [tuples|]; [|done]. cbn.
  intros [= <-]. apply heapify_max_heap.
Qed.

Lemma get_optimal_treasure_spec (self : Hollow) (backpack_capacity : Z) :
  hollow_ok self →
  ∃ r self',
    get_optimal_treasure self backpack_capacity = Returns (r, self')
    ∧ hollow_ok self'
    ∧ match r with
      | Some _ => hollow_len self = S (hollow_len self')
      | None => hollow_len self' = hollow_len self
                ∧ hollow_contents self' ≡ₚ hollow_contents self
      end.
Proof.
  destruct self as [t|h]; cbn [hollow_ok get_optimal_treasure]; intros Hok.
  - destruct (spooky_get_optimal_treasure_spec t backpack_capacity Hok)
      as (r & t' & -> & Hok' & Hr).
    exists r, (SpookyHollow t'). split; [done|]. split; [done|].
    destruct r as [x|].
    + destruct Hr as (_ & _ & _ & _ & _ & _ & m1 & k' & x' & m2 & E1 & E2 & _).
      cbn. rewrite !tree_len_inorder, E1, E2, !length_app. cbn. lia.
    + by destruct Hr as [-> _].
  - destruct (mystical_get_optimal_treasure_spec h backpack_capacity Hok)
      as (accepted & rest & rejected & _ & -> & Hp & _ & _ & _ & _ & Hnone & Hrest).
    exists (snd <$> accepted), (MysticalHollow (MysticalHollow.restore rest rejected)).
    split; [done|]. split; [by apply mystical_restore_max_heap|].
    pose proof (mystical_restore_perm rest rejected) as Hp'.
    destruct accepted as [e|]; cbn in *.
    + rewrite Hp, Hp', !length_app. cbn. lia.
    + rewrite (Hnone eq_refl) in *. rewrite Hp', Hp. by rewrite !app_nil_r.
Qed.

(** C1: on a hollow whose collection has its invariant (as every hollow has
    from [restructure_hollow] on), [get_optimal_treasure] returns, and the
    invariant holds again; when it returns a treasure the hollow has exactly
    one treasure less, and when it returns none the hollow has as many
    treasures as before, and the same ones. *)
Theorem get_optimal_treasure_size (self : Hollow) (backpack_capacity : Z) :
  hollow_ok self →
  ∃ r self',
    get_optimal_treasure self backpack_capacity = Returns (r, self')
    ∧ hollow_ok self'
    ∧ match r with
      | Some _ => hollow_len self = S (hollow_len self')
      | None => hollow_len self' = hollow_len self
                ∧ hollow_contents self' ≡ₚ hollow_contents self
      end.
Proof. apply get_optimal_treasure_spec. Qed.

Lemma get_optimal_treasure_size_witness :
  let self := MysticalHollow
                (MaxHeap.heapify [(2%Q, mkTreasure 10 5); (3%Q, mkTreasure 9 3); (2%Q, mkTreasure 4 2)]) in
  hollow_ok self
  ∧ ∃ r self',
      get_optimal_treasure self 2 = Returns (r, self')
      ∧ hollow_ok self'
      ∧ match r with
        | Some _ => hollow_len self = S (hollow_len self')
        | None => hollow_len self' = hollow_len self
                  ∧ hollow_contents self' ≡ₚ hollow_contents self
        end.
Proof.
  intros self.
  assert (Hok : hollow_ok self) by apply heapify_max_heap.
  split; [exact Hok|]. exact (get_optimal_treasure_size self 2 Hok).
Defined.

(** C2, at a tie: two treasures of equal ratio, of which only the second
    fits; the tree holds both under the key [-2].  The call returns the second one, the
    node it deletes is the first one's, and the hollow is left holding the
    treasure it has just handed out. *)
Example spooky_tie_removes_other_node :
  ∃ self self',
    SpookyHollow.restructure_hollow [mkTreasure 10 5; mkTreasure 4 2] = Some self
    ∧ hollow_contents self = [mkTreasure 10 5; mkTreasure 4 2]
    ∧ get_optimal_treasure self 2 = Returns (Some (mkTreasure 4 2), self')
    ∧ hollow_contents self' = [mkTreasure 4 2].
Proof. by eexists _, _. Qed.

(** Without ties the delete by key is the delete of the node found: in a
    search tree whose keys are pairwise different, the node that [SpookyHollow.get_optimal_treasure] deletes is
    the very node of the treasure it returns, the first of the traversal
    that fits; the others stay in place. *)
Lemma spooky_get_optimal_treasure_distinct (treasures : tree Treasure) (cap : Z) :
  bst treasures →
  (∀ i j e e', inorder treasures !! i = Some e → inorder treasures !! j = Some e' →
               (e.1 == e'.1)%Q → i = j) →
  ∃ r treasures',
    SpookyHollow.get_optimal_treasure treasures cap = Some (r, treasures')
    ∧ match r with
      | Some t =>
          ∃ l1 k l2, inorder treasures = l1 ++ (k, t) :: l2
                     ∧ Forall (λ e, cap < weight e.2) l1 ∧ weight t ≤ cap
                     ∧ inorder treasures' = l1 ++ l2
      | None => treasures' = treasures
                ∧ Forall (λ e, cap < weight e.2) (inorder treasures)
      end.
Proof.
  intros Hb Hdistinct.
  destruct (spooky_get_optimal_treasure_spec treasures cap Hb) as (r & t' & Hr & _ & H).
  exists r, t'. split; [done|]. destruct r as [t|]; [|done].
  destruct H as (l1 & k & l2 & E1 & Hl1 & Hfit & m1 & k' & x' & m2 & E2 & E3 & Hk).
  exists l1, k, l2. split_and!; [done..|].
  assert (Hlen : length m1 = length l1).
  { apply (Hdistinct _ _ (k', x') (k, t)); [| |done].
    - rewrite E2. by apply list_lookup_middle.
    - rewrite E1. by apply list_lookup_middle. }
  rewrite E1 in E2.
  apply app_inj_1 in E2 as [-> E2]; [|done].
  by injection E2 as _ _ <-.
Qed.

Lemma spooky_get_optimal_treasure_distinct_witness :
  let treasures :=
    Node (Node Leaf (-3)%Q (mkTreasure 9 3) Leaf) (-2)%Q (mkTreasure 10 5) Leaf in
  ∃ r treasures',
    SpookyHollow.get_optimal_treasure treasures 4 = Some (r, treasures')
    ∧ match r with
      | Some t =>
          ∃ l1 k l2, inorder treasures = l1 ++ (k, t) :: l2
                     ∧ Forall (λ e, 4 < weight e.2) l1 ∧ weight t ≤ 4
                     ∧ inorder treasures' = l1 ++ l2
      | None => treasures' = treasures
                ∧ Forall (λ e, 4 < weight e.2) (inorder treasures)
      end.
Proof.
  intros treasures. apply (spooky_get_optimal_treasure_distinct treasures 4).
  - cbn. split_and!; try done; repeat constructor; by vm_compute.
  - intros i j e e' Hi Hj Heq.
    destruct i as [|[|i]], j as [|[|j]]; cbn in Hi, Hj; simplify_eq; try done;
      by vm_compute in Heq.
Defined.

(** C3: on a max-heap, [MysticalHollow.get_optimal_treasure] returns.  Its
    loop takes entries off the heap one maximum after the other ([rejected],
    then [accepted]): the rejected ones do not fit and are held in
    [temp_storage], the accepted one fits and ends the loop; without an
    accepted one the loop ends on the empty heap.  Every rejected entry is
    then added back, so that the heap left holds the entries it held before
    but for the accepted one, and is a max-heap again. *)
Theorem mystical_get_optimal_treasure_restores (treasures : heap Treasure)
    (backpack_capacity : Z) :
  max_heap treasures →
  ∃ accepted rest rejected,
    MysticalHollow.scan (S (length treasures)) treasures backpack_capacity []
    = Returns (snd <$> accepted, rest, rejected)
    ∧ MysticalHollow.get_optimal_treasure treasures backpack_capacity
      = Returns (snd <$> accepted, MysticalHollow.restore rest rejected)
    ∧ treasures ≡ₚ rejected ++ option_list accepted ++ rest
    ∧ StronglySorted key_ge (rejected ++ option_list accepted)
    ∧ (∀ e e', e ∈ rejected ++ option_list accepted → e' ∈ rest → (e'.1 <= e.1)%Q)
    ∧ Forall (λ e, backpack_capacity < weight e.2) rejected
    ∧ (∀ e, accepted = Some e → weight e.2 ≤ backpack_capacity)
    ∧ (accepted = None → rest = [])
    ∧ MysticalHollow.restore rest rejected ≡ₚ rejected ++ rest
    ∧ treasures ≡ₚ option_list accepted ++ MysticalHollow.restore rest rejected
    ∧ max_heap (MysticalHollow.restore rest rejected).
Proof.
  intros Hh.
  destruct (mystical_get_optimal_treasure_spec treasures backpack_capacity Hh)
    as (accepted & rest & rejected & Hscan & Hcall & Hp & Hsorted & Hmax & Hrej & Hacc
        & Hnone & Hrest).
  exists accepted, rest, rejected.
  pose proof (mystical_restore_perm rest rejected) as Hp'.
  split_and!; try done.
  - rewrite Hp', Hp. rewrite !app_assoc. f_equiv. apply Permutation_app_comm.
  - by apply mystical_restore_max_heap.
Qed.

Lemma mystical_get_optimal_treasure_restores_witness :
  let treasures :=
    MaxHeap.heapify [(2%Q, mkTreasure 10 5); (3%Q, mkTreasure 9 3); (2%Q, mkTreasure 4 2)] in
  max_heap treasures
  ∧ ∃ accepted rest rejected,
      MysticalHollow.scan (S (length treasures)) treasures 2 []
      = Returns (snd <$> accepted, rest, rejected)
      ∧ MysticalHollow.get_optimal_treasure treasures 2
        = Returns (snd <$> accepted, MysticalHollow.restore rest rejected)
      ∧ treasures ≡ₚ rejected ++ option_list accepted ++ rest
      ∧ StronglySorted key_ge (rejected ++ option_list accepted)
      ∧ (∀ e e', e ∈ rejected ++ option_list accepted → e' ∈ rest → (e'.1 <= e.1)%Q)
      ∧ Forall (λ e, 2 < weight e.2) rejected
      ∧ (∀ e, accepted = Some e → weight e.2 ≤ 2)
      ∧ (accepted = None → rest = [])
      ∧ MysticalHollow.restore rest rejected ≡ₚ rejected ++ rest
      ∧ treasures ≡ₚ option_list accepted ++ MysticalHollow.restore rest rejected
      ∧ max_heap (MysticalHollow.restore rest rejected).
Proof.
  intros treasures.
  assert (Hok : max_heap treasures) by apply heapify_max_heap.
  split; [exact Hok|]. exact (mystical_get_optimal_treasure_restores treasures 2 Hok).
Defined.

(** ** The grid *)

Lemma py_index_lt (n i : Z) (k : nat) : py_index n i = Some k → Z.of_nat k < n.
Proof.
  unfold py_index. repeat case_bool_decide; intros [= <-]; lia.
Qed.

Lemma py_index_nonneg (n i : Z) :
  0 ≤ i < n → py_index n i = Some (Z.to_nat i).
Proof. intros H. unfold py_index. by rewrite bool_decide_eq_true_2. Qed.

Lemma grid_get_index g p :
  grid_get g p = '(i, j) ← cell_index g p; r ← g !! i; r !! j.
Proof.
  unfold grid_get, cell_index, py_getitem.
  destruct (py_index _ (row p)) as [i|]; [|done]. cbn.
  destruct (g !! i) as [r|] eqn:Hr; [|done]. cbn.
  destruct (py_index _ (col p)) as [j|]; [|done]. cbn.
  by rewrite Hr.
Qed.

Lemma cell_index_Some g p i j :
  cell_index g p = Some (i, j) → ∃ r cell, g !! i = Some r ∧ r !! j = Some cell.
Proof.
  unfold cell_index.
  destruct (py_index _ (row p)) as [i'|]; [|done]. cbn.
  destruct (g !! i') as [r|] eqn:Hr; [|done]. cbn.
  destruct (py_index _ (col p)) as [j'|] eqn:Hj; [|done]. cbn.
  intros [= <- <-]. apply py_index_lt in Hj.
  destruct (lookup_lt_is_Some_2 r j') as [cell Hc]; [lia|]. by exists r, cell.
Qed.

Lemma grid_get_Some g p cell :
  grid_get g p = Some cell ↔
  ∃ i j r, cell_index g p = Some (i, j) ∧ g !! i = Some r ∧ r !! j = Some cell.
Proof.
  rewrite grid_get_index. split.
  - destruct (cell_index g p) as [[i j]|]; [|done]. cbn.
    destruct (g !! i) as [r|] eqn:Hr; [|done]. cbn. intros Hc. by exists i, j, r.
  - intros (i & j & r & -> & Hr & Hc). cbn. by rewrite Hr.
Qed.

Lemma grid_set_Some g p x g' :
  grid_set g p x = Some g' ↔
  ∃ i j r, cell_index g p = Some (i, j) ∧ g !! i = Some r ∧ g' = <[i := <[j := x]> r]> g.
Proof.
  unfold grid_set, cell_index, py_getitem, py_setitem. split.
  - destruct (py_index _ (row p)) as [i|]; [|done]. cbn.
    destruct (g !! i) as [r|] eqn:Hr; [|done]. cbn.
    destruct (py_index _ (col p)) as [j|]; [|done]. cbn.
    intros [= <-]. by exists i, j, r.
  - intros (i & j & r & Hi & Hr & ->).
    destruct (py_index _ (row p)) as [i'|]; [|done]. cbn in *.
    destruct (g !! i') as [r'|] eqn:Hr'; [|done]. cbn in *.
    destruct (py_index _ (col p)) as [j'|]; [|done]. cbn in *.
    injection Hi as -> ->. by simplify_eq.
Qed.

Lemma cell_index_insert g i r r' q :
  g !! i = Some r → length r' = length r →
  cell_index (<[i := r']> g) q = cell_index g q.
Proof.
  intros Hr Hlen. unfold cell_index. rewrite length_insert.
  destruct (py_index _ (row q)) as [i'|]; [|done]. cbn.
  destruct (decide (i' = i)) as [->|Hne].
  - rewrite list_lookup_insert_eq by (by eapply lookup_lt_Some).
    rewrite Hr. cbn. by rewrite Hlen.
  - by rewrite list_lookup_insert_ne.
Qed.

(** Reading the grid after a write: the cell written holds the new value,
    at whatever position reaches it; every other cell is as before. *)
Lemma grid_get_set g p x g' q :
  grid_set g p x = Some g' →
  cell_index g' q = cell_index g q
  ∧ grid_get g' q = if decide (cell_index g q = cell_index g p) then Some x
                    else grid_get g q.
Proof.
  intros (i & j & r & Hp & Hr & ->)%grid_set_Some.
  assert (Hidx : cell_index (<[i:=<[j:=x]> r]> g) q = cell_index g q).
  { apply (cell_index_insert _ _ r); [done|]. by rewrite length_insert. }
  split; [done|].
  rewrite !grid_get_index, Hidx, Hp.
  destruct (cell_index g q) as [[i' j']|] eqn:Hq.
  2:{ by rewrite decide_False. }
  cbn. destruct (decide (Some (i', j') = Some (i, j))) as [[= -> ->]|Hne].
  - rewrite list_lookup_insert_eq by (by eapply lookup_lt_Some). cbn.
    destruct (cell_index_Some _ _ _ _ Hp) as (r' & cell & Hr' & Hc). simplify_eq.
    rewrite list_lookup_insert_eq; [done|]. by eapply lookup_lt_Some.
  - destruct (decide (i' = i)) as [->|Hi].
    + rewrite list_lookup_insert_eq by (by eapply lookup_lt_Some). cbn.
      rewrite Hr. cbn. rewrite list_lookup_insert_ne; [done|]. congruence.
    + by rewrite list_lookup_insert_ne.
Qed.

Lemma grid_set_visited_Some g p g' :
  grid_set_visited g p = Some g' →
  ∃ cell, grid_get g p = Some cell
          ∧ grid_set g p (mkMazeCell (tile cell) (position cell) true) = Some g'.
Proof.
  unfold grid_set_visited. destruct (grid_get g p) as [cell|]; [|done]. cbn.
  intros H. by exists cell.
Qed.

Lemma grid_set_is_Some g p x : is_Some (grid_get g p) → is_Some (grid_set g p x).
Proof.
  intros [cell (i & j & r & Hi & Hr & Hc)%grid_get_Some].
  exists (<[i := <[j := x]> r]> g). apply grid_set_Some. by exists i, j, r.
Qed.

Lemma mjoin_insert_cell (g : list (list MazeCell)) i j r cell x :
  g !! i = Some r → r !! j = Some cell →
  ∃ l1 l2, mjoin g = l1 ++ cell :: l2 ∧ mjoin (<[i := <[j := x]> r]> g) = l1 ++ x :: l2.
Proof.
  intros Hr Hc.
  exists (mjoin (take i g) ++ take j r), (drop (S j) r ++ mjoin (drop (S i) g)).
  split.
  - rewrite <- (take_drop_middle g i r Hr) at 1.
    rewrite join_app. simpl.
    rewrite <- (take_drop_middle r j cell Hc) at 1.
    by rewrite <- !app_assoc.
  - rewrite insert_take_drop by (by eapply lookup_lt_Some).
    rewrite join_app. simpl.
    rewrite insert_take_drop by (by eapply lookup_lt_Some).
    by rewrite <- !app_assoc.
Qed.

Lemma count_unvisited_mark g p cell g' :
  grid_get g p = Some cell → visited cell = false →
  grid_set_visited g p = Some g' →
  count_unvisited g = S (count_unvisited g').
Proof.
  intros Hget Hv (cell' & Hget' & Hset)%grid_set_visited_Some. simplify_eq.
  apply grid_set_Some in Hset as (i & j & r & Hi & Hr & ->).
  apply grid_get_Some in Hget as (i' & j' & r' & Hi' & Hr' & Hc).
  rewrite Hi in Hi'. injection Hi' as <- <-. rewrite Hr in Hr'. injection Hr' as <-.
  destruct (mjoin_insert_cell g i j r cell
              (mkMazeCell (tile cell) (position cell) true) Hr Hc) as (l1 & l2 & E1 & E2).
  unfold count_unvisited. rewrite E1, E2, !filter_app, !length_app.
  rewrite (filter_cons_True _ cell) by done.
  rewrite filter_cons_False by done. cbn. lia.
Qed.

(** ** Marking cells *)

Lemma cell_index_eq_get g p q :
  cell_index g p = cell_index g q → grid_get g p = grid_get g q.
Proof. intros H. by rewrite !grid_get_index, H. Qed.

Lemma marks_app g a g1 b g2 : marks g a g1 → marks g1 b g2 → marks g (a ++ b) g2.
Proof.
  induction 1 as [|g p cell g1 ps g' Hget Hv Hset _ IH]; [done|].
  intros Hb. cbn. econstructor; eauto.
Qed.

(** One mark: the cell marked is visited afterwards, at whatever position
    reaches it; every cell keeps its tile and its position, and a visited
    cell stays visited. *)
Lemma mark_step g p g1 q :
  grid_set_visited g p = Some g1 →
  cell_index g1 q = cell_index g q
  ∧ (is_visited g q = true → is_visited g1 q = true)
  ∧ (cell_index g q = cell_index g p → is_visited g1 q = true)
  ∧ (cell_index g q ≠ cell_index g p → grid_get g1 q = grid_get g q)
  ∧ (∀ cell, grid_get g q = Some cell →
       ∃ cell', grid_get g1 q = Some cell'
                ∧ tile cell' = tile cell ∧ position cell' = position cell).
Proof.
  intros (cell0 & Hget0 & Hset)%grid_set_visited_Some.
  destruct (grid_get_set _ _ _ _ q Hset) as [Hidx Hget]. unfold is_visited.
  rewrite Hget. split; [done|].
  destruct (decide (cell_index g q = cell_index g p)) as [Heq|Hne].
  - split_and!; try done.
    intros cell Hc. rewrite (cell_index_eq_get _ _ _ Heq), Hget0 in Hc.
    injection Hc as <-. by eexists.
  - split_and!; try done. intros cell Hc. by exists cell.
Qed.

Lemma marks_index g ps g' q : marks g ps g' → cell_index g' q = cell_index g q.
Proof.
  induction 1 as [|g p cell g1 ps g' Hget Hv Hset _ IH]; [done|].
  rewrite IH. by apply (mark_step g p g1 q).
Qed.

Lemma marks_mono g ps g' q :
  marks g ps g' → is_visited g q = true → is_visited g' q = true.
Proof.
  induction 1 as [|g p cell g1 ps g' Hget Hv Hset _ IH]; [done|].
  intros H. apply IH. by apply (proj1 (proj2 (mark_step g p g1 q Hset))).
Qed.

Lemma marks_tile g ps g' q cell :
  marks g ps g' → grid_get g q = Some cell →
  ∃ cell', grid_get g' q = Some cell'
           ∧ tile cell' = tile cell ∧ position cell' = position cell.
Proof.
  intros Hm. revert cell.
  induction Hm as [|g p cell0 g1 ps g' Hget Hv Hset _ IH]; intros cell Hc.
  { by exists cell. }
  destruct (mark_step g p g1 q Hset) as (_ & _ & _ & _ & Ht).
  destruct (Ht cell Hc) as (cell1 & Hc1 & E1 & E2).
  destruct (IH cell1 Hc1) as (cell' & Hc' & E1' & E2').
  exists cell'. split; [done|]. split; congruence.
Qed.

Lemma marks_marked g ps g' p :
  marks g ps g' → p ∈ ps → is_visited g p = false ∧ is_visited g' p = true.
Proof.
  induction 1 as [|g p0 cell g1 ps g' Hget Hv Hset Hm IH]; [set_solver|].
  intros [->|Hin]%elem_of_cons.
  - split; [unfold is_visited; by rewrite Hget|].
    eapply marks_mono; [done|].
    by apply (proj1 (proj2 (proj2 (mark_step g p0 g1 p0 Hset)))).
  - destruct (IH Hin) as [H1 H2]. split; [|done].
    destruct (is_visited g p) eqn:E; [|done].
    apply (proj1 (proj2 (mark_step g p0 g1 p Hset))) in E. congruence.
Qed.

(** No cell is marked twice, not even from two positions that reach the
    same cell. *)
Lemma marks_cells_distinct g ps g' a b pa pb :
  marks g ps g' → ps !! a = Some pa → ps !! b = Some pb →
  cell_index g pa = cell_index g pb → a = b.
Proof.
  intros Hm. revert a b.
  induction Hm as [|g p0 cell g1 ps g' Hget Hv Hset Hm IH]; intros a b; [done|].
  assert (Hhead : ∀ q, q ∈ ps → cell_index g q ≠ cell_index g p0).
  { intros q Hq Heq. destruct (marks_marked _ _ _ q Hm Hq) as [Hf _].
    apply (proj1 (proj2 (proj2 (mark_step g p0 g1 q Hset)))) in Heq. congruence. }
  destruct a as [|a], b as [|b]; cbn; intros Ha Hb Heq; [done| | |].
  - injection Ha as <-. exfalso. apply (Hhead pb); [|done].
    by eapply list_elem_of_lookup_2.
  - injection Hb as <-. exfalso. apply (Hhead pa); [|done].
    by eapply list_elem_of_lookup_2.
  - f_equal. apply IH; [done..|].
    by rewrite !(proj1 (mark_step g p0 g1 _ Hset)).
Qed.

Lemma marks_NoDup g ps g' : marks g ps g' → NoDup ps.
Proof.
  intros Hm. apply NoDup_alt. intros a b p Ha Hb.
  by eapply (marks_cells_distinct g ps g' a b p p).
Qed.

Lemma marks_count g ps g' :
  marks g ps g' → (count_unvisited g = count_unvisited g' + length ps)%nat.
Proof.
  induction 1 as [|g p cell g1 ps g' Hget Hv Hset _ IH]; [cbn; lia|].
  rewrite (count_unvisited_mark g p cell g1) by done. cbn. lia.
Qed.

(** ** The path search *)

Lemma search_post_refl s : search_post s None s.
Proof.
  exists []. rewrite app_nil_r. split_and!; try done; [constructor|by destruct s as [[]]].
Qed.

Lemma search_post_trans s1 s2 r s3 :
  search_post s1 None s2 → search_post s2 r s3 → search_post s1 r s3.
Proof.
  intros (n1 & E1 & M1 & W1 & F1 & _) (n2 & E2 & M2 & W2 & F2 & P2).
  exists (n1 ++ n2). rewrite E2, E1, app_assoc. split; [done|].
  split; [by eapply marks_app|].
  rewrite W1 in W2, F2. cbn in W2, F2.
  split; [done|]. split; [|done]. by apply Forall_app.
Qed.

Section search.
Context (Tiles : TilesEnum).

Lemma explore_post rec current_position nexts s r s' :
  (∀ s p r s', rec s p = Returns (r, s') → search_post s r s') →
  explore rec current_position nexts s = Returns (r, s') →
  search_post s r s'.
Proof.
  intros Hrec. revert s. induction nexts as [|next nexts IH]; intros s; cbn.
  - destruct (py_remove _ _) as [path|]; [|done]. intros [= <- <-].
    exists []. cbn. rewrite app_nil_r.
    split_and!; try done; [constructor|by destruct (s_maze s)].
  - destruct (rec s next) as [[[result|] s1]| |] eqn:Hcall; try done.
    + intros [= <- <-]. by apply (Hrec s next).
    + intros He. eapply search_post_trans; [by apply (Hrec s next)|by apply IH].
Qed.

Lemma find_path_aux_post fuel s p r s' :
  find_path_aux Tiles fuel s p = Returns (r, s') → search_post s r s'.
Proof.
  revert s p r s'. induction fuel as [|fuel IH]; intros s p r s'; [done|].
  cbn [find_path_aux]. case_bool_decide as Hend.
  { intros [= <- <-]. exists []. cbn. rewrite app_nil_r.
    split_and!; try done; [constructor|by destruct (s_maze s)|by intros ? [= <-]]. }
  destruct (grid_get _ p) as [cell|] eqn:Hget; [|done].
  destruct (visited cell) eqn:Hv.
  { intros [= <- <-]. apply search_post_refl. }
  destruct (grid_set_visited _ p) as [g1|] eqn:Hset; [|done].
  destruct (get_available_positions _ _ _) as [avail|]; [|done].
  intros He. apply explore_post in He; [|exact IH].
  destruct He as (new & E & M & W & F & P). cbn in *.
  exists (p :: new). rewrite E, <- app_assoc. split; [done|].
  split; [by econstructor|]. split; [done|]. split; [by constructor|done].
Qed.

Lemma search_post_count s r s' :
  search_post s r s' →
  (count_unvisited (grid (s_maze s')) ≤ count_unvisited (grid (s_maze s)))%nat.
Proof. intros (new & _ & M%marks_count & _). lia. Qed.

Lemma explore_fuel rec (n : nat) current_position nexts s :
  (∀ s p r s', rec s p = Returns (r, s') → search_post s r s') →
  (∀ s p, (count_unvisited (grid (s_maze s)) < n)%nat → rec s p ≠ OutOfFuel) →
  (count_unvisited (grid (s_maze s)) < n)%nat →
  explore rec current_position nexts s ≠ OutOfFuel.
Proof.
  intros Hpost Hfuel. revert s. induction nexts as [|next nexts IH]; intros s Hn; cbn.
  - by destruct (py_remove _ _).
  - destruct (rec s next) as [[[result|] s1]| |] eqn:Hcall; try done.
    + apply IH. apply (Hpost s next), search_post_count in Hcall. lia.
    + by apply Hfuel in Hcall.
Qed.

(** Fuel for one call more than there are unvisited cells is enough. *)
Lemma find_path_aux_fuel fuel s p :
  (count_unvisited (grid (s_maze s)) < fuel)%nat →
  find_path_aux Tiles fuel s p ≠ OutOfFuel.
Proof.
  revert s p. induction fuel as [|fuel IH]; intros s p Hn; [lia|].
  cbn [find_path_aux]. case_bool_decide as Hend; [done|].
  destruct (grid_get _ p) as [cell|] eqn:Hget; [|done].
  destruct (visited cell) eqn:Hv; [done|].
  destruct (grid_set_visited _ p) as [g1|] eqn:Hset; [|done].
  destruct (get_available_positions _ _ _) as [avail|]; [|done].
  apply (explore_fuel _ fuel).
  - intros ????. apply find_path_aux_post.
  - exact IH.
  - rewrite (count_unvisited_mark _ p cell g1) in Hn by done.
    change (count_unvisited g1 < fuel)%nat. lia.
Qed.

Lemma count_unvisited_le g : (count_unvisited g ≤ grid_size g)%nat.
Proof.
  unfold count_unvisited, grid_size. rewrite <- length_join. apply length_filter.
Qed.

Lemma find_way_out_fuel m : find_way_out Tiles m ≠ OutOfFuel.
Proof.
  unfold find_way_out. apply find_path_aux_fuel. cbn.
  pose proof (count_unvisited_le (grid m)). lia.
Qed.

End search.

(** ** Valid positions *)

Section valid.
Context (Tiles : TilesEnum).

Lemma in_bounds_grid_get m q :
  grid_shape m → in_bounds m q → is_Some (grid_get (grid m) q).
Proof.
  intros [Hrows Hcols] [Hr Hc]. unfold grid_get.
  rewrite py_getitem_nat by lia.
  destruct (lookup_lt_is_Some_2 (grid m) (Z.to_nat (row q))) as [r Hrow]; [lia|].
  rewrite Hrow. cbn.
  rewrite Forall_forall in Hcols.
  pose proof (Hcols r (list_elem_of_lookup_2 _ _ _ Hrow)) as Hlen.
  apply py_getitem_is_Some. lia.
Qed.

Lemma is_valid_position_true m q :
  is_valid_position Tiles m q = Some true ↔
  in_bounds m q
  ∧ ∃ cell, grid_get (grid m) q = Some cell ∧ tile cell ≠ TileStr (WALL Tiles).
Proof.
  unfold is_valid_position, in_bounds. repeat case_bool_decide.
  - destruct (grid_get (grid m) q) as [cell|]; cbn.
    + case_bool_decide; split.
      * intros _. split; [done|]. by exists cell.
      * done.
      * done.
      * intros (_ & cell' & [= <-] & Ht). done.
    + split; [done|]. by intros (_ & cell & ? & _).
  - split; [done|]. intros [[_ ?] _]. done.
  - split; [done|]. intros [[? _] _]. done.
Qed.

Lemma is_valid_position_is_Some m q :
  grid_shape m → is_Some (is_valid_position Tiles m q).
Proof.
  intros Hs. unfold is_valid_position. repeat case_bool_decide; try by eexists.
  destruct (in_bounds_grid_get m q Hs) as [cell ->]; [done|]. by eexists.
Qed.

Lemma available_loop_spec m p dirs acc :
  grid_shape m →
  available_loop Tiles m p dirs acc
  = Some (acc ++ filter (λ q, is_valid_position Tiles m q = Some true)
                   ((λ d, mkPosition (row p + d.2.1) (col p + d.2.2)) <$> dirs)).
Proof.
  intros Hs. revert acc. induction dirs as [|[d [dr dc]] dirs IH]; intros acc.
  { cbn. by rewrite app_nil_r. }
  cbn [available_loop]. rewrite fmap_cons. cbn [fst snd].
  destruct (is_valid_position_is_Some m (mkPosition (row p + dr) (col p + dc)) Hs)
    as [ok Hok].
  rewrite Hok. cbn [mbind option_bind]. rewrite IH. destruct ok.
  - rewrite filter_cons_True by done. by rewrite <- app_assoc.
  - rewrite filter_cons_False; [done|]. by rewrite Hok.
Qed.

Lemma available_loop_valid m p dirs acc l :
  available_loop Tiles m p dirs acc = Some l →
  Forall (λ q, is_valid_position Tiles m q = Some true) acc →
  Forall (λ q, is_valid_position Tiles m q = Some true) l.
Proof.
  revert acc. induction dirs as [|[d [dr dc]] dirs IH]; intros acc; cbn.
  { by intros [= <-]. }
  destruct (is_valid_position _ _ _) as [[]|] eqn:Hok; cbn; [| |done].
  - intros Hl Hacc. apply (IH _ Hl). apply Forall_app. split; [done|]. by constructor.
  - intros Hl Hacc. by apply (IH _ Hl).
Qed.

Lemma get_available_positions_valid m p l :
  get_available_positions Tiles m p = Some l →
  Forall (λ q, is_valid_position Tiles m q = Some true) l.
Proof. intros H. by eapply available_loop_valid. Qed.

End valid.

(** ** End positions *)

Lemma cell_index_nonneg g p i j :
  nonneg p → cell_index g p = Some (i, j) →
  i = Z.to_nat (row p) ∧ j = Z.to_nat (col p).
Proof.
  intros [Hr Hc]. unfold cell_index, py_index.
  case_bool_decide; [|case_bool_decide; [lia|done]]. cbn.
  destruct (g !! Z.to_nat (row p)) as [r|]; cbn; [|done].
  case_bool_decide; [|case_bool_decide; [lia|done]]. cbn.
  by intros [= <- <-].
Qed.

Lemma cell_index_nonneg_inj g p q :
  nonneg p → nonneg q → is_Some (cell_index g p) →
  cell_index g p = cell_index g q → p = q.
Proof.
  intros Hp Hq [[i j] Hi] Heq. rewrite Hi in Heq. symmetry in Heq.
  destruct (cell_index_nonneg _ _ _ _ Hp Hi) as [-> ->].
  destruct (cell_index_nonneg _ _ _ _ Hq Heq) as [E1 E2].
  destruct Hp, Hq, p, q. cbn in *. f_equal; lia.
Qed.

Lemma marks_other g ps g' e :
  marks g ps g' → (∀ q, q ∈ ps → cell_index g q ≠ cell_index g e) →
  grid_get g' e = grid_get g e.
Proof.
  induction 1 as [|g p cell g1 ps g' Hget Hv Hset _ IH]; [done|]. intros Hne.
  destruct (mark_step g p g1 e Hset) as (Hidx & _ & _ & Hother & _).
  rewrite IH.
  - apply Hother. intros E. apply (Hne p); [set_solver|done].
  - intros q Hq. rewrite Hidx, (proj1 (mark_step g p g1 q Hset)).
    apply Hne. set_solver.
Qed.

Section ends.
Context (Tiles : TilesEnum).

Lemma is_valid_position_nonneg m q :
  is_valid_position Tiles m q = Some true → nonneg q.
Proof. intros [[??] _]%is_valid_position_true. split; lia. Qed.

Lemma explore_nonneg rec current_position nexts s r s' :
  (∀ s p r s', nonneg p → rec s p = Returns (r, s') →
               ∃ new, s_marked s' = s_marked s ++ new ∧ Forall nonneg new) →
  Forall nonneg nexts →
  explore rec current_position nexts s = Returns (r, s') →
  ∃ new, s_marked s' = s_marked s ++ new ∧ Forall nonneg new.
Proof.
  intros Hrec. revert s. induction nexts as [|next nexts IH]; intros s Hn; cbn.
  - destruct (py_remove _ _) as [path|]; [|done]. intros [= <- <-].
    exists []. by rewrite app_nil_r.
  - apply Forall_cons in Hn as [Hnext Hn].
    destruct (rec s next) as [[[result|] s1]| |] eqn:Hcall; try done.
    + intros [= <- <-]. by apply (Hrec s next (Some result)).
    + intros (n2 & E2 & F2)%IH; [|done].
      destruct (Hrec s next None s1 Hnext Hcall) as (n1 & E1 & F1).
      exists (n1 ++ n2). rewrite E2, E1, app_assoc. split; [done|]. by apply Forall_app.
Qed.

Lemma find_path_aux_nonneg fuel s p r s' :
  nonneg p → find_path_aux Tiles fuel s p = Returns (r, s') →
  ∃ new, s_marked s' = s_marked s ++ new ∧ Forall nonneg new.
Proof.
  revert s p r s'. induction fuel as [|fuel IH]; intros s p r s' Hp; [done|].
  cbn [find_path_aux]. case_bool_decide as Hend.
  { intros [= <- <-]. exists []. by rewrite app_nil_r. }
  destruct (grid_get _ p) as [cell|] eqn:Hget; [|done].
  destruct (visited cell) eqn:Hv.
  { intros [= <- <-]. exists []. by rewrite app_nil_r. }
  destruct (grid_set_visited _ p) as [g1|] eqn:Hset; [|done].
  destruct (get_available_positions _ _ _) as [avail|] eqn:Hav; [|done].
  intros (new & E & F)%explore_nonneg; [|exact IH|].
  - exists (p :: new). cbn in E. rewrite E, <- app_assoc. split; [done|]. by constructor.
  - apply get_available_positions_valid in Hav.
    eapply Forall_impl; [exact Hav|]. intros q. apply is_valid_position_nonneg.
Qed.

End ends.

(** ** The claims on the maze *)

(** C7: in a maze whose grid has its [rows] by [cols] cells,
    [get_available_positions] returns the neighbours up, down, left and
    right of the position, in this order, without those that are not valid;
    [is_valid_position] always answers, and answers yes exactly for a
    position inside the bounds whose tile is not the wall.  So a hollow is
    passable, and so are the start, the exit and the empty tile (their
    strings being other than the wall's). *)
Theorem get_available_positions_order (Tiles : TilesEnum) (m : Maze)
    (current_position : Position) :
  grid_shape m →
  get_available_positions Tiles m current_position
  = Some (filter (λ q, is_valid_position Tiles m q = Some true)
            (neighbours current_position))
  ∧ (∀ q, is_valid_position Tiles m q = Some true ↔
          in_bounds m q
          ∧ ∃ cell, grid_get (grid m) q = Some cell ∧ tile cell ≠ TileStr (WALL Tiles))
  ∧ (∀ q, is_valid_position Tiles m q = Some true
          ∨ is_valid_position Tiles m q = Some false)
  ∧ (∀ q, in_bounds m q → is_Some (grid_get (grid m) q))
  ∧ (WALL Tiles ∉ [START_POSITION Tiles; EXIT Tiles; " "] →
     ∀ q cell, in_bounds m q → grid_get (grid m) q = Some cell →
       tile cell ∈ [TileStr (START_POSITION Tiles); TileStr (EXIT Tiles); TileStr " "]
       ∨ (∃ h, tile cell = TileHollow h) →
       is_valid_position Tiles m q = Some true).
Proof.
  intros Hs. split_and!.
  - unfold get_available_positions. rewrite available_loop_spec by done.
    cbn [app]. do 2 f_equal. unfold neighbours. cbn.
    by rewrite !Z.add_0_r.
  - apply is_valid_position_true.
  - intros q. destruct (is_valid_position_is_Some Tiles m q Hs) as [[] ->]; auto.
  - intros q. by apply in_bounds_grid_get.
  - intros Hwall q cell Hq Hc Ht. apply is_valid_position_true.
    split; [done|]. exists cell. split; [done|].
    destruct Ht as [Ht|[h ->]]; [|done].
    intros E. rewrite E in Ht. apply Hwall.
    apply elem_of_cons in Ht as [[= E1]|Ht]; [rewrite E1; by left|].
    apply elem_of_cons in Ht as [[= E2]|Ht]; [rewrite E2; right; by left|].
    apply list_elem_of_singleton in Ht as [= E3]. rewrite E3. right; right; by left.
Qed.

Lemma get_available_positions_order_witness :
  let Tiles := mkTiles "S" "M" "#" "E" "P" ["S"; "M"; "#"; "E"; "P"; " "] in
  let m := mkMaze (mkPosition 0 0) [mkPosition 1 1] 2 2
             [[mkMazeCell (TileStr "P") (mkPosition 0 0) false;
               mkMazeCell (TileStr "#") (mkPosition 0 1) false];
              [mkMazeCell (TileHollow 0%nat) (mkPosition 1 0) false;
               mkMazeCell (TileStr "E") (mkPosition 1 1) false]] in
  grid_shape m
  ∧ get_available_positions Tiles m (mkPosition 0 0) = Some [mkPosition 1 0].
Proof.
  intros Tiles m.
  assert (Hs : grid_shape m) by (split; [reflexivity|repeat constructor]).
  split; [exact Hs|].
  by destruct (get_available_positions_order Tiles m (mkPosition 0 0) Hs) as [-> _].
Defined.

Lemma find_path_aux_backtracked (Tiles : TilesEnum) fuel s p s' :
  find_path_aux Tiles fuel s p = Returns (None, s') →
  is_visited (grid (s_maze s')) p = true.
Proof.
  destruct fuel as [|fuel]; [done|].
  cbn [find_path_aux]. case_bool_decide as Hend; [done|].
  destruct (grid_get _ p) as [cell|] eqn:Hget; [|done].
  destruct (visited cell) eqn:Hv.
  { intros [= <-]. unfold is_visited. by rewrite Hget. }
  destruct (grid_set_visited _ p) as [g1|] eqn:Hset; [|done].
  destruct (get_available_positions _ _ _) as [avail|]; [|done].
  intros He. apply explore_post in He; [|intros ????; apply find_path_aux_post].
  destruct He as (new & _ & M & _). cbn in M.
  eapply marks_mono; [exact M|].
  by apply (proj1 (proj2 (proj2 (mark_step _ p g1 p Hset)))).
Qed.

(** C6: [find_way_out] returns or raises (the model does not run out of
    fuel).  Every call of [find_path_aux] that returns has only written
    [visited = True], each time on a cell that was not visited then
    ([marks]); so a visited cell stays visited, before and after any
    backtracking (a call that returns [None] leaves its own cell visited),
    and over a whole run no cell is marked, that is expanded, twice, not
    even from two positions that reach the same cell. *)
Theorem find_way_out_marks_once (Tiles : TilesEnum) (m : Maze) :
  find_way_out Tiles m ≠ OutOfFuel
  ∧ (∀ fuel s p r s', find_path_aux Tiles fuel s p = Returns (r, s') →
       ∃ new, s_marked s' = s_marked s ++ new
              ∧ marks (grid (s_maze s)) new (grid (s_maze s'))
              ∧ (∀ q, is_visited (grid (s_maze s)) q = true →
                      is_visited (grid (s_maze s')) q = true)
              ∧ (r = None → is_visited (grid (s_maze s')) p = true))
  ∧ (∀ r s', find_way_out Tiles m = Returns (r, s') →
       marks (grid m) (s_marked s') (grid (s_maze s'))
       ∧ NoDup (s_marked s')
       ∧ (∀ a b pa pb, s_marked s' !! a = Some pa → s_marked s' !! b = Some pb →
                       cell_index (grid m) pa = cell_index (grid m) pb → a = b)
       ∧ (∀ q, q ∈ s_marked s' →
               is_visited (grid m) q = false ∧ is_visited (grid (s_maze s')) q = true)
       ∧ (∀ q, is_visited (grid m) q = true → is_visited (grid (s_maze s')) q = true)).
Proof.
  split_and!.
  - apply find_way_out_fuel.
  - intros fuel s p r s' Hcall.
    destruct (find_path_aux_post Tiles _ _ _ _ _ Hcall) as (new & E & M & _).
    exists new. split_and!; [done..| |].
    + intros q. by eapply marks_mono.
    + intros ->. by eapply find_path_aux_backtracked.
  - intros r s' Hcall. unfold find_way_out in Hcall.
    destruct (find_path_aux_post Tiles _ _ _ _ _ Hcall) as (new & E & M & _).
    cbn in E, M. subst new. split_and!.
    + done.
    + by eapply marks_NoDup.
    + intros a b pa pb. by eapply marks_cells_distinct.
    + intros q. by eapply marks_marked.
    + intros q. by eapply marks_mono.
Qed.

(** C10: [find_path_aux] tests for an end position first: at one, it
    appends the position to the path and returns the path, with no read or
    write of a visited flag.  So no call marks an end position, and with
    coordinates that are not negative the cell of an end position keeps the
    flag it had.  When the start is an end position, [find_way_out]
    returns the path of the start alone and leaves the maze as it was. *)
Theorem find_path_aux_exit_first (Tiles : TilesEnum) :
  (∀ fuel s p, p ∈ end_positions (s_maze s) →
     find_path_aux Tiles (S fuel) s p
     = Returns (Some (s_path s ++ [p]), mkSearch (s_maze s) (s_path s ++ [p]) (s_marked s)))
  ∧ (∀ fuel s p r s', find_path_aux Tiles fuel s p = Returns (r, s') →
       ∃ new, s_marked s' = s_marked s ++ new
              ∧ marks (grid (s_maze s)) new (grid (s_maze s'))
              ∧ Forall (λ q, q ∉ end_positions (s_maze s)) new)
  ∧ (∀ m r s', find_way_out Tiles m = Returns (r, s') →
       nonneg (start_position m) → Forall nonneg (end_positions m) →
       ∀ e, e ∈ end_positions m → grid_get (grid (s_maze s')) e = grid_get (grid m) e)
  ∧ (∀ m, start_position m ∈ end_positions m →
       find_way_out Tiles m
       = Returns (Some [start_position m], mkSearch m [start_position m] [])).
Proof.
  split_and!.
  - intros fuel s p Hp. cbn [find_path_aux]. by rewrite bool_decide_eq_true_2.
  - intros fuel s p r s' Hcall.
    destruct (find_path_aux_post Tiles _ _ _ _ _ Hcall) as (new & E & M & _ & F & _).
    by exists new.
  - intros m r s' Hcall Hstart Hends e He. unfold find_way_out in Hcall.
    destruct (find_path_aux_post Tiles _ _ _ _ _ Hcall) as (new & E & M & _ & F & _).
    destruct (find_path_aux_nonneg Tiles _ _ _ _ _ Hstart Hcall) as (new' & E' & N).
    cbn in E, E', M, F. subst new new'.
    apply (marks_other _ _ _ e M). intros q Hq Heq.
    rewrite Forall_forall in F, N, Hends.
    apply (F q Hq). replace q with e; [done|]. symmetry.
    apply (cell_index_nonneg_inj (grid m)); [by apply N|by apply Hends| |done].
    destruct (marks_marked _ _ _ q M Hq) as [_ Hv].
    unfold is_visited in Hv.
    destruct (grid_get _ q) as [cell|] eqn:Hget; [|done].
    apply grid_get_Some in Hget as (i & j & _ & Hi & _).
    rewrite (marks_index _ _ _ q M) in Hi. by eexists.
  - intros m Hm. unfold find_way_out. cbn [find_path_aux].
    by rewrite bool_decide_eq_true_2.
Qed.

(** ** The walk for treasures *)

Lemma mystical_scan_fits fuel (treasures : heap Treasure) cap temp t rest temp' :
  MysticalHollow.scan fuel treasures cap temp = Returns (Some t, rest, temp') →
  weight t ≤ cap.
Proof.
  revert treasures temp. induction fuel as [|fuel IH]; intros h temp; [done|].
  cbn [MysticalHollow.scan]. case_bool_decide; [done|].
  destruct (MaxHeap.get_max h) as [[[ratio x] h1]|]; [|done].
  case_bool_decide as Hfit.
  - by intros [= <- _ _].
  - apply IH.
Qed.

(** A treasure that a hollow gives fits the capacity asked for. *)
Lemma get_optimal_treasure_fits self cap t self' :
  get_optimal_treasure self cap = Returns (Some t, self') → weight t ≤ cap.
Proof.
  destruct self as [tr|h]; cbn [get_optimal_treasure].
  - unfold SpookyHollow.get_optimal_treasure.
    destruct (SpookyHollow.scan (inorder tr) cap) as [[k x]|] eqn:Hs; cbn.
    + apply spooky_scan_Some in Hs as (_ & _ & _ & _ & Hfit).
      destruct (delete_aux k tr); cbn; [|done]. by intros [= <- _].
    + done.
  - unfold MysticalHollow.get_optimal_treasure.
    destruct (MysticalHollow.scan _ h cap []) as [[[r rest] temp]| |] eqn:Hs; [|done..].
    intros [= -> _]. by eapply mystical_scan_fits.
Qed.

Lemma store_ok_insert σ h hollow :
  store_ok σ → hollow_ok hollow → store_ok (<[h := hollow]> σ).
Proof.
  intros Hσ Hh h' hollow'. destruct (decide (h = h')) as [->|Hne].
  - rewrite lookup_insert_eq. by intros [= <-].
  - rewrite lookup_insert_ne by done. apply Hσ.
Qed.

(** The loop of [take_treasures] is the walk of the spec. *)
Lemma take_loop_walk path cap taken σ res cap' σ' :
  take_loop path cap taken σ = Returns (res, cap', σ') →
  ∃ ts, res = taken ++ ts ∧ walk σ cap path ts cap' σ'.
Proof.
  revert cap taken σ. induction path as [|cell path IH]; intros cap taken σ; cbn.
  { intros [= <- <- <-]. exists []. rewrite app_nil_r. split; [done|]. constructor. }
  destruct (tile cell) as [s|h] eqn:Ht.
  { intros (ts & -> & Hw)%IH. exists ts. split; [done|]. by eapply walk_pass. }
  destruct (σ !! h) as [hollow|] eqn:Hh; [|done].
  destruct (get_optimal_treasure hollow cap) as [[[t|] hollow']| |] eqn:Hg; [| |done..].
  - pose proof (get_optimal_treasure_fits _ _ _ _ Hg) as Hfit.
    rewrite bool_decide_eq_true_2 by done.
    intros (ts & -> & Hw)%IH. exists (t :: ts). rewrite <- app_assoc.
    split; [done|]. by eapply walk_take.
  - intros (ts & -> & Hw)%IH. exists ts. split; [done|]. by eapply walk_skip.
Qed.

(** On a store of hollows that have their invariant, with every hollow of
    the path in the store, the loop returns. *)
Lemma take_loop_returns path cap taken σ :
  store_ok σ →
  (∀ cell h, cell ∈ path → tile cell = TileHollow h → is_Some (σ !! h)) →
  ∃ res cap' σ', take_loop path cap taken σ = Returns (res, cap', σ') ∧ store_ok σ'.
Proof.
  revert cap taken σ. induction path as [|cell path IH]; intros cap taken σ Hσ Hpath; cbn.
  { by eexists _, _, _. }
  destruct (tile cell) as [s|h] eqn:Ht.
  { apply IH; [done|]. intros c h Hc. apply Hpath. by right. }
  destruct (Hpath cell h) as [hollow Hh]; [by left|done|]. rewrite Hh.
  destruct (get_optimal_treasure_spec hollow cap (Hσ _ _ Hh)) as (r & hollow' & Hg & Hok & _).
  rewrite Hg.
  assert (Hσ' : store_ok (<[h := hollow']> σ)) by by apply store_ok_insert.
  assert (Hpath' : ∀ c h', c ∈ path → tile c = TileHollow h' →
                           is_Some (<[h := hollow']> σ !! h')).
  { intros c h' Hc Hc'. destruct (decide (h = h')) as [->|Hne].
    - rewrite lookup_insert_eq. by eexists.
    - rewrite lookup_insert_ne by done. apply (Hpath c); [by right|done]. }
  destruct r as [t|]; [case_bool_decide|]; by apply IH.
Qed.

Lemma walk_weight σ cap path ts cap' σ' :
  walk σ cap path ts cap' σ' →
  total_weight ts = cap - cap' ∧ (ts ≠ [] → 0 ≤ cap').
Proof.
  induction 1 as [σ cap|σ cap cell s path ts cap' σ' Ht _ IH
                 |σ cap cell h hollow t hollow' path ts cap' σ' Ht Hh Hg _ [IH1 IH2]
                 |σ cap cell h hollow hollow' path ts cap' σ' Ht Hh Hg _ IH].
  - cbn. split; [lia|done].
  - done.
  - apply get_optimal_treasure_fits in Hg.
    change (total_weight (t :: ts)) with (weight t + total_weight ts).
    split; [lia|]. intros _.
    destruct ts as [|t' ts]; [|by apply IH2].
    change (total_weight []) with 0 in IH1. lia.
  - done.
Qed.

(** C8: on a store of hollows that have their invariant, with every hollow
    of the path in the store, [take_treasures] returns.  What it returns is
    what the walk of the spec collects along the path (cell after cell in
    path order, each hollow asked once with the capacity left, a treasure
    given appended and its weight taken off, a cell skipped when its hollow
    gives none): the list collected, or [None] when it is empty.  The
    treasures returned weigh no more than the capacity given. *)
Theorem take_treasures_walk (path : list MazeCell) (backpack_capacity : Z) (σ : store) :
  store_ok σ →
  (∀ cell h, cell ∈ path → tile cell = TileHollow h → is_Some (σ !! h)) →
  ∃ ts cap' σ',
    walk σ backpack_capacity path ts cap' σ'
    ∧ take_treasures path backpack_capacity σ
      = Returns (match ts with [] => None | _ => Some ts end, σ')
    ∧ store_ok σ'
    ∧ total_weight ts = backpack_capacity - cap'
    ∧ (ts ≠ [] → total_weight ts ≤ backpack_capacity).
Proof.
  intros Hσ Hpath.
  destruct (take_loop_returns path backpack_capacity [] σ Hσ Hpath)
    as (res & cap' & σ' & Hloop & Hσ').
  destruct (take_loop_walk _ _ _ _ _ _ _ Hloop) as (ts & -> & Hw).
  destruct (walk_weight _ _ _ _ _ _ Hw) as [Hsum Hcap].
  exists ts, cap', σ'. unfold take_treasures. rewrite Hloop. cbn [app].
  split_and!; [done..|]. intros Hne. specialize (Hcap Hne). lia.
Qed.

Lemma take_treasures_walk_witness :
  let hollow := MysticalHollow (MaxHeap.heapify [(2%Q, mkTreasure 10 5); (2%Q, mkTreasure 4 2)]) in
  let σ : store := {[ 0%nat := hollow ]} in
  let path := [mkMazeCell (TileStr "P") (mkPosition 0 0) true;
               mkMazeCell (TileHollow 0%nat) (mkPosition 0 1) true;
               mkMazeCell (TileHollow 0%nat) (mkPosition 0 2) true;
               mkMazeCell (TileStr "E") (mkPosition 0 3) false] in
  ∃ ts cap' σ',
    walk σ 6 path ts cap' σ'
    ∧ take_treasures path 6 σ = Returns (match ts with [] => None | _ => Some ts end, σ')
    ∧ store_ok σ'
    ∧ total_weight ts = 6 - cap'
    ∧ (ts ≠ [] → total_weight ts ≤ 6).
Proof.
  intros hollow σ path. apply (take_treasures_walk path 6 σ).
  - intros h hollow' [<- <-]%lookup_singleton_Some. apply heapify_max_heap.
  - intros cell h Hcell Ht. exists hollow.
    assert (h = 0%nat) as ->; [|done].
    unfold path in Hcell. rewrite !elem_of_cons, elem_of_nil in Hcell.
    destruct Hcell as [->|[->|[->|[->|[]]]]]; cbn in Ht; congruence.
Defined.

(** ** Building the grid *)

Lemma foldl_option_None {A B} (f : A → B → option A) (l : list B) :
  foldl (λ oa b, a ← oa; f a b) None l = None.
Proof. by induction l. Qed.

(** A fold of writes that can fail, when it succeeds, made every one of its
    writes. *)
Lemma foldl_option_ind {A B} (f : A → B → option A) (P : A → list B → A → Prop) :
  (∀ a, P a [] a) →
  (∀ a b a1 l a', f a b = Some a1 → P a1 l a' → P a (b :: l) a') →
  ∀ l a a', foldl (λ oa b, a ← oa; f a b) (Some a) l = Some a' → P a l a'.
Proof.
  intros Hnil Hcons. induction l as [|b l IH]; intros a a'; cbn.
  - intros [= <-]. apply Hnil.
  - destruct (f a b) as [a1|] eqn:Hf; [|by rewrite foldl_option_None].
    intros H. eapply Hcons; [done|]. by apply IH.
Qed.

Lemma grid_set_tile_get g q t g' p :
  grid_set_tile g q t = Some g' →
  cell_index g' p = cell_index g p
  ∧ ∀ cell, grid_get g' p = Some cell →
      (cell_index g p = cell_index g q ∧ tile cell = t) ∨ grid_get g p = Some cell.
Proof.
  unfold grid_set_tile. destruct (grid_get g q) as [cell0|]; [|done]. cbn.
  intros Hset. destruct (grid_get_set _ _ _ _ p Hset) as [Hidx Hget].
  split; [done|]. intros cell. rewrite Hget. case_decide; [|by right].
  intros [= <-]. by left.
Qed.

(** Writing display strings makes no tile a hollow. *)
Lemma fold_str_tiles s ps : ∀ g g',
  foldl (λ og p, g ← og; grid_set_tile g p (TileStr s)) (Some g) ps = Some g' →
  (∀ p, cell_index g' p = cell_index g p)
  ∧ ∀ p cell h, grid_get g' p = Some cell → tile cell = TileHollow h →
                grid_get g p = Some cell.
Proof.
  apply (foldl_option_ind (λ g p, grid_set_tile g p (TileStr s))
           (λ g ps g', (∀ p, cell_index g' p = cell_index g p)
                       ∧ ∀ p cell h, grid_get g' p = Some cell →
                           tile cell = TileHollow h → grid_get g p = Some cell)).
  - done.
  - intros g q g1 l g' Hset [Hidx Hget]. split.
    + intros p. rewrite Hidx. by apply (grid_set_tile_get g q (TileStr s) g1 p).
    + intros p cell h Hc Ht. apply (Hget p cell h) in Hc; [|done].
      destruct (grid_set_tile_get g q (TileStr s) g1 p Hset) as [_ Hcase].
      destruct (Hcase cell Hc) as [[_ E]|?]; [congruence|done].
Qed.

(** After the hollows are written, a tile that is a hollow is one of those
    written, at the cell it was written to, or was a hollow before. *)
Lemma fold_hollow_tiles (hs : list (nat * Position)) : ∀ g g',
  foldl (λ og hp, g ← og; grid_set_tile g hp.2 (TileHollow hp.1)) (Some g) hs = Some g' →
  (∀ p, cell_index g' p = cell_index g p)
  ∧ ∀ p cell h, grid_get g' p = Some cell → tile cell = TileHollow h →
                (∃ q, (h, q) ∈ hs ∧ cell_index g q = cell_index g p)
                ∨ grid_get g p = Some cell.
Proof.
  apply (foldl_option_ind (λ g (hp : nat * Position), grid_set_tile g hp.2 (TileHollow hp.1))
           (λ g hs g', (∀ p, cell_index g' p = cell_index g p)
                       ∧ ∀ p cell h, grid_get g' p = Some cell →
                           tile cell = TileHollow h →
                           (∃ q, (h, q) ∈ hs ∧ cell_index g q = cell_index g p)
                           ∨ grid_get g p = Some cell)).
  - intros g. split; [done|]. intros. by right.
  - intros g [h0 q0] g1 l g' Hset [Hidx Hget]. cbn in Hset.
    pose proof (λ p, proj1 (grid_set_tile_get g q0 (TileHollow h0) g1 p Hset)) as Hidx1.
    split.
    + intros p. by rewrite Hidx, Hidx1.
    + intros p cell h Hc Ht. destruct (Hget p cell h Hc Ht) as [(q & Hq & E)|Hc1].
      * left. exists q. split; [by right|]. by rewrite <- !Hidx1.
      * destruct (grid_set_tile_get g q0 (TileHollow h0) g1 p Hset) as [_ Hcase].
        destruct (Hcase cell Hc1) as [[E1 E2]|?]; [|by right].
        left. exists q0. split; [|done]. rewrite Ht in E2. injection E2 as ->. by left.
Qed.

Lemma grid0_tiles (rows cols : Z) p cell :
  grid_get ((λ i, (λ j, mkMazeCell (TileStr " ") (mkPosition i j) false) <$> py_range cols)
              <$> py_range rows) p = Some cell →
  tile cell = TileStr " ".
Proof.
  intros (i & j & r & _ & Hr & Hc)%grid_get_Some.
  apply list_lookup_fmap_Some in Hr as (x & -> & _).
  apply list_lookup_fmap_Some in Hc as (y & -> & _). done.
Qed.

Section create.
Context (Tiles : TilesEnum).

(** A tile of the grid of a new maze that is a hollow is one of the hollows
    given, at the cell of the position it was given with. *)
Lemma create_grid_hollows start rows cols walls hollows ends g p cell h :
  _create_grid Tiles start rows cols walls hollows ends = Some g →
  grid_get g p = Some cell → tile cell = TileHollow h →
  ∃ q, (h, q) ∈ hollows ∧ cell_index g q = cell_index g p.
Proof.
  unfold _create_grid.
  set (grid0 := (λ i, (λ j, mkMazeCell (TileStr " ") (mkPosition i j) false) <$> py_range cols)
                  <$> py_range rows).
  destruct (grid_set grid0 start _) as [grid1|] eqn:H1; [|done]. cbn.
  destruct (foldl _ (Some grid1) walls) as [grid2|] eqn:H2; [|done]. cbn.
  destruct (foldl _ (Some grid2) hollows) as [grid3|] eqn:H3; [|done]. cbn.
  intros H4 Hc Ht.
  apply fold_str_tiles in H2 as [I2 G2].
  apply fold_hollow_tiles in H3 as [I3 G3].
  apply fold_str_tiles in H4 as [I4 G4].
  apply (G4 p cell h) in Hc; [|done].
  destruct (G3 p cell h Hc Ht) as [(q & Hq & E)|Hc2].
  - exists q. split; [done|]. by rewrite !I4, !I3.
  - exfalso. apply (G2 p cell h) in Hc2; [|done].
    destruct (grid_get_set _ _ _ _ p H1) as [_ Hget]. rewrite Hget in Hc2.
    case_decide.
    + injection Hc2 as <-. done.
    + apply grid0_tiles in Hc2. congruence.
Qed.

End create.

(** ** Loading *)

Lemma foldl_Some_inv {A B} (f : option A → B → option A) (P : A → Prop) (Q : B → Prop) :
  (∀ b, f None b = None) →
  (∀ a b a', Q b → P a → f (Some a) b = Some a' → P a') →
  ∀ l a a', Forall Q l → P a → foldl f (Some a) l = Some a' → P a'.
Proof.
  intros HNone Hstep.
  assert (HN : ∀ l, foldl f None l = None).
  { induction l as [|b l IH]; [done|]. cbn. by rewrite HNone. }
  induction l as [|b l IH]; intros a a' HQ HP; cbn.
  - by intros [= <-].
  - apply Forall_cons in HQ as [Hb HQ].
    destruct (f (Some a) b) as [a1|] eqn:Hf; [|by rewrite HN].
    apply IH; [done|]. by eapply Hstep.
Qed.

Lemma py_enumerate_nonneg {A} (l : list A) :
  Forall (λ ix : Z * A, 0 ≤ ix.1) (py_enumerate l).
Proof.
  unfold py_enumerate, py_range. apply Forall_forall. intros [i x] Hin.
  apply elem_of_zip_l in Hin. cbn in *.
  apply list_elem_of_fmap in Hin as (k & -> & _). lia.
Qed.

Section loading_props.
Context (Tiles : TilesEnum) (gen_treasures : nat → list Treasure).

Lemma load_tile_ok i ld jt ld' :
  0 ≤ i → 0 ≤ jt.1 → loader_ok ld →
  load_tile Tiles gen_treasures 0%nat i (Some ld) jt = Some ld' → loader_ok ld'.
Proof.
  intros Hi Hj (Hmyst & Hmade & Hspooky & Hok & Hhs & Huniq).
  destruct jt as [j tile]. cbn in Hj. unfold load_tile. cbn [mbind option_bind].
  repeat case_bool_decide.
  - intros [= <-]. by split_and!.
  - intros [= <-]. by split_and!.
  - intros [= <-]. by split_and!.
  - unfold new_hollow.
    destruct (SpookyHollow.restructure_hollow _) as [hollow|] eqn:Hr; [|done]. cbn.
    intros [= <-]. unfold loader_ok. cbn [ld_store ld_made ld_hollows].
    assert (Hkind : ∃ t, hollow = SpookyHollow t).
    { unfold SpookyHollow.restructure_hollow in Hr.
      destruct (SpookyHollow.treasure_tuples _); [|done]. cbn in Hr.
      destruct (BetterBST _) as [t|]; [|done]. injection Hr as <-. by eexists. }
    apply spooky_restructure_hollow_ok in Hr.
    split_and!.
    + destruct Hmyst as [t Ht]. exists t. rewrite lookup_insert_ne by lia. done.
    + lia.
    + intros h Hh. destruct (decide (h = ld_made ld)) as [->|Hne].
      * rewrite lookup_insert_eq. destruct Hkind as [t ->]. by eexists.
      * rewrite lookup_insert_ne by done. apply Hspooky. lia.
    + by apply store_ok_insert.
    + apply Forall_app. split.
      * eapply Forall_impl; [exact Hhs|]. intros [h p] [? ?]. cbn in *. split; [lia|done].
      * constructor; [|done]. cbn. split; [lia|]. split; cbn; lia.
    + intros a b h p q Ha Hb Hh.
      rewrite Forall_lookup in Hhs.
      apply lookup_snoc_Some in Ha as [[Hla Ha]|[Hla Ha]];
        apply lookup_snoc_Some in Hb as [[Hlb Hb]|[Hlb Hb]].
      * by eapply Huniq.
      * injection Hb as <- <-. apply Hhs in Ha. cbn in Ha. lia.
      * injection Ha as <- <-. apply Hhs in Hb. cbn in Hb. lia.
      * lia.
  - intros [= <-]. unfold loader_ok. cbn [ld_store ld_made ld_hollows].
    split_and!; try done.
    + apply Forall_app. split; [done|]. constructor; [|done]. cbn.
      split; [lia|]. split; cbn; lia.
    + intros a b h p q Ha Hb Hh.
      apply lookup_snoc_Some in Ha as [[Hla Ha]|[Hla Ha]];
        apply lookup_snoc_Some in Hb as [[Hlb Hb]|[Hlb Hb]].
      * by eapply Huniq.
      * by injection Hb as <- <-.
      * by injection Ha as <- <-.
      * lia.
  - intros [= <-]. by split_and!.
Qed.

Lemma load_line_None il : load_line Tiles gen_treasures 0%nat None il = None.
Proof.
  unfold load_line. generalize (py_enumerate (py_strip il.2)).
  intros l. by induction l.
Qed.

Lemma load_line_ok ld il ld' :
  0 ≤ il.1 → loader_ok ld →
  load_line Tiles gen_treasures 0%nat (Some ld) il = Some ld' → loader_ok ld'.
Proof.
  intros Hi Hok. unfold load_line.
  apply (foldl_Some_inv _ loader_ok (λ jt : Z * string, 0 ≤ jt.1)); [done| | |done].
  - intros a jt a' Hj Ha. by eapply load_tile_ok.
  - apply py_enumerate_nonneg.
Qed.

End loading_props.

(** ** The shape of the grid *)

Lemma grid_set_shape g p x g' :
  grid_set g p x = Some g' → length <$> g' = length <$> g.
Proof.
  intros (i & j & r & _ & Hr & ->)%grid_set_Some.
  rewrite list_fmap_insert, length_insert. apply list_insert_id.
  by rewrite list_lookup_fmap, Hr.
Qed.

Lemma grid_set_tile_shape g p t g' :
  grid_set_tile g p t = Some g' → length <$> g' = length <$> g.
Proof.
  unfold grid_set_tile. destruct (grid_get g p); [|done]. cbn. apply grid_set_shape.
Qed.

Lemma fold_tiles_shape {B} (pos : B → Position) (tl : B → tile_value) bs :
  ∀ g g' : list (list MazeCell),
  foldl (λ og b, g ← og; grid_set_tile g (pos b) (tl b)) (Some g) bs = Some g' →
  length <$> g' = length <$> g.
Proof.
  apply (foldl_option_ind (λ g b, grid_set_tile g (pos b) (tl b))
           (λ g bs g', length <$> g' = length <$> g)); [done|].
  intros g b g1 l g' Hset ->. by eapply grid_set_tile_shape.
Qed.

Lemma py_range_length (n : Z) : length (py_range n) = Z.to_nat n.
Proof. unfold py_range. by rewrite length_fmap, length_seq. Qed.

(** [_create_grid] builds [rows] rows of [cols] cells. *)
Lemma Maze_init_shape (Tiles : TilesEnum) start ends walls hollows rows cols m :
  Maze_init Tiles start ends walls hollows rows cols = Some m → grid_shape m.
Proof.
  unfold Maze_init, _create_grid.
  set (grid0 := (λ i, (λ j, mkMazeCell (TileStr " ") (mkPosition i j) false) <$> py_range cols)
                  <$> py_range rows).
  destruct (grid_set grid0 start _) as [grid1|] eqn:H1; [|done]. cbn.
  destruct (foldl _ (Some grid1) walls) as [grid2|] eqn:H2; [|done]. cbn.
  destruct (foldl _ (Some grid2) hollows) as [grid3|] eqn:H3; [|done]. cbn.
  destruct (foldl _ (Some grid3) ends) as [grid4|] eqn:H4; [|done]. cbn.
  intros [= <-]. unfold grid_shape. cbn.
  apply grid_set_shape in H1.
  apply (fold_tiles_shape id (λ _, TileStr (WALL Tiles))) in H2.
  apply (fold_tiles_shape snd (λ hp, TileHollow hp.1)) in H3.
  apply (fold_tiles_shape id (λ _, TileStr (EXIT Tiles))) in H4.
  assert (Hshape : length <$> grid4 = replicate (Z.to_nat rows) (Z.to_nat cols)).
  { rewrite H4, H3, H2, H1. unfold grid0. rewrite <- list_fmap_compose.
    rewrite <- (py_range_length rows). apply list_eq. intros k.
    rewrite list_lookup_fmap. destruct (py_range rows !! k) as [i|] eqn:Hi; cbn.
    - rewrite lookup_replicate_2 by (by eapply lookup_lt_Some).
      by rewrite length_fmap, py_range_length.
    - symmetry. apply lookup_replicate_None. by apply lookup_ge_None. }
  split.
  - by rewrite <- (length_fmap length), Hshape, length_replicate.
  - apply (Forall_fmap length (λ n, n = Z.to_nat cols)). rewrite Hshape.
    by apply Forall_replicate.
Qed.

Lemma Maze_init_shape_witness :
  let Tiles := mkTiles "S" "M" "#" "E" "P" ["S"; "M"; "#"; "E"; "P"; " "] in
  ∃ m, Maze_init Tiles (mkPosition 0 0) [mkPosition 1 1] [mkPosition 0 1]
         [(0%nat, mkPosition 1 0)] 2 2 = Some m
       ∧ grid_shape m.
Proof.
  intros Tiles. eexists. split; [reflexivity|].
  by apply (Maze_init_shape Tiles (mkPosition 0 0) [mkPosition 1 1] [mkPosition 0 1]
              [(0%nat, mkPosition 1 0)] 2 2).
Defined.

(** ** The tiles of the file *)

(** A fold of steps that can fail, when it succeeds: an invariant [P] of the
    accumulator holds at the end, every element was recorded ([R b a] says
    that [a] holds the record of [b]), and what was recorded stays so. *)
Lemma foldl_Some_elem {A B} (f : option A → B → option A)
    (P : A → Prop) (Q : B → Prop) (R : B → A → Prop) :
  (∀ b, f None b = None) →
  (∀ a b a', Q b → P a → f (Some a) b = Some a' →
             P a' ∧ R b a' ∧ ∀ b0, R b0 a → R b0 a') →
  ∀ l a a', Forall Q l → P a → foldl f (Some a) l = Some a' →
            P a' ∧ (∀ b, b ∈ l → R b a') ∧ (∀ b0, R b0 a → R b0 a').
Proof.
  intros HNone Hstep.
  assert (HN : ∀ l, foldl f None l = None).
  { induction l as [|b l IH]; [done|]. cbn. by rewrite HNone. }
  induction l as [|b l IH]; intros a a' HQ HP; cbn.
  - intros [= <-]. split; [done|]. split; [|done]. intros b Hb. by apply elem_of_nil in Hb.
  - apply Forall_cons in HQ as [Hb HQ].
    destruct (f (Some a) b) as [a1|] eqn:Hf; [|by rewrite HN].
    destruct (Hstep a b a1 Hb HP Hf) as (HP1 & HR1 & Hkeep1).
    intros Hfold. destruct (IH a1 a' HQ HP1 Hfold) as (HP' & HR' & Hkeep').
    split; [done|]. split.
    + intros b0 [->|Hb0]%elem_of_cons; [by apply Hkeep'|by apply HR'].
    + intros b0 Hb0. by apply Hkeep', Hkeep1.
Qed.

Lemma py_enumerate_lookup {A} (l : list A) :
  Forall (λ ix : Z * A, 0 ≤ ix.1 ∧ l !! Z.to_nat ix.1 = Some ix.2) (py_enumerate l).
Proof.
  unfold py_enumerate, py_range. apply Forall_lookup. intros k [i x] Hk.
  apply lookup_zip_with_Some in Hk as (i' & x' & [= <- <-] & Hi & Hx).
  apply list_lookup_fmap_Some in Hi as (n & -> & Hn).
  apply lookup_seq in Hn as [-> _]. cbn. split; [lia|]. by rewrite Nat2Z.id.
Qed.

Lemma py_enumerate_elem {A} (l : list A) (k : nat) x :
  l !! k = Some x → (Z.of_nat k, x) ∈ py_enumerate l.
Proof.
  intros Hx. unfold py_enumerate, py_range. apply list_elem_of_lookup. exists k.
  apply lookup_zip_with_Some. exists (Z.of_nat k), x. split; [done|]. split; [|done].
  apply list_lookup_fmap_Some. exists k. split; [done|].
  apply lookup_seq. split; [done|]. apply lookup_lt_Some in Hx. lia.
Qed.

Section tiles.
Context (Tiles : TilesEnum) (gen_treasures : nat → list Treasure).

(** One tile: the loader only adds to the hollows and the exits, keeps
    what it placed in line with the file, and places the hollow of the
    tile. *)
Lemma load_tile_step lines i ld jt ld' :
  0 ≤ i → 0 ≤ jt.1 → tile_at lines (mkPosition i jt.1) = Some jt.2 →
  load_tile Tiles gen_treasures 0%nat i (Some ld) jt = Some ld' →
  (0 < ld_made ld)%nat →
  ld_hollows ld ⊆ ld_hollows ld'
  ∧ (loader_sound Tiles lines ld → loader_sound Tiles lines ld')
  ∧ placed Tiles (mkPosition i jt.1) jt.2 ld'.
Proof.
  intros Hi Hj Hat. destruct jt as [j tile]. cbn in Hj, Hat.
  unfold load_tile, placed, loader_sound, mystical_tile, spooky_tile, exit_tile.
  cbn [mbind option_bind fst snd].
  repeat case_bool_decide.
  - intros [= <-] _. cbn. split_and!; [done|done|intros []; done|intros []; done].
  - intros [= <-] _. cbn. split_and!; [done| |intros (?&?&_); done|intros (?&?&_); done].
    intros [Hhs Hes]. split; [done|]. apply Forall_app. split; [done|].
    constructor; [|done]. split; [split; cbn; lia|]. by exists tile.
  - intros [= <-] _. cbn.
    split_and!; [done|done|intros (?&?&?&_); done|intros (?&?&?&_); done].
  - unfold new_hollow.
    destruct (SpookyHollow.restructure_hollow _) as [hollow|]; [|done]. cbn.
    intros [= <-] Hmade. cbn. split_and!.
    + intros x Hx. apply elem_of_app. by left.
    + intros [Hhs Hes]. split; [|done]. apply Forall_app. split; [done|].
      constructor; [|done]. cbn. exists tile. split; [done|]. right.
      split; [done|lia].
    + intros (?&?&?&?&_); done.
    + intros _. exists (ld_made ld). apply elem_of_app. right. by left.
  - intros [= <-] _. cbn. split_and!.
    + intros x Hx. apply elem_of_app. by left.
    + intros [Hhs Hes]. split; [|done]. apply Forall_app. split; [done|].
      constructor; [|done]. cbn. exists tile. split; [done|]. by left.
    + intros _. apply elem_of_app. right. by left.
    + intros (?&?&?&?); done.
  - intros [= <-] _. cbn.
    split_and!; [done|done|intros (?&?&?&?&?); done|intros (?&?&?&?); done].
Qed.


Lemma placed_mono p c ld ld' :
  ld_hollows ld ⊆ ld_hollows ld' → placed Tiles p c ld → placed Tiles p c ld'.
Proof.
  intros Hsub [Hm Hs]. split.
  - intros Hc. by apply Hsub, Hm.
  - intros Hc. destruct (Hs Hc) as [h Hh]. exists h. by apply Hsub.
Qed.

(** One line of the file. *)
Lemma load_line_step lines ld il ld' :
  0 ≤ il.1 → lines !! Z.to_nat il.1 = Some il.2 → loader_ok ld →
  load_line Tiles gen_treasures 0%nat (Some ld) il = Some ld' →
  (loader_ok ld' ∧ ld_hollows ld ⊆ ld_hollows ld'
   ∧ (loader_sound Tiles lines ld → loader_sound Tiles lines ld'))
  ∧ ∀ (j : nat) c, py_strip il.2 !! j = Some c →
                   placed Tiles (mkPosition il.1 (Z.of_nat j)) c ld'.
Proof.
  intros Hi Hline Hok. destruct il as [i line]. cbn in Hi, Hline. unfold load_line.
  cbn [fst snd]. intros Hfold.
  destruct (foldl_Some_elem (load_tile Tiles gen_treasures 0%nat i)
              (λ a, loader_ok a ∧ ld_hollows ld ⊆ ld_hollows a
                    ∧ (loader_sound Tiles lines ld → loader_sound Tiles lines a))
              (λ jt : Z * string, 0 ≤ jt.1 ∧ py_strip line !! Z.to_nat jt.1 = Some jt.2)
              (λ jt a, placed Tiles (mkPosition i jt.1) jt.2 a))
    with (l := py_enumerate (py_strip line)) (a := ld) (a' := ld')
    as (HP & HR & _); [done| |apply py_enumerate_lookup|by split_and!|done|].
  - intros a jt a' [Hj Hat] (Hoka & Hsub & Hsound) Hstep.
    destruct (load_tile_step lines i a jt a' Hi Hj) as (Hs1 & Hs2 & Hs3);
      [|done|by destruct Hoka as (_ & ? & _)|].
    { unfold tile_at. cbn [row col]. by rewrite Hline. }
    split_and!.
    + by apply (load_tile_ok Tiles gen_treasures i a jt a').
    + by etrans.
    + auto.
    + done.
    + intros jt0. by apply placed_mono.
  - split; [done|]. intros j c Hc. by apply (HR (Z.of_nat j, c)), py_enumerate_elem.
Qed.

(** The whole file. *)
Lemma load_lines_step lines ld ld' :
  loader_ok ld → loader_sound Tiles lines ld →
  foldl (load_line Tiles gen_treasures 0%nat) (Some ld) (py_enumerate lines) = Some ld' →
  loader_ok ld' ∧ loader_sound Tiles lines ld'
  ∧ ∀ p c, nonneg p → tile_at lines p = Some c → placed Tiles p c ld'.
Proof.
  intros Hok Hsound Hfold.
  destruct (foldl_Some_elem (load_line Tiles gen_treasures 0%nat)
              (λ a, loader_ok a ∧ loader_sound Tiles lines a)
              (λ il : Z * string, 0 ≤ il.1 ∧ lines !! Z.to_nat il.1 = Some il.2)
              (λ il a, ∀ (j : nat) c, py_strip il.2 !! j = Some c →
                                      placed Tiles (mkPosition il.1 (Z.of_nat j)) c a))
    with (l := py_enumerate lines) (a := ld) (a' := ld')
    as ([Hok' Hsound'] & HR & _); [apply load_line_None| |apply py_enumerate_lookup|done..|].
  - intros a il a' [Hi Hline] [Hoka Hsa] Hstep.
    destruct (load_line_step lines a il a' Hi Hline Hoka Hstep) as ((H1 & H2 & H3) & H4).
    split_and!; [done|by apply H3|done|].
    intros il0 Hil0 j c Hc. eapply placed_mono; [done|]. by apply Hil0.
  - split; [done|]. split; [done|]. intros [i j] c [Hi Hj] Hat. cbn in Hi, Hj.
    unfold tile_at in Hat. cbn [row col] in Hat.
    destruct (lines !! Z.to_nat i) as [line|] eqn:Hline; [|done]. cbn in Hat.
    pose proof (HR (Z.of_nat (Z.to_nat i), line) (py_enumerate_elem _ _ _ Hline)
                  (Z.to_nat j) c Hat) as Hplaced.
    cbn [fst] in Hplaced. by rewrite !Z2Nat.id in Hplaced.
Qed.

End tiles.

(** ** Where the hollows end up *)

(** Writes at other cells leave the cell of [p] as it was. *)
Lemma fold_tiles_other {B} (pos : B → Position) (tl : B → tile_value) p bs : ∀ g g',
  foldl (λ og b, g ← og; grid_set_tile g (pos b) (tl b)) (Some g) bs = Some g' →
  (∀ b, b ∈ bs → cell_index g (pos b) ≠ cell_index g p) →
  grid_get g' p = grid_get g p.
Proof.
  apply (foldl_option_ind (λ g b, grid_set_tile g (pos b) (tl b))
           (λ g bs g', (∀ b, b ∈ bs → cell_index g (pos b) ≠ cell_index g p) →
                       grid_get g' p = grid_get g p)).
  - done.
  - intros g b g1 l g' Hset IH Hne.
    pose proof (λ q, proj1 (grid_set_tile_get g (pos b) (tl b) g1 q Hset)) as Hidx.
    rewrite IH.
    + unfold grid_set_tile in Hset.
      destruct (grid_get g (pos b)) as [cell0|]; [|done]. cbn in Hset.
      destruct (grid_get_set _ _ _ _ p Hset) as [_ ->].
      rewrite decide_False; [done|]. intros E. apply (Hne b); [by left|done].
    + intros b' Hb'. rewrite !Hidx. apply Hne. by right.
Qed.

(** Under writes of hollows, a cell that holds a hollow holds one
    afterwards. *)
Lemma fold_hollow_keeps (hs : list (nat * Position)) p : ∀ g g',
  foldl (λ og hp, g ← og; grid_set_tile g hp.2 (TileHollow hp.1)) (Some g) hs = Some g' →
  (∃ cell h, grid_get g p = Some cell ∧ tile cell = TileHollow h) →
  ∃ cell h, grid_get g' p = Some cell ∧ tile cell = TileHollow h.
Proof.
  apply (foldl_option_ind (λ g (hp : nat * Position), grid_set_tile g hp.2 (TileHollow hp.1))
           (λ g hs g', (∃ cell h, grid_get g p = Some cell ∧ tile cell = TileHollow h) →
                       ∃ cell h, grid_get g' p = Some cell ∧ tile cell = TileHollow h)).
  - done.
  - intros g [h0 q0] g1 l g' Hset IH (cell & h & Hc & Ht). apply IH.
    unfold grid_set_tile in Hset. cbn in Hset.
    destruct (grid_get g q0) as [cell0|]; [|done]. cbn in Hset.
    destruct (grid_get_set _ _ _ _ p Hset) as [_ ->].
    case_decide; [by eexists _, h0|by exists cell, h].
Qed.

(** After the writes of the hollows, the cell of every hollow written holds
    a hollow. *)
Lemma fold_hollow_written (hs : list (nat * Position)) : ∀ g g',
  foldl (λ og hp, g ← og; grid_set_tile g hp.2 (TileHollow hp.1)) (Some g) hs = Some g' →
  ∀ h p, (h, p) ∈ hs → ∃ cell h', grid_get g' p = Some cell ∧ tile cell = TileHollow h'.
Proof.
  induction hs as [|[h0 q0] hs IH]; intros g g' Hfold h p Hin.
  { by apply elem_of_nil in Hin. }
  cbn in Hfold.
  destruct (grid_set_tile g q0 (TileHollow h0)) as [g1|] eqn:Hset;
    [|by rewrite foldl_option_None in Hfold].
  apply elem_of_cons in Hin as [[= -> ->]|Hin]; [|by eapply IH].
  apply (fold_hollow_keeps hs q0 g1 g' Hfold).
  unfold grid_set_tile in Hset.
  destruct (grid_get g q0) as [cell0|]; [|done]. cbn in Hset.
  destruct (grid_get_set _ _ _ _ q0 Hset) as [_ ->].
  rewrite decide_True by done. by eexists _, h0.
Qed.

Section placed.
Context (Tiles : TilesEnum).

(** In the grid of a new maze, the cell of a hollow given holds a hollow,
    unless its position is an end position too. *)
Lemma create_grid_written start rows cols walls hollows ends g h p :
  _create_grid Tiles start rows cols walls hollows ends = Some g →
  (h, p) ∈ hollows → nonneg p → Forall nonneg ends → p ∉ ends →
  ∃ cell h', grid_get g p = Some cell ∧ tile cell = TileHollow h'.
Proof.
  unfold _create_grid.
  set (grid0 := (λ i, (λ j, mkMazeCell (TileStr " ") (mkPosition i j) false) <$> py_range cols)
                  <$> py_range rows).
  destruct (grid_set grid0 start _) as [grid1|] eqn:H1; [|done]. cbn.
  destruct (foldl _ (Some grid1) walls) as [grid2|] eqn:H2; [|done]. cbn.
  destruct (foldl _ (Some grid2) hollows) as [grid3|] eqn:H3; [|done]. cbn.
  intros H4 Hin Hp Hends Hne.
  destruct (fold_hollow_written _ _ _ H3 h p Hin) as (cell & h' & Hc & Ht).
  exists cell, h'. split; [|done]. rewrite <- Hc.
  apply (fold_tiles_other id (λ _, TileStr (EXIT Tiles)) p ends grid3 g H4).
  intros e He Heq. apply Hne. replace p with e; [done|]. symmetry.
  rewrite Forall_forall in Hends.
  apply (cell_index_nonneg_inj grid3); [done|by apply Hends| |done].
  apply grid_get_Some in Hc as (i & j & _ & Hi & _). by eexists.
Qed.

End placed.

Lemma mystical_take_contents (treasures : heap Treasure) cap t hollow' :
  max_heap treasures →
  get_optimal_treasure (MysticalHollow treasures) cap = Returns (Some t, hollow') →
  hollow_contents (MysticalHollow treasures) ≡ₚ t :: hollow_contents hollow'.
Proof.
  intros Hh. cbn [get_optimal_treasure].
  destruct (mystical_get_optimal_treasure_spec treasures cap Hh)
    as (accepted & rest & rejected & _ & -> & Hp & _).
  destruct accepted as [[k x]|]; [|done]. cbn. intros [= <- <-]. cbn.
  rewrite Hp, mystical_restore_perm, !fmap_app. cbn.
  by rewrite <- Permutation_middle.
Qed.

Section loaded.
Context (Tiles : TilesEnum) (gen_treasures : nat → list Treasure).

Lemma load_maze_from_file_inv lines m σ :
  load_maze_from_file Tiles gen_treasures lines = Some (m, σ) →
  ∃ ld start rows cols,
    loader_ok ld ∧ loader_sound Tiles lines ld
    ∧ (∀ p c, nonneg p → tile_at lines p = Some c → placed Tiles p c ld)
    ∧ σ = ld_store ld
    ∧ _create_grid Tiles start rows cols (ld_walls ld) (ld_hollows ld) (ld_ends ld)
      = Some (grid m).
Proof.
  unfold load_maze_from_file.
  destruct (validate_maze_file Tiles lines); [|done]. cbn.
  unfold new_hollow at 1.
  destruct (MysticalHollow.restructure_hollow _) as [hollow|] eqn:Hr; [|done]. cbn.
  destruct (lines !! 0%nat) as [line0|]; [|done]. cbn.
  destruct (foldl _ _ _) as [ld|] eqn:Hfold; [|done]. cbn.
  destruct (ld_start ld) as [start|]; [|done]. cbn.
  unfold Maze_init.
  destruct (_create_grid _ _ _ _ _ _ _) as [g|] eqn:Hg; [|done]. cbn.
  intros [= <- <-]. exists ld, start. eexists _, _.
  assert (Hkind : ∃ t, hollow = MysticalHollow t).
  { unfold MysticalHollow.restructure_hollow in Hr.
    destruct (MysticalHollow.treasure_tuples _); [|done]. injection Hr as <-. by eexists. }
  apply mystical_restructure_hollow_ok in Hr.
  destruct (load_lines_step Tiles gen_treasures lines
              (mkLoader None [] [] [] (<[0%nat := hollow]> ∅) 1) ld)
    as (Hok & Hsound & Hplaced); [| |exact Hfold|by split_and!].
  - unfold loader_ok. cbn [ld_store ld_made ld_hollows]. split_and!.
    + destruct Hkind as [t ->]. exists t. by rewrite lookup_insert_eq.
    + lia.
    + intros h Hh. lia.
    + by apply store_ok_insert.
    + constructor.
    + intros a b h p q Ha. by rewrite lookup_nil in Ha.
  - split; constructor.
Qed.

End loaded.

(** C9: in a maze loaded from a file, with the store of its hollows, every
    hollow has its invariant; the mystical hollow made first is at
    location 0, and every tile that holds a mystical hollow holds that one;
    a spooky hollow is held by one cell only.  So when a treasure is taken
    through one cell with the mystical hollow, any other cell with a
    mystical hollow holds the hollow without that treasure.  The cell of
    every mystical tile of the file holds the hollow at location 0, and the
    cell of every spooky tile holds a spooky hollow of the store. *)
Theorem load_maze_from_file_sharing (Tiles : TilesEnum) (gen_treasures : nat → list Treasure)
    (lines : list string) (m : Maze) (σ : store) :
  load_maze_from_file Tiles gen_treasures lines = Some (m, σ) →
  store_ok σ
  ∧ (∃ t, σ !! 0%nat = Some (MysticalHollow t))
  ∧ (∀ p cell h, grid_get (grid m) p = Some cell → tile cell = TileHollow h →
                 is_Some (σ !! h))
  ∧ (∀ p cell h t, grid_get (grid m) p = Some cell → tile cell = TileHollow h →
                   σ !! h = Some (MysticalHollow t) → h = 0%nat)
  ∧ (∀ p q cp cq h t, nonneg p → nonneg q →
       grid_get (grid m) p = Some cp → grid_get (grid m) q = Some cq →
       tile cp = TileHollow h → tile cq = TileHollow h →
       σ !! h = Some (SpookyHollow t) → p = q)
  ∧ (∀ p1 p2 c1 c2 h1 h2 t1 t2 cap t hollow',
       grid_get (grid m) p1 = Some c1 → grid_get (grid m) p2 = Some c2 →
       tile c1 = TileHollow h1 → tile c2 = TileHollow h2 →
       σ !! h1 = Some (MysticalHollow t1) → σ !! h2 = Some (MysticalHollow t2) →
       get_optimal_treasure (MysticalHollow t1) cap = Returns (Some t, hollow') →
       take_loop [c1] cap [] σ = Returns ([t], cap - weight t, <[h1 := hollow']> σ)
       ∧ <[h1 := hollow']> σ !! h2 = Some hollow'
       ∧ hollow_contents (MysticalHollow t1) ≡ₚ t :: hollow_contents hollow')
  ∧ (∀ p c, nonneg p → tile_at lines p = Some c → mystical_tile Tiles c →
       ∃ cell, grid_get (grid m) p = Some cell ∧ tile cell = TileHollow 0%nat)
  ∧ (∀ p c, nonneg p → tile_at lines p = Some c → spooky_tile Tiles c →
       ∃ cell h t, grid_get (grid m) p = Some cell ∧ tile cell = TileHollow h
                   ∧ σ !! h = Some (SpookyHollow t)).
Proof.
  intros (ld & start & rows & cols & Hld & [Hsh Hse] & Hplaced & -> & Hgrid)%load_maze_from_file_inv.
  destruct Hld as (Hmyst & Hmade & Hspooky & Hok & Hhs & Huniq).
  assert (Hin : ∀ p cell h, grid_get (grid m) p = Some cell → tile cell = TileHollow h →
                  ∃ q, (h, q) ∈ ld_hollows ld ∧ cell_index (grid m) q = cell_index (grid m) p).
  { intros p cell h. by apply (create_grid_hollows Tiles start rows cols (ld_walls ld) _ (ld_ends ld)). }
  assert (Hzero : ∀ p cell h t, grid_get (grid m) p = Some cell → tile cell = TileHollow h →
                    ld_store ld !! h = Some (MysticalHollow t) → h = 0%nat).
  { intros p cell h t Hc Ht Hh. destruct (Hin p cell h Hc Ht) as (q & Hq & _).
    rewrite Forall_forall in Hhs. destruct (Hhs _ Hq) as [Hlt _]. cbn in Hlt.
    destruct (decide (h = 0%nat)) as [->|Hne]; [done|].
    destruct (Hspooky h) as [t' Ht']; [lia|]. congruence. }
  assert (Hat : ∀ p c h, nonneg p → tile_at lines p = Some c → (h, p) ∈ ld_hollows ld →
                  ¬ exit_tile Tiles c →
                  ∃ cell h', grid_get (grid m) p = Some cell ∧ tile cell = TileHollow h'
                             ∧ (h', p) ∈ ld_hollows ld).
  { intros p c h Hp Hc Hh Hnx.
    destruct (create_grid_written Tiles start rows cols (ld_walls ld) (ld_hollows ld)
                (ld_ends ld) (grid m) h p Hgrid Hh Hp) as (cell & h' & Hcell & Ht).
    - eapply Forall_impl; [exact Hse|]. by intros e [? _].
    - intros He. rewrite Forall_forall in Hse.
      destruct (Hse p He) as (_ & c' & Hc' & Hx). congruence.
    - exists cell, h'. split; [done|]. split; [done|].
      destruct (Hin p cell h' Hcell Ht) as (q & Hq & Heq).
      replace p with q; [done|].
      rewrite Forall_forall in Hhs. destruct (Hhs _ Hq) as [_ Hqn].
      symmetry. apply (cell_index_nonneg_inj (grid m)); [done..| |congruence].
      apply grid_get_Some in Hcell as (i & j & _ & Hi & _). by eexists. }
  split_and!; [done|done| |done| | | |].
  - intros p cell h Hc Ht. destruct (Hin p cell h Hc Ht) as (q & Hq & _).
    rewrite Forall_forall in Hhs. destruct (Hhs _ Hq) as [Hlt _]. cbn in Hlt.
    destruct (decide (h = 0%nat)) as [->|Hne].
    + destruct Hmyst as [t ->]. by eexists.
    + destruct (Hspooky h) as [t' ->]; [lia|]. by eexists.
  - intros p q cp cq h t Hp Hq Hcp Hcq Htp Htq Hh.
    assert (Hne : h ≠ 0%nat).
    { intros ->. destruct Hmyst as [t' Ht']. congruence. }
    destruct (Hin p cp h Hcp Htp) as (q1 & Hq1 & E1).
    destruct (Hin q cq h Hcq Htq) as (q2 & Hq2 & E2).
    apply list_elem_of_lookup in Hq1 as [a Ha], Hq2 as [b Hb].
    assert (a = b) as -> by by eapply Huniq.
    assert (q1 = q2) as -> by congruence.
    apply (cell_index_nonneg_inj (grid m)); [done..| |congruence].
    apply grid_get_Some in Hcp as (i & j & _ & Hi & _). by eexists.
  - intros p1 p2 c1 c2 h1 h2 t1 t2 cap t hollow' Hc1 Hc2 Ht1 Ht2 Hh1 Hh2 Hg.
    assert (h1 = 0%nat) as -> by by apply (Hzero p1 c1 h1 t1).
    assert (h2 = 0%nat) as -> by by apply (Hzero p2 c2 h2 t2).
    split_and!.
    + cbn [take_loop]. rewrite Ht1, Hh1, Hg.
      rewrite bool_decide_eq_true_2 by by eapply get_optimal_treasure_fits.
      done.
    + by rewrite lookup_insert_eq.
    + apply (mystical_take_contents t1 cap); [|done].
      exact (Hok 0%nat (MysticalHollow t1) Hh1).
  - intros p c Hp Hc Hm.
    destruct (Hplaced p c Hp Hc) as [Hpm _].
    destruct (Hat p c 0%nat Hp Hc (Hpm Hm)) as (cell & h' & Hcell & Ht & Hh').
    { intros [_ Hx]. by destruct Hm as (_ & ? & _). }
    exists cell. split; [done|]. rewrite Ht. f_equal.
    rewrite Forall_forall in Hsh.
    destruct (Hsh _ Hh') as (c' & Hc' & [[_ ?]|[Hs _]]); [done|].
    cbn in Hc'. assert (c' = c) as -> by congruence.
    destruct Hm as (_ & _ & _ & ? & _), Hs as (_ & _ & _ & ?). done.
  - intros p c Hp Hc Hs.
    destruct (Hplaced p c Hp Hc) as [_ Hps]. destruct (Hps Hs) as [h0 Hh0].
    destruct (Hat p c h0 Hp Hc Hh0) as (cell & h' & Hcell & Ht & Hh').
    { intros [_ Hx]. by destruct Hs as (_ & ? & _). }
    rewrite Forall_forall in Hsh, Hhs.
    destruct (Hsh _ Hh') as (c' & Hc' & [[Hm _]|[_ Hne]]).
    { cbn in Hc'. assert (c' = c) as -> by congruence.
      destruct Hm as (_ & _ & _ & ? & _), Hs as (_ & _ & _ & ?). done. }
    destruct (Hhs _ Hh') as [Hlt _]. cbn in Hlt, Hne.
    destruct (Hspooky h') as [t Hsp]; [lia|]. by exists cell, h', t.
Qed.

Lemma load_maze_from_file_sharing_witness :
  let Tiles := mkTiles "S" "M" "#" "E" "P" ["S"; "M"; "#"; "E"; "P"; " "] in
  let gen_treasures := λ n : nat, [mkTreasure 10 5; mkTreasure (Z.of_nat n) 3] in
  let lines := ["PM#"; "SME"] in
  ∃ m σ,
    load_maze_from_file Tiles gen_treasures lines = Some (m, σ)
    ∧ (∀ p cell h t, grid_get (grid m) p = Some cell → tile cell = TileHollow h →
                     σ !! h = Some (MysticalHollow t) → h = 0%nat)
    ∧ (∀ p c, nonneg p → tile_at lines p = Some c → mystical_tile Tiles c →
         ∃ cell, grid_get (grid m) p = Some cell ∧ tile cell = TileHollow 0%nat).
Proof.
  intros Tiles gen_treasures lines.
  destruct (load_maze_from_file Tiles gen_treasures lines) as [[m σ]|] eqn:Hload;
    [|by vm_compute in Hload].
  exists m, σ. split; [done|].
  by destruct (load_maze_from_file_sharing Tiles gen_treasures lines m σ Hload)
    as (_ & _ & _ & H & _ & _ & H' & _).
Defined.

(** * Further properties of the code *)

(** ** Hollows: restructuring and the best treasure *)

Lemma mystical_tuples_spec (treasures : list Treasure) :
  Forall (λ t, weight t ≠ 0) treasures →
  ∃ tuples, MysticalHollow.treasure_tuples treasures = Some tuples
            ∧ tuples.*2 = treasures
            ∧ Forall (λ e, (e.1 == ratio e.2)%Q) tuples.
Proof.
  unfold MysticalHollow.treasure_tuples. induction 1 as [|t ts Ht _ (tuples & IH & E & HF)].
  - by exists [].
  - exists ((ratio t, t) :: tuples).
    cbn [mapM]. rewrite IH. unfold py_truediv.
    rewrite bool_decide_eq_false_2 by done. cbn.
    split; [done|]. split; [by rewrite E|]. by constructor.
Qed.

(** The pairing loop stops with [ZeroDivisionError] exactly when a treasure
    weighs nothing. *)
Lemma treasure_tuples_None (f : Z → Z) (treasures : list Treasure) :
  mapM (λ treasure, ratio ← py_truediv (f (value treasure)) (weight treasure);
                    Some (ratio, treasure)) treasures = None
  ↔ Exists (λ t, weight t = 0) treasures.
Proof.
  induction treasures as [|t ts IH].
  - split; [done|]. by intros ?%Exists_nil.
  - cbn [mapM]. rewrite Exists_cons.
    destruct (py_truediv (f (value t)) (weight t)) as [q|] eqn:Hq;
      unfold py_truediv in Hq; case_bool_decide as Hz; simplify_eq; cbn.
    + destruct (mapM _ ts) as [tuples|] eqn:E; cbn.
      * split; [done|]. intros [?|Hex]; [done|]. by apply IH in Hex.
      * split; [|done]. intros _. right. by apply IH.
    + split; [by left|done].
Qed.

Lemma spooky_restructure_hollow_None (treasures : list Treasure) :
  SpookyHollow.restructure_hollow treasures = None
  ↔ Exists (λ t, weight t = 0) treasures.
Proof.
  assert (H : SpookyHollow.treasure_tuples treasures = None
              ↔ Exists (λ t, weight t = 0) treasures)
    by apply (treasure_tuples_None Z.opp treasures).
  unfold SpookyHollow.restructure_hollow.
  destruct (SpookyHollow.treasure_tuples treasures) as [tuples|]; cbn; [|by split; [intros _; apply H|]].
  destruct (BetterBST_spec tuples) as (t & -> & _). cbn.
  split; [done|]. intros Hex. by apply H in Hex.
Qed.

Lemma mystical_restructure_hollow_None (treasures : list Treasure) :
  MysticalHollow.restructure_hollow treasures = None
  ↔ Exists (λ t, weight t = 0) treasures.
Proof.
  assert (H : MysticalHollow.treasure_tuples treasures = None
              ↔ Exists (λ t, weight t = 0) treasures)
    by apply (treasure_tuples_None id treasures).
  unfold MysticalHollow.restructure_hollow.
  destruct (MysticalHollow.treasure_tuples treasures) as [tuples|]; cbn; [|by split; [intros _; apply H|]].
  split; [done|]. intros Hex. by apply H in Hex.
Qed.

Lemma restructure_hollow_nonzero (restructure : list Treasure → option Hollow)
    (treasures : list Treasure) (self : Hollow) :
  (restructure treasures = None ↔ Exists (λ t, weight t = 0) treasures) →
  restructure treasures = Some self → Forall (λ t, weight t ≠ 0) treasures.
Proof.
  intros Hiff Hr. apply Forall_forall. intros t Ht Hz.
  assert (restructure treasures = None); [|congruence].
  apply Hiff, Exists_exists. by exists t.
Qed.

Lemma mystical_restructure_hollow_spec (treasures : list Treasure) :
  Forall (λ t, weight t ≠ 0) treasures →
  ∃ h, MysticalHollow.restructure_hollow treasures = Some (MysticalHollow h)
       ∧ max_heap h
       ∧ h.*2 ≡ₚ treasures
       ∧ Forall (λ e, (e.1 == ratio e.2)%Q) h.
Proof.
  intros Hw. destruct (mystical_tuples_spec treasures Hw) as (tuples & Ht & E & Hk).
  exists (MaxHeap.heapify tuples). unfold MysticalHollow.restructure_hollow. rewrite Ht. cbn.
  assert (Hp := heapify_perm tuples).
  split_and!; [done|apply heapify_max_heap|by rewrite Hp, E|by rewrite Hp].
Qed.

Lemma spooky_restructure_hollow_spec (treasures : list Treasure) :
  Forall (λ t, weight t ≠ 0) treasures →
  ∃ tr, SpookyHollow.restructure_hollow treasures = Some (SpookyHollow tr)
        ∧ bst tr
        ∧ (inorder tr).*2 ≡ₚ treasures
        ∧ Forall (λ e, (e.1 == - ratio e.2)%Q) (inorder tr).
Proof.
  intros Hw. destruct (spooky_tuples_spec treasures Hw) as (tuples & Ht & E & Hk).
  destruct (BetterBST_spec tuples) as (tr & Htr & Hp & Hb).
  exists tr. unfold SpookyHollow.restructure_hollow. rewrite Ht. cbn. rewrite Htr. cbn.
  split_and!; [done|done|by rewrite Hp, E|by rewrite Hp].
Qed.


(** X2: for treasures that all weigh something,
    [MysticalHollow.restructure_hollow] builds a max-heap of exactly the
    treasures given, each under the key [value / weight]; its root is a
    treasure of the greatest ratio. *)
Theorem mystical_restructure_hollow_heap (treasures : list Treasure) :
  Forall (λ t, weight t ≠ 0) treasures →
  ∃ h, MysticalHollow.restructure_hollow treasures = Some (MysticalHollow h)
       ∧ max_heap h
       ∧ h.*2 ≡ₚ treasures
       ∧ Forall (λ e, (e.1 == ratio e.2)%Q) h
       ∧ (∀ top, h !! 0%nat = Some top →
            Forall (λ t, (ratio t <= ratio top.2)%Q) treasures).
Proof.
  intros Hw. destruct (mystical_restructure_hollow_spec treasures Hw) as (h & Hr & Hh & Hp & Hkey).
  exists h. split_and!; [done..|].
  intros top Htop.
  assert (Hroot := max_heap_root _ top Hh Htop).
  rewrite <- Hp. apply Forall_fmap.
  rewrite Forall_forall in Hroot, Hkey. apply Forall_forall. intros e He. cbn.
  assert (E1 : (e.1 == ratio e.2)%Q) by by apply Hkey.
  assert (E2 : (top.1 == ratio top.2)%Q) by (apply Hkey; by eapply list_elem_of_lookup_2).
  rewrite <- E1, <- E2. by apply Hroot.
Qed.

Lemma mystical_restructure_hollow_heap_witness :
  ∃ h, MysticalHollow.restructure_hollow [mkTreasure 10 5; mkTreasure 9 3; mkTreasure 1 4]
       = Some (MysticalHollow h)
       ∧ max_heap h
       ∧ h.*2 ≡ₚ [mkTreasure 10 5; mkTreasure 9 3; mkTreasure 1 4]
       ∧ Forall (λ e, (e.1 == ratio e.2)%Q) h
       ∧ (∀ top, h !! 0%nat = Some top →
            Forall (λ t, (ratio t <= ratio top.2)%Q)
              [mkTreasure 10 5; mkTreasure 9 3; mkTreasure 1 4]).
Proof.
  apply (mystical_restructure_hollow_heap [mkTreasure 10 5; mkTreasure 9 3; mkTreasure 1 4]).
  by repeat constructor.
Defined.

Lemma restructure_hollow_spec (treasures : list Treasure) (self : Hollow) :
  SpookyHollow.restructure_hollow treasures = Some self
  ∨ MysticalHollow.restructure_hollow treasures = Some self →
  hollow_contents self ≡ₚ treasures ∧ hollow_ok self ∧ hollow_keyed self.
Proof.
  intros [Hr|Hr].
  - assert (Hnz := restructure_hollow_nonzero _ _ _ (spooky_restructure_hollow_None treasures) Hr).
    destruct (spooky_restructure_hollow_spec treasures Hnz) as (tr & Hr' & Hb & Hp & Hk).
    rewrite Hr' in Hr. by injection Hr as <-.
  - assert (Hnz := restructure_hollow_nonzero _ _ _ (mystical_restructure_hollow_None treasures) Hr).
    destruct (mystical_restructure_hollow_spec treasures Hnz) as (h & Hr' & Hb & Hp & Hk).
    rewrite Hr' in Hr. by injection Hr as <-.
Qed.

Lemma hollow_len_contents (self : Hollow) : hollow_len self = length (hollow_contents self).
Proof.
  destruct self as [tr|h]; cbn; [|by rewrite length_fmap].
  by rewrite tree_len_inorder, length_fmap.
Qed.

(** X3: [len] of a hollow that [restructure_hollow] has built is the number
    of treasures generated for it: the hollow holds exactly these
    treasures, each keyed by its ratio, in a collection that has its
    invariant. *)
Theorem restructure_hollow_len (treasures : list Treasure) (self : Hollow) :
  SpookyHollow.restructure_hollow treasures = Some self
  ∨ MysticalHollow.restructure_hollow treasures = Some self →
  hollow_len self = length treasures
  ∧ hollow_contents self ≡ₚ treasures
  ∧ hollow_ok self ∧ hollow_keyed self.
Proof.
  intros Hr. destruct (restructure_hollow_spec treasures self Hr) as (Hp & Hok & Hk).
  split; [|done]. by rewrite hollow_len_contents, Hp.
Qed.

Lemma restructure_hollow_len_witness :
  let treasures := [mkTreasure 10 5; mkTreasure 9 3; mkTreasure 1 4] in
  ∃ self, SpookyHollow.restructure_hollow treasures = Some self
          ∧ hollow_len self = length treasures
          ∧ hollow_contents self ≡ₚ treasures
          ∧ hollow_ok self ∧ hollow_keyed self.
Proof.
  intros treasures. eexists. split; [reflexivity|].
  apply (restructure_hollow_len treasures). left. reflexivity.
Defined.

Lemma spooky_get_optimal_treasure_best (treasures : tree Treasure) (cap : Z) r treasures' :
  bst treasures →
  Forall (λ e, (e.1 == - ratio e.2)%Q) (inorder treasures) →
  SpookyHollow.get_optimal_treasure treasures cap = Some (r, treasures') →
  Forall (λ e, (e.1 == - ratio e.2)%Q) (inorder treasures')
  ∧ match r with
    | Some t => t ∈ (inorder treasures).*2 ∧ weight t ≤ cap
                ∧ ∀ t', t' ∈ (inorder treasures).*2 → weight t' ≤ cap →
                        (ratio t' <= ratio t)%Q
    | None => ∀ t', t' ∈ (inorder treasures).*2 → cap < weight t'
    end.
Proof.
  intros Hb Hk Hcall.
  destruct (spooky_get_optimal_treasure_spec treasures cap Hb) as (r0 & tr0 & E & _ & H).
  rewrite Hcall in E. injection E as <- <-.
  destruct r as [t|].
  - destruct H as (l1 & k & l2 & E1 & Hl1 & Hfit & m1 & k' & x' & m2 & E2 & E3 & _).
    split.
    { rewrite E3. rewrite E2 in Hk. by apply Forall_sublist_middle in Hk. }
    split; [rewrite E1, fmap_app; apply elem_of_app; right; by left|].
    split; [done|].
    intros t' Hin Hfit'. apply list_elem_of_fmap in Hin as ([k0 t0] & -> & Hin). cbn in *.
    assert (Hs := bst_inorder_sorted _ Hb). rewrite E1 in Hs, Hk, Hin.
    apply StronglySorted_app_1_r in Hs. apply StronglySorted_inv in Hs as [_ Hs].
    rewrite Forall_forall in Hl1, Hs, Hk.
    assert (Ek : (k == - ratio t)%Q).
    { apply (Hk (k, t)). apply elem_of_app. right. by left. }
    assert (Ek0 : (k0 == - ratio t0)%Q) by by apply (Hk (k0, t0)).
    apply elem_of_app in Hin as [Hin|Hin].
    { specialize (Hl1 _ Hin). cbn in Hl1. lia. }
    apply elem_of_cons in Hin as [[= -> ->]|Hin]; [apply Qle_refl|].
    specialize (Hs _ Hin). unfold key_le in Hs. cbn in Hs.
    rewrite Ek, Ek0 in Hs. by apply Qopp_le_compat in Hs; rewrite !Qopp_opp in Hs.
  - destruct H as [-> Hall]. split; [done|].
    intros t' Hin. apply list_elem_of_fmap in Hin as (e & -> & Hin).
    rewrite Forall_forall in Hall. by apply Hall.
Qed.

Lemma mystical_get_optimal_treasure_best (treasures : heap Treasure) (cap : Z) r treasures' :
  max_heap treasures →
  Forall (λ e, (e.1 == ratio e.2)%Q) treasures →
  MysticalHollow.get_optimal_treasure treasures cap = Returns (r, treasures') →
  Forall (λ e, (e.1 == ratio e.2)%Q) treasures'
  ∧ match r with
    | Some t => t ∈ treasures.*2 ∧ weight t ≤ cap
                ∧ ∀ t', t' ∈ treasures.*2 → weight t' ≤ cap → (ratio t' <= ratio t)%Q
    | None => ∀ t', t' ∈ treasures.*2 → cap < weight t'
    end.
Proof.
  intros Hh Hk Hcall.
  destruct (mystical_get_optimal_treasure_spec treasures cap Hh)
    as (accepted & rest & rejected & _ & E & Hp & _ & Hge & Hrej & Hfit & Hnone & _).
  rewrite Hcall in E. injection E as -> ->.
  split.
  { rewrite mystical_restore_perm. rewrite Hp in Hk.
    rewrite !Forall_app in Hk. rewrite Forall_app. tauto. }
  rewrite Forall_forall in Hrej.
  destruct accepted as [[k t]|]; cbn in *.
  - split.
    { rewrite Hp, !fmap_app. apply elem_of_app. right. by left. }
    split; [by apply (Hfit (k, t))|].
    intros t' Hin Hfit'. apply list_elem_of_fmap in Hin as ([k0 t0] & -> & Hin). cbn in *.
    rewrite Forall_forall in Hk.
    assert (Ek0 : (k0 == ratio t0)%Q) by by apply (Hk (k0, t0)).
    assert (Ek : (k == ratio t)%Q).
    { apply (Hk (k, t)). rewrite Hp. apply elem_of_app. right. by left. }
    rewrite Hp in Hin. apply elem_of_app in Hin as [Hin|Hin].
    { specialize (Hrej _ Hin). cbn in Hrej. lia. }
    apply elem_of_cons in Hin as [[= -> ->]|Hin]; [apply Qle_refl|].
    rewrite <- Ek, <- Ek0.
    apply (Hge (k, t) (k0, t0)); [|done]. apply elem_of_app. right. by left.
  - intros t' Hin. apply list_elem_of_fmap in Hin as (e & -> & Hin).
    rewrite Hp, (Hnone eq_refl), !app_nil_r in Hin. by apply Hrej.
Qed.

Lemma get_optimal_treasure_best (self : Hollow) (cap : Z) r self' :
  hollow_ok self → hollow_keyed self →
  get_optimal_treasure self cap = Returns (r, self') →
  hollow_keyed self'
  ∧ match r with
    | Some t => t ∈ hollow_contents self ∧ weight t ≤ cap
                ∧ ∀ t', t' ∈ hollow_contents self → weight t' ≤ cap →
                        (ratio t' <= ratio t)%Q
    | None => ∀ t', t' ∈ hollow_contents self → cap < weight t'
    end.
Proof.
  destruct self as [tr|h]; cbn [get_optimal_treasure hollow_ok hollow_keyed hollow_contents];
    intros Hok Hk Hcall.
  - destruct (SpookyHollow.get_optimal_treasure tr cap) as [[r0 tr']|] eqn:E; [|done].
    injection Hcall as <- <-. by apply (spooky_get_optimal_treasure_best tr cap).
  - destruct (MysticalHollow.get_optimal_treasure h cap) as [[r0 h']| |] eqn:E; [|done..].
    injection Hcall as <- <-. by apply (mystical_get_optimal_treasure_best h cap).
Qed.

(** X4: on a hollow whose keys are the ratios of its treasures,
    [get_optimal_treasure] returns a treasure of the hollow that fits the
    capacity and whose ratio is the greatest among the treasures of the
    hollow that fit; it returns [None] only when no treasure of the hollow
    fits.  The keys of the hollow are still the ratios afterwards. *)
Theorem get_optimal_treasure_best_ratio (self : Hollow) (backpack_capacity : Z) :
  hollow_ok self → hollow_keyed self →
  ∃ r self',
    get_optimal_treasure self backpack_capacity = Returns (r, self')
    ∧ hollow_ok self' ∧ hollow_keyed self'
    ∧ match r with
      | Some t => t ∈ hollow_contents self ∧ weight t ≤ backpack_capacity
                  ∧ ∀ t', t' ∈ hollow_contents self → weight t' ≤ backpack_capacity →
                          (ratio t' <= ratio t)%Q
      | None => ∀ t', t' ∈ hollow_contents self → backpack_capacity < weight t'
      end.
Proof.
  intros Hok Hk.
  destruct (get_optimal_treasure_spec self backpack_capacity Hok) as (r & self' & E & Hok' & _).
  exists r, self'. split; [done|]. split; [done|].
  by apply (get_optimal_treasure_best self backpack_capacity).
Qed.

Lemma get_optimal_treasure_best_ratio_witness :
  ∃ self r self',
    SpookyHollow.restructure_hollow [mkTreasure 10 5; mkTreasure 9 3; mkTreasure 1 4] = Some self
    ∧ get_optimal_treasure self 4 = Returns (r, self')
    ∧ hollow_ok self' ∧ hollow_keyed self'
    ∧ match r with
      | Some t => t ∈ hollow_contents self ∧ weight t ≤ 4
                  ∧ ∀ t', t' ∈ hollow_contents self → weight t' ≤ 4 →
                          (ratio t' <= ratio t)%Q
      | None => ∀ t', t' ∈ hollow_contents self → 4 < weight t'
      end.
Proof.
  eexists. 
  assert (H := restructure_hollow_spec [mkTreasure 10 5; mkTreasure 9 3; mkTreasure 1 4] _
                 (or_introl eq_refl)).
  destruct H as (_ & Hok & Hk).
  destruct (get_optimal_treasure_best_ratio _ 4 Hok Hk) as (r & self' & H).
  exists r, self'. split; [reflexivity|exact H].
Defined.

Lemma get_optimal_treasure_contents (self : Hollow) (cap : Z) r self' :
  hollow_ok self → get_optimal_treasure self cap = Returns (r, self') →
  hollow_contents self' ⊆ hollow_contents self.
Proof.
  destruct self as [tr|h]; cbn [get_optimal_treasure hollow_ok]; intros Hok Hcall.
  - destruct (spooky_get_optimal_treasure_spec tr cap Hok) as (r0 & tr' & E & _ & H).
    rewrite E in Hcall. injection Hcall as <- <-. cbn.
    destruct r0 as [t|]; [|by destruct H as [-> _]].
    destruct H as (_ & _ & _ & _ & _ & _ & m1 & k' & x' & m2 & E2 & E3 & _).
    rewrite E2, E3, !fmap_app. intros x [?|?]%elem_of_app; apply elem_of_app; [by left|].
    right. by right.
  - destruct (mystical_get_optimal_treasure_spec h cap Hok)
      as (accepted & rest & rejected & _ & E & Hp & _).
    rewrite E in Hcall. injection Hcall as <- <-. cbn.
    rewrite Hp, mystical_restore_perm, !fmap_app.
    intros x [?|?]%elem_of_app; apply elem_of_app; [by left|].
    right. apply elem_of_app. by right.
Qed.

(** X17: two calls of [get_optimal_treasure] on a hollow, the second with
    no more capacity than the first, hand out treasures in descending order
    of ratio: the second treasure has no greater ratio than the first. *)
Theorem get_optimal_treasure_twice (self : Hollow) (cap cap' : Z) (t1 t2 : Treasure)
    (self1 self2 : Hollow) :
  hollow_ok self → hollow_keyed self → cap' ≤ cap →
  get_optimal_treasure self cap = Returns (Some t1, self1) →
  get_optimal_treasure self1 cap' = Returns (Some t2, self2) →
  (ratio t2 <= ratio t1)%Q.
Proof.
  intros Hok Hk Hcap H1 H2.
  destruct (get_optimal_treasure_spec self cap Hok) as (r & s1 & E & Hok1 & _).
  rewrite H1 in E. injection E as <- <-.
  destruct (get_optimal_treasure_best self cap _ _ Hok Hk H1) as (Hk1 & _ & _ & Hbest).
  destruct (get_optimal_treasure_best self1 cap' _ _ Hok1 Hk1 H2) as (_ & Hin & Hfit & _).
  apply Hbest; [|lia]. by apply (get_optimal_treasure_contents self cap _ _ Hok H1).
Qed.

Lemma get_optimal_treasure_twice_witness :
  ∃ self t1 self1 t2 self2,
    MysticalHollow.restructure_hollow [mkTreasure 10 5; mkTreasure 9 3; mkTreasure 1 4]
    = Some self
    ∧ get_optimal_treasure self 5 = Returns (Some t1, self1)
    ∧ get_optimal_treasure self1 4 = Returns (Some t2, self2)
    ∧ (ratio t2 <= ratio t1)%Q.
Proof.
  eexists _, _, _, _, _. split; [reflexivity|]. split; [reflexivity|]. split; [reflexivity|].
  assert (H := restructure_hollow_spec [mkTreasure 10 5; mkTreasure 9 3; mkTreasure 1 4] _
                 (or_intror eq_refl)).
  destruct H as (_ & Hok & Hk).
  eapply (get_optimal_treasure_twice _ 5 4); [exact Hok|exact Hk|lia|reflexivity|reflexivity].
Defined.

(** ** BetterBST: the balance of the tree *)

Section balanced.
Context {I : Type}.
Implicit Types (elements : list (entry I)) (t : tree I) (c : ctx I).

Lemma insert_aux_plug c key item t :
  fits c key → insert_aux key item (plug c t) = plug c (insert_aux key item t).
Proof.
  revert t. induction c as [|c IH k i r|c IH l k i]; intros t; cbn; [done|..].
  - intros [Hlt Hc]. rewrite IH by done. cbn.
    by rewrite (proj2 (Qltb_lt key k) Hlt).
  - intros [Hle Hc]. rewrite IH by done. cbn.
    by rewrite (proj2 (Qltb_ge key k) Hle).
Qed.

Lemma distinct_keys_perm (l1 l2 : list (entry I)) :
  l1 ≡ₚ l2 → distinct_keys l1 → distinct_keys l2.
Proof.
  induction 1 as [|x l l' Hp IH|x y l|l l' l'' _ IH1 _ IH2]; cbn.
  - done.
  - intros [H1 H2]. split; [by rewrite <- Hp|by apply IH].
  - intros [[Hyx Hy]%Forall_cons [Hx Hl]]. split_and!; [|done..].
    constructor; [|done]. intros E. apply Hyx. by symmetry.
  - intros H. by apply IH2, IH1.
Qed.

Lemma sorted_distinct_keys (l : list (entry I)) :
  StronglySorted key_le l → distinct_keys l →
  StronglySorted (λ a b, (a.1 < b.1)%Q) l.
Proof.
  induction 1 as [|a l Hs IH Hall]; cbn; [constructor|].
  intros [Hne Hd]. constructor; [by apply IH|].
  rewrite Forall_forall in Hall, Hne. apply Forall_forall. intros b Hb.
  specialize (Hall b Hb). specialize (Hne b Hb). unfold key_le in Hall.
  apply Qle_lteq in Hall as [?|?]; done.
Qed.

Lemma slice_lookup elements start end_ (j : nat) :
  0 ≤ start →
  (j < Z.to_nat (end_ + 1 - start))%nat →
  slice elements start end_ !! j = elements !! (Z.to_nat start + j)%nat.
Proof.
  intros Hs Hj. unfold slice. rewrite lookup_take_lt by done. by rewrite lookup_drop.
Qed.

Lemma slice_elem elements start end_ e :
  0 ≤ start → e ∈ slice elements start end_ →
  ∃ j, start ≤ j ≤ end_ ∧ elements !! Z.to_nat j = Some e.
Proof.
  intros Hs (j & Hj)%list_elem_of_lookup_1.
  assert (j < Z.to_nat (end_ + 1 - start))%nat as Hlt.
  { apply lookup_lt_Some in Hj. unfold slice in Hj. rewrite length_take in Hj. lia. }
  rewrite slice_lookup in Hj by done.
  exists (start + Z.of_nat j). split; [lia|].
  by replace (Z.to_nat (start + Z.of_nat j)) with (Z.to_nat start + j)%nat by lia.
Qed.

Lemma sorted_lookup_lt (R : relation (entry I)) elements (i j : nat) a b :
  StronglySorted R elements → (i < j)%nat →
  elements !! i = Some a → elements !! j = Some b → R a b.
Proof.
  intros Hs. revert i j. induction Hs as [|x l Hs IH Hall]; intros i j Hij Ha Hb; [done|].
  destruct j as [|j]; [lia|]. cbn in Hb.
  destruct i as [|i]; cbn in Ha.
  - injection Ha as ->. rewrite Forall_forall in Hall. apply Hall.
    by eapply list_elem_of_lookup_2.
  - apply (IH i j); [lia|done..].
Qed.

(** The recursion on a range of a list with ascending, pairwise different
    keys, started where the keys of the range belong: the range ends up as
    a subtree there whose height is logarithmic in its length and whose
    in-order traversal is the range. *)
Lemma build_tree_aux_balanced (n : nat) elements start end_ c :
  Z.to_nat (end_ + 1 - start) = n →
  0 ≤ start → end_ < Z.of_nat (length elements) →
  StronglySorted (λ a b, (a.1 < b.1)%Q) elements →
  (∀ e, e ∈ slice elements start end_ → fits c e.1) →
  ∃ t, build_tree_aux elements start end_ (plug c Leaf) = Some (plug c t)
       ∧ inorder t = slice elements start end_
       ∧ ((n = 0%nat ∧ t = Leaf) ∨ (1 ≤ n ∧ 2 ^ height t ≤ 2 * n)%nat).
Proof.
  revert start end_ c. induction (lt_wf n) as [n _ IH].
  intros start end_ c Hn Hs He Hsorted Hfits. rewrite build_tree_aux_step.
  destruct (decide (start > end_)) as [Hgt|Hle].
  { exists Leaf. rewrite slice_empty by done. split_and!; [done..|]. left. split; [lia|done]. }
  pose proof (mid_bounds start end_ ltac:(lia)) as Hmid.
  assert (Hhalf : end_ - (start + end_) `div` 2 - ((start + end_) `div` 2 - start) = 0
                  ∨ end_ - (start + end_) `div` 2 - ((start + end_) `div` 2 - start) = 1).
  { pose proof (Z.div_mod (start + end_) 2 ltac:(lia)).
    pose proof (Z.mod_pos_bound (start + end_) 2 ltac:(lia)). lia. }
  set (mid := (start + end_) `div` 2) in *.
  rewrite py_getitem_nat by lia.
  destruct (lookup_lt_is_Some_2 elements (Z.to_nat mid) ltac:(lia)) as [[key value] Hx].
  rewrite Hx. cbn.
  assert (Hsplit := slice_split elements start mid end_ (key, value) ltac:(lia) ltac:(lia) Hx).
  rewrite insert_aux_plug.
  2:{ apply (Hfits (key, value)). rewrite Hsplit. apply elem_of_app. right. by left. }
  cbn [insert_aux].
  destruct (IH (Z.to_nat (mid - 1 + 1 - start)) ltac:(lia) start (mid - 1)
              (CLeft c key value Leaf) eq_refl Hs ltac:(lia) Hsorted)
    as (tl & Hl & Hinl & Hhl).
  { intros e He'. cbn. split.
    - apply slice_elem in He' as (j & Hj & Hje); [|done].
      apply (sorted_lookup_lt _ elements (Z.to_nat j) (Z.to_nat mid) e (key, value) Hsorted);
        [lia|done..].
    - apply Hfits. rewrite Hsplit. apply elem_of_app. by left. }
  cbn [plug] in Hl. rewrite Hl. cbn.
  destruct (IH (Z.to_nat (end_ + 1 - (mid + 1))) ltac:(lia) (mid + 1) end_
              (CRight c tl key value) eq_refl ltac:(lia) He Hsorted)
    as (tr & Hr & Hinr & Hhr).
  { intros e He'. cbn. split.
    - apply slice_elem in He' as (j & Hj & Hje); [|lia].
      apply Qlt_le_weak.
      apply (sorted_lookup_lt _ elements (Z.to_nat mid) (Z.to_nat j) (key, value) e Hsorted);
        [lia|done..].
    - apply Hfits. rewrite Hsplit. apply elem_of_app. right. by right. }
  cbn [plug] in Hr. rewrite Hr.
  exists (Node tl key value tr). split; [done|]. split.
  { cbn. by rewrite Hinl, Hinr, Hsplit. }
  right. split; [lia|]. cbn [height]. rewrite Nat.pow_succ_r'.
  assert (2 ^ height tl ≤ 2 ^ (height tl `max` height tr))%nat
    by (apply Nat.pow_le_mono_r; lia).
  assert (Hmax : (height tl `max` height tr = height tl ∨ height tl `max` height tr = height tr)%nat)
    by lia.
  destruct Hhl as [[Hnl ->]|[Hnl Hhl]], Hhr as [[Hnr ->]|[Hnr Hhr]]; cbn [height] in *.
  - cbn. lia.
  - rewrite Nat.max_0_l. lia.
  - lia.
  - destruct Hmax as [-> | ->]; lia.
Qed.

Lemma mergesort_strict elements :
  distinct_keys elements → StronglySorted (λ a b, (a.1 < b.1)%Q) (mergesort elements).
Proof.
  intros Hd. apply sorted_distinct_keys; [apply mergesort_sorted|].
  apply (distinct_keys_perm elements); [|done]. symmetry. apply mergesort_perm.
Qed.

Lemma BetterBST_distinct elements :
  distinct_keys elements →
  ∃ t, BetterBST elements = Some t
       ∧ inorder t = mergesort elements
       ∧ (height t ≤ S (Nat.log2 (length elements)))%nat.
Proof.
  intros Hd. unfold BetterBST, __sort_elements, __build_balanced_tree.
  destruct (build_tree_aux_balanced _ (mergesort elements) 0
              (Z.of_nat (length (mergesort elements)) - 1) CTop eq_refl
              ltac:(lia) ltac:(lia) (mergesort_strict elements Hd))
    as (t & Ht & Hin & Hh); [done|].
  exists t. cbn [plug] in Ht. split; [done|]. rewrite slice_all in Hin. split; [done|].
  assert (Hlen : length (mergesort elements) = length elements)
    by by rewrite mergesort_perm.
  rewrite Hlen in Hh.
  destruct Hh as [[_ ->]|[Hn Hh]]; [cbn; lia|].
  destruct (height t) as [|h]; [lia|]. apply le_n_S.
  apply Nat.log2_le_pow2; [lia|]. rewrite Nat.pow_succ_r' in Hh. lia.
Qed.

End balanced.

(** X5: [BetterBST(elements)] never fails, whatever the order of the
    elements: the tree is a search tree that holds exactly the elements
    given, and iterating it yields them in non-decreasing key order. *)
Theorem BetterBST_sorted {I} (elements : list (entry I)) :
  ∃ t, BetterBST elements = Some t
       ∧ bst t
       ∧ inorder t ≡ₚ elements
       ∧ StronglySorted key_le (inorder t)
       ∧ tree_len t = length elements.
Proof.
  destruct (BetterBST_spec elements) as (t & Ht & Hp & Hb).
  exists t. split_and!; [done..|by apply bst_inorder_sorted|].
  by rewrite tree_len_inorder, Hp.
Qed.

(** X6: when no two elements have the same key, the tree that
    [BetterBST(elements)] builds is balanced: its height is at most
    [log2 n + 1] for [n] elements, and iterating it yields the sorted list
    itself. *)
Theorem BetterBST_balanced {I} (elements : list (entry I)) :
  distinct_keys elements →
  ∃ t, BetterBST elements = Some t
       ∧ inorder t = mergesort elements
       ∧ (height t ≤ S (Nat.log2 (length elements)))%nat.
Proof. apply BetterBST_distinct. Qed.

Lemma BetterBST_balanced_witness :
  let elements := [(3%Q, 30); (1%Q, 10); (2%Q, 20); (5%Q, 50); (4%Q, 40)] in
  ∃ t, BetterBST elements = Some t
       ∧ inorder t = mergesort elements
       ∧ (height t ≤ S (Nat.log2 (length elements)))%nat.
Proof.
  intros elements. apply (BetterBST_balanced elements).
  cbn. split_and!; try done; repeat constructor; by vm_compute.
Defined.

(** X7: when no two elements have the same key, the tree that [BetterBST]
    builds does not depend on the order in which the elements are given. *)
Theorem BetterBST_input_order {I} (elements elements' : list (entry I)) :
  distinct_keys elements → elements ≡ₚ elements' →
  BetterBST elements = BetterBST elements'.
Proof.
  intros Hd Hp. unfold BetterBST, __sort_elements. f_equal.
  apply (StronglySorted_unique_strong (λ a b : entry I, (a.1 < b.1)%Q)).
  - intros a b _ _ Hab Hba. exfalso. apply (Qlt_irrefl a.1). by apply (Qlt_trans _ b.1).
  - by apply mergesort_strict.
  - apply mergesort_strict. by apply (distinct_keys_perm elements).
  - by rewrite !mergesort_perm.
Qed.

Lemma BetterBST_input_order_witness :
  BetterBST [(2%Q, 20); (1%Q, 10); (3%Q, 30)] = BetterBST [(1%Q, 10); (2%Q, 20); (3%Q, 30)].
Proof.
  apply (BetterBST_input_order [(2%Q, 20); (1%Q, 10); (3%Q, 30)]).
  - cbn. split_and!; try done; repeat constructor; by vm_compute.
  - apply Permutation_swap.
Defined.

(** ** The grid of a new maze *)

Lemma shaped_lookup rows cols g (i : nat) r :
  shaped rows cols g → g !! i = Some r →
  (i < Z.to_nat rows)%nat ∧ length r = Z.to_nat cols.
Proof.
  intros Hs Hr. assert (H : (length <$> g) !! i = Some (length r))
    by by rewrite list_lookup_fmap, Hr.
  rewrite Hs in H. by apply lookup_replicate in H as [-> ?].
Qed.

Lemma shaped_length rows cols g : shaped rows cols g → length g = Z.to_nat rows.
Proof. intros Hs. by rewrite <- (length_fmap length), Hs, length_replicate. Qed.

Lemma py_index_is_Some (n i : Z) : is_Some (py_index n i) ↔ - n ≤ i < n.
Proof.
  unfold py_index. repeat case_bool_decide; split; intros Hx; try lia; try by eexists.
  all: by destruct Hx.
Qed.

Lemma cell_index_is_Some rows cols g p :
  shaped rows cols g → is_Some (cell_index g p) ↔ py_in_range rows cols p.
Proof.
  intros Hs. unfold cell_index, py_in_range. rewrite (shaped_length _ _ _ Hs).
  split.
  - intros [[i j] H].
    destruct (py_index _ (row p)) as [i'|] eqn:Hi; [|done]. cbn in H.
    destruct (g !! i') as [r|] eqn:Hr; [|done]. cbn in H.
    destruct (py_index _ (col p)) as [j'|] eqn:Hj; [|done].
    destruct (shaped_lookup _ _ _ _ _ Hs Hr) as [_ Hlen]. rewrite Hlen in Hj.
    assert (H1 : is_Some (py_index (Z.of_nat (Z.to_nat rows)) (row p))) by by eexists.
    assert (H2 : is_Some (py_index (Z.of_nat (Z.to_nat cols)) (col p))) by by eexists.
    apply py_index_is_Some in H1, H2. lia.
  - intros [H1 H2].
    assert (H1' : is_Some (py_index (Z.of_nat (Z.to_nat rows)) (row p)))
      by (apply py_index_is_Some; lia).
    destruct H1' as [i Hi]. rewrite Hi. cbn.
    assert (Hlt := py_index_lt _ _ _ Hi).
    destruct (lookup_lt_is_Some_2 g i) as [r Hr];
      [rewrite (shaped_length _ _ _ Hs); lia|].
    rewrite Hr. cbn. destruct (shaped_lookup _ _ _ _ _ Hs Hr) as [_ ->].
    assert (H2' : is_Some (py_index (Z.of_nat (Z.to_nat cols)) (col p)))
      by (apply py_index_is_Some; lia).
    destruct H2' as [j ->]. by eexists.
Qed.

Lemma grid_get_is_Some g p : is_Some (grid_get g p) ↔ is_Some (cell_index g p).
Proof.
  split.
  - intros [cell (i & j & r & H & _)%grid_get_Some]. by eexists.
  - intros [[i j] H]. destruct (cell_index_Some _ _ _ _ H) as (r & cell & Hr & Hc).
    exists cell. apply grid_get_Some. by exists i, j, r.
Qed.

Lemma grid_set_tile_is_Some rows cols g p t :
  shaped rows cols g → is_Some (grid_set_tile g p t) ↔ py_in_range rows cols p.
Proof.
  intros Hs. rewrite <- (cell_index_is_Some _ _ g) by done.
  rewrite <- grid_get_is_Some. unfold grid_set_tile. split.
  - intros [g' H]. destruct (grid_get g p); [by eexists|done].
  - intros [cell Hc]. rewrite Hc. cbn. apply grid_set_is_Some. by eexists.
Qed.

Lemma fold_tiles_is_Some {B} (pos : B → Position) (tl : B → tile_value) rows cols bs :
  ∀ g, shaped rows cols g →
  is_Some (foldl (λ og b, g ← og; grid_set_tile g (pos b) (tl b)) (Some g) bs)
  ↔ Forall (λ b, py_in_range rows cols (pos b)) bs.
Proof.
  induction bs as [|b bs IH]; intros g Hs; cbn.
  { split; [constructor|by eexists]. }
  rewrite Forall_cons, <- (grid_set_tile_is_Some rows cols g (pos b) (tl b)) by done.
  destruct (grid_set_tile g (pos b) (tl b)) as [g1|] eqn:H1.
  - rewrite IH; [split; [by split|by intros [_ ?]]|].
    unfold shaped. by rewrite (grid_set_tile_shape _ _ _ _ H1).
  - rewrite foldl_option_None. split; [by intros []|by intros [[] _]].
Qed.

Lemma grid0_shaped (rows cols : Z) :
  shaped rows cols
    ((λ i, (λ j, mkMazeCell (TileStr " ") (mkPosition i j) false) <$> py_range cols)
       <$> py_range rows).
Proof.
  unfold shaped. rewrite <- list_fmap_compose.
  rewrite <- (py_range_length rows). apply list_eq. intros k.
  rewrite list_lookup_fmap. destruct (py_range rows !! k) as [i|] eqn:Hi; cbn.
  - rewrite lookup_replicate_2 by (by eapply lookup_lt_Some).
    by rewrite length_fmap, py_range_length.
  - symmetry. apply lookup_replicate_None. by apply lookup_ge_None.
Qed.

Lemma fold_tiles_shaped {B} (pos : B → Position) (tl : B → tile_value) rows cols bs g g' :
  foldl (λ og b, g ← og; grid_set_tile g (pos b) (tl b)) (Some g) bs = Some g' →
  shaped rows cols g → shaped rows cols g'.
Proof. intros H Hs. unfold shaped. by rewrite (fold_tiles_shape _ _ _ _ _ H). Qed.

Section create_props.
Context (Tiles : TilesEnum).

Lemma create_grid_is_Some start rows cols walls hollows ends :
  is_Some (_create_grid Tiles start rows cols walls hollows ends)
  ↔ Forall (py_in_range rows cols) (start :: walls ++ hollows.*2 ++ ends).
Proof.
  unfold _create_grid.
  set (grid0 := (λ i, (λ j, mkMazeCell (TileStr " ") (mkPosition i j) false) <$> py_range cols)
                  <$> py_range rows).
  assert (H0 := grid0_shaped rows cols). fold grid0 in H0.
  rewrite Forall_cons, !Forall_app, Forall_fmap.
  rewrite <- (cell_index_is_Some rows cols grid0 start), <- grid_get_is_Some by done.
  destruct (grid_set grid0 start _) as [grid1|] eqn:H1; cbn.
  2:{ split; [by intros []|]. intros [Hs _]. apply (grid_set_is_Some _ _
        (mkMazeCell (TileStr (START_POSITION Tiles)) start false)) in Hs.
      rewrite H1 in Hs. by destruct Hs. }
  assert (Hs1 : shaped rows cols grid1).
  { unfold shaped. by rewrite (grid_set_shape _ _ _ _ H1). }
  assert (Hstart : is_Some (grid_get grid0 start)).
  { apply grid_get_is_Some. apply grid_set_Some in H1 as (i & j & r & Hi & _). by eexists. }
  rewrite <- (fold_tiles_is_Some id (λ _, TileStr (WALL Tiles)) rows cols walls grid1 Hs1).
  change (foldl (λ og b, g ← og; grid_set_tile g (id b) (TileStr (WALL Tiles)))
            (Some grid1) walls)
    with (foldl (λ og wall, g ← og; grid_set_tile g wall (TileStr (WALL Tiles)))
            (Some grid1) walls).
  destruct (foldl _ (Some grid1) walls) as [grid2|] eqn:H2; cbn.
  2:{ split; [by intros []|]. by intros (_ & [] & _). }
  assert (Hs2 : shaped rows cols grid2).
  { by apply (fold_tiles_shaped id (λ _, TileStr (WALL Tiles)) rows cols walls grid1). }
  rewrite <- (fold_tiles_is_Some snd (λ hp, TileHollow hp.1) rows cols hollows grid2 Hs2).
  change (foldl (λ og b, g ← og; grid_set_tile g b.2 (TileHollow b.1)) (Some grid2) hollows)
    with (foldl (λ og hp, g ← og; grid_set_tile g hp.2 (TileHollow hp.1)) (Some grid2) hollows).
  destruct (foldl _ (Some grid2) hollows) as [grid3|] eqn:H3; cbn.
  2:{ split; [by intros []|]. by intros (_ & _ & [] & _). }
  assert (Hs3 : shaped rows cols grid3).
  { by apply (fold_tiles_shaped snd (λ hp, TileHollow hp.1) rows cols hollows grid2). }
  rewrite <- (fold_tiles_is_Some id (λ _, TileStr (EXIT Tiles)) rows cols ends grid3 Hs3).
  change (foldl (λ og b, g ← og; grid_set_tile g (id b) (TileStr (EXIT Tiles)))
            (Some grid3) ends)
    with (foldl (λ og e, g ← og; grid_set_tile g e (TileStr (EXIT Tiles)))
            (Some grid3) ends).
  split; [|by intros (_ & _ & _ & ?)].
  intros H. split_and!; [done|by eexists|by eexists|done].
Qed.

Lemma py_range_lookup (n : Z) (k : nat) :
  (k < Z.to_nat n)%nat → py_range n !! k = Some (Z.of_nat k).
Proof.
  intros Hk. unfold py_range. rewrite list_lookup_fmap, lookup_seq_lt by done. done.
Qed.

Lemma grid0_get (rows cols : Z) p :
  0 ≤ row p < rows → 0 ≤ col p < cols →
  grid_get ((λ i, (λ j, mkMazeCell (TileStr " ") (mkPosition i j) false) <$> py_range cols)
              <$> py_range rows) p
  = Some (mkMazeCell (TileStr " ") p false).
Proof.
  intros Hr Hc. unfold grid_get.
  rewrite py_getitem_nat by (rewrite length_fmap, py_range_length; lia).
  rewrite list_lookup_fmap, py_range_lookup by lia. cbn.
  rewrite py_getitem_nat by (rewrite length_fmap, py_range_length; lia).
  rewrite list_lookup_fmap, py_range_lookup by lia. cbn.
  destruct p as [r c]. cbn in *. do 2 f_equal. f_equal; lia.
Qed.

Lemma last_filter_cons {B} (P : B → Prop) `{∀ b, Decision (P b)} (b : B) (bs : list B) :
  last (filter P (b :: bs))
  = match last (filter P bs) with
    | Some x => Some x
    | None => if decide (P b) then Some b else None
    end.
Proof.
  rewrite filter_cons. destruct (decide (P b)); [|by destruct (last _)].
  rewrite last_cons. by destruct (last _).
Qed.

(** After a run of tile writes at positions without a negative coordinate,
    the cell at such a position has the tile of the last write at the
    position, or its old tile when there was none; the rest of the cell is
    as it was. *)
Lemma fold_tiles_get {B} (pos : B → Position) (tl : B → tile_value) p bs :
  nonneg p →
  ∀ g g' cell,
  foldl (λ og b, g ← og; grid_set_tile g (pos b) (tl b)) (Some g) bs = Some g' →
  Forall (λ b, nonneg (pos b)) bs →
  grid_get g p = Some cell →
  grid_get g' p
  = Some (mkMazeCell (match last (filter (λ b, pos b = p) bs) with
                      | Some b => tl b
                      | None => tile cell
                      end) (position cell) (visited cell)).
Proof.
  intros Hp. induction bs as [|b bs IH]; intros g g' cell Hfold Hnn Hc.
  { cbn in *. injection Hfold as <-. by destruct cell. }
  cbn in Hfold. apply Forall_cons in Hnn as [Hb Hnn].
  destruct (grid_set_tile g (pos b) (tl b)) as [g1|] eqn:Hset;
    [|by rewrite foldl_option_None in Hfold].
  rewrite last_filter_cons.
  unfold grid_set_tile in Hset.
  destruct (grid_get g (pos b)) as [cell0|] eqn:Hc0; [|done]. cbn in Hset.
  destruct (grid_get_set _ _ _ _ p Hset) as [_ Hg1].
  destruct (decide (pos b = p)) as [E|Hne].
  - rewrite E in *. rewrite decide_True in Hg1 by done.
    rewrite (IH g1 g' _ Hfold Hnn Hg1). cbn.
    assert (cell0 = cell) as -> by congruence.
    by destruct (last _).
  - rewrite decide_False in Hg1.
    2:{ intros Heq. apply Hne. symmetry.
        apply (cell_index_nonneg_inj g); [done..| |done].
        apply grid_get_is_Some. by eexists. }
    rewrite Hc in Hg1. rewrite (IH g1 g' _ Hfold Hnn Hg1). by destruct (last _).
Qed.

Lemma last_filter_None {B} (P : B → Prop) `{∀ b, Decision (P b)} (bs : list B) :
  last (filter P bs) = None ↔ Forall (λ b, ¬ P b) bs.
Proof.
  rewrite last_None. induction bs as [|b bs IH]; [by split; [constructor|]|].
  rewrite filter_cons, Forall_cons. destruct (decide (P b)); [by split; [|intros []]|].
  rewrite IH. by split; [|intros []].
Qed.

Lemma last_filter_Some {B} (P : B → Prop) `{∀ b, Decision (P b)} (bs : list B) x :
  last (filter P bs) = Some x → x ∈ bs ∧ P x.
Proof.
  intros Hl. assert (Hin : x ∈ filter P bs).
  { apply last_Some in Hl as [l' ->]. apply elem_of_app. right. by left. }
  by apply list_elem_of_filter in Hin as [? ?].
Qed.

Lemma create_grid_get start rows cols walls hollows ends g p :
  _create_grid Tiles start rows cols walls hollows ends = Some g →
  nonneg start → Forall nonneg walls → Forall (λ hp : loc * Position, nonneg hp.2) hollows →
  Forall nonneg ends →
  0 ≤ row p < rows → 0 ≤ col p < cols →
  grid_get g p = Some (mkMazeCell (tile_of Tiles start walls hollows ends p) p false).
Proof.
  unfold _create_grid.
  set (grid0 := (λ i, (λ j, mkMazeCell (TileStr " ") (mkPosition i j) false) <$> py_range cols)
                  <$> py_range rows).
  destruct (grid_set grid0 start _) as [grid1|] eqn:H1; [|done]. cbn.
  destruct (foldl _ (Some grid1) walls) as [grid2|] eqn:H2; [|done]. cbn.
  destruct (foldl _ (Some grid2) hollows) as [grid3|] eqn:H3; [|done]. cbn.
  intros H4 Hstart Hwalls Hhollows Hends Hr Hc.
  assert (Hp : nonneg p) by (split; lia).
  assert (G0 := grid0_get rows cols p Hr Hc). fold grid0 in G0.
  destruct (grid_get_set _ _ _ _ p H1) as [_ G1].
  assert (G1' : grid_get grid1 p
                = Some (mkMazeCell (if decide (p = start)
                                    then TileStr (START_POSITION Tiles) else TileStr " ")
                          p false)).
  { rewrite G1. destruct (decide (p = start)) as [->|Hne]; [by rewrite decide_True|].
    rewrite decide_False; [done|]. intros Heq. apply Hne.
    apply (cell_index_nonneg_inj grid0); [done..| |done].
    apply grid_get_is_Some. by eexists. }
  assert (G2 := fold_tiles_get id (λ _, TileStr (WALL Tiles)) p walls Hp grid1 grid2 _ H2
                  Hwalls G1').
  cbn [tile position visited] in G2.
  assert (G3 := fold_tiles_get snd (λ hp, TileHollow hp.1) p hollows Hp grid2 grid3 _ H3
                  Hhollows G2).
  cbn [tile position visited] in G3.
  assert (G4 := fold_tiles_get id (λ _, TileStr (EXIT Tiles)) p ends Hp grid3 g _ H4
                  Hends G3).
  cbn [tile position visited] in G4.
  rewrite G4. f_equal. f_equal. unfold tile_of.
  destruct (decide (p ∈ ends)) as [Hin|Hnin].
  - destruct (last (filter (λ b, id b = p) ends)) as [e|] eqn:E; [done|].
    apply last_filter_None in E. rewrite Forall_forall in E. by destruct (E p Hin).
  - destruct (last (filter (λ b, id b = p) ends)) as [e|] eqn:E.
    { apply last_filter_Some in E as [He Heq]. cbn in Heq. by subst. }
    destruct (last (filter (λ hp : loc * Position, hp.2 = p) hollows)) as [hp|]; [done|].
    destruct (decide (p ∈ walls)) as [Hw|Hnw].
    + destruct (last (filter (λ b, id b = p) walls)) as [w|] eqn:Ew; [done|].
      apply last_filter_None in Ew. rewrite Forall_forall in Ew. by destruct (Ew p Hw).
    + destruct (last (filter (λ b, id b = p) walls)) as [w|] eqn:Ew; [|done].
      apply last_filter_Some in Ew as [Hw Heq]. cbn in Heq. by subst.
Qed.

End create_props.

(** X8: [_create_grid] raises [IndexError] exactly when the start position,
    a wall, a hollow or an end position lies outside the index range of the
    grid, where a negative coordinate down to [-rows] (or [-cols]) still
    counts as inside, from the end.  When it returns, the grid has [rows]
    lists of [cols] cells. *)
Theorem create_grid_index_error (Tiles : TilesEnum) (start : Position) (rows cols : Z)
    (walls : list Position) (hollows : list (loc * Position)) (ends : list Position) :
  (is_Some (_create_grid Tiles start rows cols walls hollows ends)
   ↔ Forall (py_in_range rows cols) (start :: walls ++ hollows.*2 ++ ends))
  ∧ (∀ g, _create_grid Tiles start rows cols walls hollows ends = Some g →
          length g = Z.to_nat rows ∧ Forall (λ r, length r = Z.to_nat cols) g).
Proof.
  split; [apply create_grid_is_Some|].
  intros g Hg.
  assert (Hm : Maze_init Tiles start ends walls hollows rows cols
               = Some (mkMaze start ends rows cols g)).
  { unfold Maze_init. by rewrite Hg. }
  exact (Maze_init_shape _ _ _ _ _ _ _ _ Hm).
Qed.

(** X9: in the maze that [Maze(...)] builds from positions without a
    negative coordinate, the cell at row [i], column [j] knows its position
    [(i, j)], is not visited, and shows the tile of the last write at it:
    the exit where an end position is, else the hollow given last for the
    position, else the wall, else the start, else a blank. *)
Theorem Maze_init_cells (Tiles : TilesEnum) (start : Position) (ends walls : list Position)
    (hollows : list (loc * Position)) (n_rows n_cols : Z) (m : Maze) (p : Position) :
  Maze_init Tiles start ends walls hollows n_rows n_cols = Some m →
  nonneg start → Forall nonneg walls → Forall (λ hp : loc * Position, nonneg hp.2) hollows →
  Forall nonneg ends →
  0 ≤ row p < n_rows → 0 ≤ col p < n_cols →
  start_position m = start ∧ end_positions m = ends
  ∧ rows m = n_rows ∧ cols m = n_cols
  ∧ grid_get (grid m) p
    = Some (mkMazeCell (tile_of Tiles start walls hollows ends p) p false).
Proof.
  unfold Maze_init.
  destruct (_create_grid _ _ _ _ _ _ _) as [g|] eqn:Hg; [|done]. cbn.
  intros [= <-] Hstart Hwalls Hhollows Hends Hr Hc. cbn.
  split_and!; [done..|]. by apply (create_grid_get Tiles start n_rows n_cols).
Qed.

Lemma Maze_init_cells_witness :
  let Tiles := mkTiles "S" "M" "#" "E" "P" ["S"; "M"; "#"; "E"; "P"; " "] in
  ∃ m, Maze_init Tiles (mkPosition 0 0) [mkPosition 1 1] [mkPosition 0 1; mkPosition 1 1]
         [(0%nat, mkPosition 1 0); (1%nat, mkPosition 1 1)] 2 2 = Some m
       ∧ grid_get (grid m) (mkPosition 1 1)
         = Some (mkMazeCell (TileStr "E") (mkPosition 1 1) false).
Proof.
  intros Tiles. eexists. split; [reflexivity|].
  refine (proj2 (proj2 (proj2 (proj2
    (Maze_init_cells Tiles (mkPosition 0 0) [mkPosition 1 1] [mkPosition 0 1; mkPosition 1 1]
       [(0%nat, mkPosition 1 0); (1%nat, mkPosition 1 1)] 2 2 _ (mkPosition 1 1)
       eq_refl _ _ _ _ _ _))))); try done; repeat constructor; by cbn.
Defined.

(** ** Validating and loading a file *)

Lemma occurrences_snoc t l x :
  occurrences t (l ++ [x]) = (occurrences t l + if decide (x = t) then 1 else 0)%nat.
Proof.
  unfold occurrences. rewrite filter_app, length_app. f_equal.
  rewrite filter_cons. by destruct (decide (x = t)).
Qed.

Lemma occurrences_app t l1 l2 :
  occurrences t (l1 ++ l2) = (occurrences t l1 + occurrences t l2)%nat.
Proof. unfold occurrences. by rewrite filter_app, length_app. Qed.

Lemma occurrences_pos t l : (0 < occurrences t l)%nat ↔ t ∈ l.
Proof.
  unfold occurrences. split.
  - intros H. destruct (filter (λ x, x = t) l) as [|x l'] eqn:E; [cbn in H; lia|].
    assert (Hx : x ∈ filter (λ x, x = t) l) by (rewrite E; by left).
    by apply list_elem_of_filter in Hx as [-> ?].
  - intros Hin. assert (Hx : t ∈ filter (λ x, x = t) l) by by apply list_elem_of_filter.
    destruct (filter _ l); [by apply elem_of_nil in Hx|cbn; lia].
Qed.

Lemma counts_empty : counts ∅ [].
Proof. intros t. by rewrite lookup_empty. Qed.

Lemma counts_step tc l tile :
  counts tc l →
  counts (match tc !! tile with
          | None => <[tile := 1%nat]> tc
          | Some n => <[tile := S n]> tc
          end) (l ++ [tile]).
Proof.
  intros Hc t. rewrite occurrences_snoc. pose proof (Hc tile) as Htile.
  destruct (decide (tile = t)) as [->|Hne].
  - rewrite Hc. destruct (decide (occurrences t l = 0%nat)) as [E|E].
    + rewrite lookup_insert_eq, E. by rewrite decide_False by lia.
    + rewrite lookup_insert_eq. rewrite decide_False by lia. f_equal. lia.
  - replace (occurrences t l + 0)%nat with (occurrences t l) by lia.
    destruct (tc !! tile); rewrite lookup_insert_ne by done; apply Hc.
Qed.

Lemma counts_tiles tiles : ∀ tc l,
  counts tc l →
  counts (foldl (λ (tc : gmap string nat) tile,
                   match tc !! tile with
                   | None => <[tile := 1%nat]> tc
                   | Some n => <[tile := S n]> tc
                   end) tc tiles) (l ++ tiles).
Proof.
  induction tiles as [|tile tiles IH]; intros tc l Hc; cbn.
  { by rewrite app_nil_r. }
  replace (l ++ tile :: tiles) with ((l ++ [tile]) ++ tiles) by by rewrite <- app_assoc.
  by apply IH, counts_step.
Qed.

Lemma count_line_None cols line : count_line cols None line = None.
Proof. done. Qed.

Lemma count_lines cols lines : ∀ tc l,
  counts tc l →
  match foldl (count_line cols) (Some tc) lines with
  | Some tc' => Forall (λ line, length (py_strip line) = cols) lines
                ∧ counts tc' (l ++ tiles_of lines)
  | None => ¬ Forall (λ line, length (py_strip line) = cols) lines
  end.
Proof.
  induction lines as [|line lines IH]; intros tc l Hc; cbn.
  { split; [constructor|]. unfold tiles_of. cbn. by rewrite app_nil_r. }
  case_bool_decide as Hlen.
  - assert (foldl (count_line cols) None lines = None) as ->.
    { clear. induction lines; [done|]. by cbn. }
    by intros [? _]%Forall_cons.
  - specialize (IH _ (l ++ py_strip line) (counts_tiles (py_strip line) tc l Hc)).
    destruct (foldl _ _ lines) as [tc'|].
    + destruct IH as [Hall Hc']. split; [constructor; [|done]|].
      * by destruct (decide (length (py_strip line) = cols)).
      * unfold tiles_of in *. cbn. by rewrite app_assoc.
    + intros [_ ?]%Forall_cons. by apply IH.
Qed.

Lemma counts_lookup tc l t : counts tc l → (tc !! t = None ↔ t ∉ l).
Proof.
  intros Hc. rewrite Hc, <- occurrences_pos.
  destruct (decide _); split; intros; try done; lia.
Qed.

Lemma counts_default tc l t : counts tc l → default 0%nat (tc !! t) = occurrences t l.
Proof. intros Hc. rewrite Hc. by destruct (decide _). Qed.

Lemma counts_keys tc l (P : string → Prop) :
  counts tc l → Forall P (map_to_list tc).*1 ↔ Forall P l.
Proof.
  intros Hc. rewrite !Forall_forall. split.
  - intros H t Ht. apply H. 
    destruct (tc !! t) as [n|] eqn:E.
    + apply list_elem_of_fmap. exists (t, n). split; [done|]. by apply elem_of_map_to_list.
    + by apply (counts_lookup _ _ _ Hc) in E.
  - intros H t Ht. apply list_elem_of_fmap in Ht as ([t' n] & -> & Hin).
    apply elem_of_map_to_list in Hin.
    apply H. cbn. destruct (decide (t' ∈ l)) as [|Hnin]; [done|].
    apply (counts_lookup _ _ _ Hc) in Hnin. congruence.
Qed.

Section validate.
Context (Tiles : TilesEnum).

Lemma validate_maze_file_iff (lines : list string) :
  validate_maze_file Tiles lines = Some ()
  ↔ ∃ line0, lines !! 0%nat = Some line0
      ∧ Forall (λ line, length (py_strip line) = length (py_strip line0)) lines
      ∧ occurrences "P" (tiles_of lines) = 1%nat
      ∧ "E" ∈ tiles_of lines
      ∧ (SPOOKY_HOLLOW Tiles ∈ tiles_of lines ∨ MYSTICAL_HOLLOW Tiles ∈ tiles_of lines)
      ∧ Forall (λ tile, tile ∈ Tiles_values Tiles) (tiles_of lines).
Proof.
  unfold validate_maze_file.
  destruct (lines !! 0%nat) as [line0|]; cbn; [|by split; [|intros (? & ? & _)]].
  pose proof (count_lines (length (py_strip line0)) lines ∅ [] counts_empty) as Hfold.
  destruct (foldl _ _ lines) as [tc|]; cbn.
  2:{ split; [done|]. intros (? & [= <-] & Hall & _). by destruct Hfold. }
  destruct Hfold as [Hall Hc]. cbn in Hc.
  assert (HP := counts_lookup _ _ "P" Hc). assert (HE := counts_lookup _ _ "E" Hc).
  assert (HS := counts_lookup _ _ (SPOOKY_HOLLOW Tiles) Hc).
  assert (HM := counts_lookup _ _ (MYSTICAL_HOLLOW Tiles) Hc).
  assert (HnP := counts_default _ _ "P" Hc).
  assert (HPpos := occurrences_pos "P" (tiles_of lines)).
  assert (HK := counts_keys _ _ (λ tile, tile ∈ Tiles_values Tiles) Hc).
  split.
  - repeat case_bool_decide; try done. intros _. exists line0.
    split_and!; [done|done| | | |by apply HK].
    + destruct (decide ("P" ∈ tiles_of lines)) as [Hin|Hnin]; [apply HPpos in Hin; lia|].
      apply HP in Hnin. tauto.
    + destruct (decide ("E" ∈ tiles_of lines)) as [Hin|Hnin]; [done|].
      apply HE in Hnin. tauto.
    + destruct (decide (SPOOKY_HOLLOW Tiles ∈ tiles_of lines)) as [?|HnS]; [by left|].
      destruct (decide (MYSTICAL_HOLLOW Tiles ∈ tiles_of lines)) as [?|HnM]; [by right|].
      apply HS in HnS. apply HM in HnM. tauto.
  - intros (? & [= <-] & _ & H1 & H2 & H3 & H4).
    rewrite bool_decide_false.
    2:{ intros [Hn|Hn]; [apply HP in Hn; apply Hn, HPpos; lia|by apply HE in Hn]. }
    rewrite bool_decide_false by lia.
    rewrite bool_decide_false.
    2:{ intros [HnS HnM]. apply HS in HnS. apply HM in HnM. tauto. }
    rewrite bool_decide_true; [done|]. by apply HK.
Qed.

End validate.


Section load_total.
Context (Tiles : TilesEnum) (gen_treasures : nat → list Treasure).
Context (lines : list string) (n_rows n_cols : Z).
Hypothesis gen_nonzero : ∀ n, Forall (λ t, weight t ≠ 0) (gen_treasures n).




End load_total.


(** X10: [validate_maze_file] accepts a file exactly when it has a first
    line, every line has as many tiles as the first (after [strip]), the
    tile ['P'] occurs once, the tile ['E'] occurs, a spooky or a mystical
    hollow occurs, and every tile is a value of [Tiles]; in every other
    case it raises. *)
Theorem validate_maze_file_accepts (Tiles : TilesEnum) (lines : list string) :
  validate_maze_file Tiles lines = Some ()
  ↔ ∃ line0, lines !! 0%nat = Some line0
      ∧ Forall (λ line, length (py_strip line) = length (py_strip line0)) lines
      ∧ occurrences "P" (tiles_of lines) = 1%nat
      ∧ "E" ∈ tiles_of lines
      ∧ (SPOOKY_HOLLOW Tiles ∈ tiles_of lines ∨ MYSTICAL_HOLLOW Tiles ∈ tiles_of lines)
      ∧ Forall (λ tile, tile ∈ Tiles_values Tiles) (tiles_of lines).
Proof. apply validate_maze_file_iff. Qed.



(** ** The path search: results *)

Lemma py_remove_snoc `{EqDecision A} (x : A) (l : list A) :
  x ∉ l → py_remove x (l ++ [x]) = Some l.
Proof.
  induction l as [|y l IH]; intros Hx; cbn.
  - by rewrite decide_True.
  - apply not_elem_of_cons in Hx as [Hne Hx].
    rewrite decide_False by done. by rewrite IH.
Qed.

Lemma marks_shape g ps g' : marks g ps g' → length <$> g' = length <$> g.
Proof.
  induction 1 as [|g p cell g1 ps g' Hc Hv Hset _ IH]; [done|].
  rewrite IH. apply grid_set_visited_Some in Hset as (c & _ & Hset).
  by eapply grid_set_shape.
Qed.

Lemma marks_grid_get_None g ps g' q :
  marks g ps g' → grid_get g q = None → grid_get g' q = None.
Proof.
  intros Hm Hn. apply eq_None_not_Some. rewrite grid_get_is_Some.
  rewrite (marks_index _ _ _ q Hm), <- grid_get_is_Some, Hn. by intros [].
Qed.

Section dfs.
Context (Tiles : TilesEnum).

Lemma marks_valid (m : Maze) g ps g' q :
  marks g ps g' →
  is_valid_position Tiles (with_grid m g') q = is_valid_position Tiles (with_grid m g) q.
Proof.
  intros Hm. unfold is_valid_position. cbn.
  repeat case_bool_decide; try done.
  destruct (grid_get g q) as [cell|] eqn:Hc.
  - destruct (marks_tile _ _ _ q cell Hm Hc) as (cell' & -> & Ht & _). cbn. by rewrite Ht.
  - by rewrite (marks_grid_get_None _ _ _ q Hm Hc).
Qed.

Lemma same_maze_refl m : same_maze Tiles m m.
Proof. by split_and!. Qed.

Lemma same_maze_trans m1 m2 m3 :
  same_maze Tiles m1 m2 → same_maze Tiles m2 m3 → same_maze Tiles m1 m3.
Proof.
  intros (E1 & R1 & C1 & S1 & V1 & M1) (E2 & R2 & C2 & S2 & V2 & M2).
  split_and!; [congruence..|by auto| |by auto].
  intros q. by rewrite V2, V1.
Qed.

Lemma marks_same_maze (m : Maze) ps g' :
  marks (grid m) ps g' → same_maze Tiles m (with_grid m g').
Proof.
  intros Hm. split_and!; [done..| | |].
  - intros [Hr Hc]. unfold grid_shape. cbn.
    assert (Hsh := marks_shape _ _ _ Hm). split.
    + by rewrite <- (length_fmap length), Hsh, length_fmap.
    + apply (Forall_fmap length (λ n, n = Z.to_nat (cols m))). rewrite Hsh.
      by apply Forall_fmap.
  - intros q. rewrite (marks_valid m (grid m) ps g' q Hm). by destruct m.
  - intros q. by apply (marks_mono _ ps).
Qed.

Lemma search_post_same_maze s r s' :
  search_post s r s' → same_maze Tiles (s_maze s) (s_maze s').
Proof.
  intros (new & _ & Hm & -> & _). by eapply marks_same_maze.
Qed.

Lemma route_same_maze m m' p ps :
  same_maze Tiles m m' → route Tiles m' p ps ↔ route Tiles m p ps.
Proof.
  intros (_ & _ & _ & _ & V & _). revert p. induction ps as [|q ps IH]; intros p; [done|].
  cbn. unfold step. by rewrite V, IH.
Qed.

Lemma path_ok_same_maze s s' :
  same_maze Tiles (s_maze s) (s_maze s') → s_path s' = s_path s → path_ok s → path_ok s'.
Proof.
  intros (E & _ & _ & _ & _ & M) Hp [Hnd Hq]. split; rewrite Hp; [done|].
  intros q Hin. destruct (Hq q Hin) as [Hv He]. rewrite E. split; [by apply M|done].
Qed.

Lemma available_loop_neighbours m p dirs acc l :
  available_loop Tiles m p dirs acc = Some l →
  Forall (λ q, q ∈ acc ∨ ∃ d, d ∈ dirs ∧ q = mkPosition (row p + d.2.1) (col p + d.2.2)) l.
Proof.
  revert acc. induction dirs as [|[d [dr dc]] dirs IH]; intros acc; cbn.
  { intros [= <-]. apply Forall_forall. by left. }
  destruct (is_valid_position _ _ _) as [ok|]; cbn; [|done].
  intros Hl. apply IH in Hl. eapply Forall_impl; [exact Hl|]. cbn.
  intros q [Hq|(d' & Hd' & ->)].
  - destruct ok; [|by left].
    apply elem_of_app in Hq as [Hq|Hq%list_elem_of_singleton]; [by left|].
    right. exists (d, (dr, dc)). split; [by left|done].
  - right. exists d'. split; [by right|done].
Qed.

Lemma get_available_positions_steps m p l :
  get_available_positions Tiles m p = Some l → Forall (step Tiles m p) l.
Proof.
  intros H. assert (Hv := get_available_positions_valid Tiles m p l H).
  apply available_loop_neighbours in H.
  rewrite Forall_forall in H, Hv. apply Forall_forall. intros q Hq.
  split; [|by apply Hv].
  destruct (H q Hq) as [Hin|(d & Hd & ->)]; [by apply elem_of_nil in Hin|].
  unfold directions in Hd. unfold neighbours.
  repeat (apply elem_of_cons in Hd as [->|Hd]); cbn;
    [..|by apply elem_of_nil in Hd]; rewrite ?Z.add_0_r.
  - by left.
  - right. by left.
  - right. right. by left.
  - right. right. right. by left.
Qed.

Lemma explore_path rec current path0 nexts s r s' :
  (∀ s p r s', path_ok s → rec s p = Returns (r, s') →
               search_post s r s' ∧ path_post Tiles s p r s') →
  path_ok s → s_path s = path0 ++ [current] →
  Forall (step Tiles (s_maze s) current) nexts →
  explore rec current nexts s = Returns (r, s') →
  match r with
  | None => s_path s' = path0
  | Some path =>
      ∃ rest e, path = s_path s ++ rest
                ∧ route Tiles (s_maze s) current rest
                ∧ last (current :: rest) = Some e ∧ e ∈ end_positions (s_maze s)
                ∧ NoDup path
  end.
Proof.
  intros Hrec. revert s. induction nexts as [|next nexts IH]; intros s Hok Hpath Hsteps; cbn.
  - assert (Hnd := proj1 Hok). rewrite Hpath in Hnd.
    apply NoDup_app in Hnd as (_ & Hnin & _).
    rewrite Hpath, py_remove_snoc.
    2:{ intros Hin. apply (Hnin _ Hin). by left. }
    by intros [= <- <-].
  - apply Forall_cons in Hsteps as [Hstep Hsteps].
    destruct (rec s next) as [[[result|] s1]| |] eqn:Hcall; try done.
    + intros [= <- <-]. destruct (Hrec _ _ _ _ Hok Hcall) as [_ (rest & e & -> & Hr & Hl & He & Hnd)].
      exists (next :: rest), e. by split_and!.
    + destruct (Hrec _ _ _ _ Hok Hcall) as [Hpost Hp1]. cbn in Hp1.
      assert (Hsame := search_post_same_maze _ _ _ Hpost).
      intros He. apply IH in He.
      * destruct r as [path|]; [|done].
        destruct He as (rest & e & -> & Hr & Hl & He & Hnd).
        exists rest, e. rewrite Hp1 in *. pose proof (proj1 Hsame) as E.
        split_and!; [done| |done|by rewrite <- E|done].
        by apply (route_same_maze (s_maze s) (s_maze s1)).
      * by apply (path_ok_same_maze s).
      * by rewrite Hp1.
      * eapply Forall_impl; [exact Hsteps|]. intros q [? Hv]. split; [done|].
        destruct Hsame as (_ & _ & _ & _ & V & _). by rewrite V.
Qed.

Lemma find_path_aux_path fuel s p r s' :
  path_ok s → find_path_aux Tiles fuel s p = Returns (r, s') →
  search_post s r s' ∧ path_post Tiles s p r s'.
Proof.
  intros Hok Hcall. split; [by eapply find_path_aux_post|].
  revert s p r s' Hok Hcall. induction fuel as [|fuel IH]; intros s p r s' Hok; [done|].
  cbn [find_path_aux]. case_bool_decide as Hend.
  { intros [= <- <-]. exists [], p. rewrite NoDup_app. split_and!; try done.
    - apply Hok.
    - intros q Hq ->%list_elem_of_singleton. by apply (proj2 Hok p).
    - apply NoDup_singleton. }
  destruct (grid_get _ p) as [cell|] eqn:Hget; [|done].
  destruct (visited cell) eqn:Hv.
  { by intros [= <- <-]. }
  destruct (grid_set_visited _ p) as [g1|] eqn:Hset; [|done].
  destruct (get_available_positions _ _ _) as [avail|] eqn:Hav; [|done].
  intros He.
  assert (Hm1 : marks (grid (s_maze s)) [p] g1) by (econstructor; [done..|constructor]).
  assert (Hsame := marks_same_maze _ _ _ Hm1).
  assert (Hnin : p ∉ s_path s).
  { intros Hin. destruct (proj2 Hok p Hin) as [Hvis _].
    unfold is_visited in Hvis. rewrite Hget in Hvis. congruence. }
  set (s1 := mkSearch (with_grid (s_maze s) g1) (s_path s ++ [p]) (s_marked s ++ [p])) in *.
  assert (Hok1 : path_ok s1).
  { split; cbn.
    - apply NoDup_app. split_and!; [apply Hok| |apply NoDup_singleton].
      by intros q Hq ->%list_elem_of_singleton.
    - intros q [Hq|Hq]%elem_of_app; [|apply list_elem_of_singleton in Hq as ->].
      + destruct (proj2 Hok q Hq). split; [|done]. by apply (marks_mono _ _ _ q Hm1).
      + split; [|done]. apply (marks_marked _ _ _ p Hm1). by left. }
  apply (explore_path _ p (s_path s) avail s1) in He; [|by intros; split;
    [eapply find_path_aux_post|eapply IH]|done|done|by apply get_available_positions_steps].
  destruct r as [path|]; [|done].
  destruct He as (rest & e & -> & Hr & Hl & He & Hnd). cbn in *.
  exists rest, e. rewrite <- app_assoc in *. split_and!; [done| |done..].
  by apply (route_same_maze (s_maze s) (with_grid (s_maze s) g1)).
Qed.

Lemma get_available_positions_filter m p :
  grid_shape m →
  get_available_positions Tiles m p
  = Some (filter (λ q, is_valid_position Tiles m q = Some true) (neighbours p)).
Proof.
  intros Hs. unfold get_available_positions. rewrite available_loop_spec by done.
  cbn [app]. do 2 f_equal. unfold neighbours. cbn. by rewrite !Z.add_0_r.
Qed.

Lemma explore_no_raise rec current path0 nexts s :
  (∀ s p r s', path_ok s → rec s p = Returns (r, s') →
               search_post s r s' ∧ path_post Tiles s p r s') →
  (∀ s p, grid_shape (s_maze s) → in_bounds (s_maze s) p → path_ok s → rec s p ≠ Raises) →
  grid_shape (s_maze s) → path_ok s → s_path s = path0 ++ [current] →
  Forall (in_bounds (s_maze s)) nexts →
  explore rec current nexts s ≠ Raises.
Proof.
  intros Hrec Hnr. revert s.
  induction nexts as [|next nexts IH]; intros s Hs Hok Hpath Hin; cbn.
  - assert (Hnd := proj1 Hok). rewrite Hpath in Hnd.
    apply NoDup_app in Hnd as (_ & Hnin & _).
    rewrite Hpath, py_remove_snoc; [done|].
    intros Hx. apply (Hnin _ Hx). by left.
  - apply Forall_cons in Hin as [Hnext Hin].
    destruct (rec s next) as [[[result|] s1]| |] eqn:Hcall; try done.
    + destruct (Hrec _ _ _ _ Hok Hcall) as [Hpost Hp1]. cbn in Hp1.
      assert (Hsame := search_post_same_maze _ _ _ Hpost).
      apply IH.
      * by apply Hsame.
      * by apply (path_ok_same_maze s).
      * by rewrite Hp1.
      * destruct Hsame as (_ & R & C & _). unfold in_bounds in *. by rewrite R, C.
    + by apply Hnr in Hcall.
Qed.

Lemma find_path_aux_no_raise fuel s p :
  grid_shape (s_maze s) → p ∈ end_positions (s_maze s) ∨ in_bounds (s_maze s) p →
  path_ok s → find_path_aux Tiles fuel s p ≠ Raises.
Proof.
  revert s p. induction fuel as [|fuel IH]; intros s p Hs Hp Hok; [done|].
  cbn [find_path_aux]. case_bool_decide as Hend; [done|].
  destruct Hp as [?|Hp]; [done|].
  destruct (in_bounds_grid_get _ _ Hs Hp) as [cell Hget]. rewrite Hget.
  destruct (visited cell) eqn:Hv; [done|].
  destruct (grid_set_visited _ p) as [g1|] eqn:Hset.
  2:{ unfold grid_set_visited in Hset. rewrite Hget in Hset. cbn in Hset.
      destruct (grid_set_is_Some (grid (s_maze s)) p
                  (mkMazeCell (tile cell) (position cell) true)) as [g1 Hg1]; [by eexists|].
      congruence. }
  assert (Hm1 : marks (grid (s_maze s)) [p] g1) by (econstructor; [done..|constructor]).
  assert (Hsame := marks_same_maze _ _ _ Hm1).
  assert (Hs1 : grid_shape (with_grid (s_maze s) g1)) by by apply Hsame.
  rewrite get_available_positions_filter by done.
  assert (Hnin : p ∉ s_path s).
  { intros Hin. destruct (proj2 Hok p Hin) as [Hvis _].
    unfold is_visited in Hvis. rewrite Hget in Hvis. congruence. }
  apply (explore_no_raise _ p (s_path s)); cbn [s_maze s_path s_marked].
  - intros s0 p0 r0 s0' Hok0 Hcall. by apply (find_path_aux_path fuel).
  - intros s0 p0 Hs0 Hp0 Hok0. apply IH; [done|by right|done].
  - done.
  - split; cbn.
    + apply NoDup_app. split_and!; [apply Hok| |apply NoDup_singleton].
      by intros q Hq ->%list_elem_of_singleton.
    + intros q [Hq|Hq]%elem_of_app; [|apply list_elem_of_singleton in Hq as ->].
      * destruct (proj2 Hok q Hq). split; [|done]. by apply (marks_mono _ _ _ q Hm1).
      * split; [|done]. apply (marks_marked _ _ _ p Hm1). by left.
  - done.
  - apply Forall_forall. intros q [Hv' _]%list_elem_of_filter.
    by apply is_valid_position_true in Hv' as [? _].
Qed.

Lemma closed_same_maze m m' g g' new :
  same_maze Tiles m m' →
  (∀ q, is_visited g q = true → is_visited g' q = true) →
  closed Tiles m' g new → closed Tiles m g' new.
Proof.
  intros (E & _ & _ & _ & V & _) Hmono Hc q n Hq [Hn Hv].
  destruct (Hc q n Hq) as [He Hvis]; [split; [done|by rewrite V]|].
  rewrite <- E. split; [done|by apply Hmono].
Qed.

Lemma closed_app m g new1 new2 :
  closed Tiles m g new1 → closed Tiles m g new2 → closed Tiles m g (new1 ++ new2).
Proof. intros H1 H2 q n [Hq|Hq]%elem_of_app; [by apply (H1 q)|by apply (H2 q)]. Qed.

Lemma explore_closed rec current nexts s s' :
  (∀ s p r s', rec s p = Returns (r, s') → search_post s r s') →
  (∀ s p s', grid_shape (s_maze s) → rec s p = Returns (None, s') →
             close_post Tiles s p s') →
  grid_shape (s_maze s) →
  explore rec current nexts s = Returns (None, s') →
  Forall (λ n, (n ∉ end_positions (s_maze s)) ∧ is_visited (grid (s_maze s')) n = true) nexts
  ∧ ∃ new, s_marked s' = s_marked s ++ new
           ∧ closed Tiles (s_maze s) (grid (s_maze s')) new.
Proof.
  intros Hpost Hrec. revert s. induction nexts as [|next nexts IH]; intros s Hs; cbn.
  - destruct (py_remove _ _) as [path|]; [|done]. intros [= <-]. cbn.
    split; [constructor|]. exists []. rewrite app_nil_r. split; [done|].
    by intros q n ?%elem_of_nil.
  - destruct (rec s next) as [[[result|] s1]| |] eqn:Hcall; try done.
    intros He.
    assert (Hsame := search_post_same_maze _ _ _ (Hpost _ _ _ _ Hcall)).
    assert (Hpost2 := explore_post rec current nexts s1 None s' Hpost He).
    assert (Hsame2 := search_post_same_maze _ _ _ Hpost2).
    destruct (Hrec _ _ _ Hs Hcall) as (Hne & Hvis & new1 & E1 & Hc1).
    destruct (IH s1 (proj1 (proj2 (proj2 (proj2 Hsame))) Hs) He) as (Hall & new2 & E2 & Hc2).
    pose proof (proj1 Hsame) as E.
    split; [constructor|].
    + split; [done|]. by apply Hsame2.
    + eapply Forall_impl; [exact Hall|]. intros n [? ?]. by rewrite <- E.
    + exists (new1 ++ new2). rewrite E2, E1, app_assoc. split; [done|].
      apply closed_app.
      * apply (closed_same_maze _ (s_maze s) (grid (s_maze s1))); [apply same_maze_refl| |done].
        apply Hsame2.
      * by apply (closed_same_maze _ (s_maze s1) (grid (s_maze s'))).
Qed.

Lemma find_path_aux_closed fuel s p s' :
  grid_shape (s_maze s) → find_path_aux Tiles fuel s p = Returns (None, s') →
  close_post Tiles s p s'.
Proof.
  revert s p s'. induction fuel as [|fuel IH]; intros s p s' Hs; [done|].
  cbn [find_path_aux]. case_bool_decide as Hend; [done|].
  destruct (grid_get _ p) as [cell|] eqn:Hget; [|done].
  destruct (visited cell) eqn:Hv.
  { intros [= <-]. split; [done|]. split; [unfold is_visited; by rewrite Hget|].
    exists []. rewrite app_nil_r. split; [done|]. by intros q n ?%elem_of_nil. }
  destruct (grid_set_visited _ p) as [g1|] eqn:Hset; [|done].
  assert (Hm1 : marks (grid (s_maze s)) [p] g1) by (econstructor; [done..|constructor]).
  assert (Hsame := marks_same_maze _ _ _ Hm1).
  assert (Hs1 : grid_shape (with_grid (s_maze s) g1)) by by apply Hsame.
  rewrite get_available_positions_filter by done.
  intros He.
  assert (Hpost2 := explore_post _ _ _ _ _ _ (find_path_aux_post Tiles fuel) He).
  assert (Hsame2 := search_post_same_maze _ _ _ Hpost2).
  apply explore_closed in He as (Hall & new & E & Hc);
    [|apply find_path_aux_post|exact IH|done].
  cbn [s_maze s_marked] in *.
  assert (Hvis : is_visited (grid (s_maze s')) p = true).
  { apply Hsame2. cbn. apply (marks_marked _ _ _ p Hm1). by left. }
  split; [done|]. split; [done|].
  exists (p :: new). rewrite E, <- app_assoc. split; [done|].
  pose proof (proj1 (proj2 (proj2 (proj2 (proj2 Hsame))))) as V.
  intros q n [->|Hq]%elem_of_cons [Hn Hvalid].
  - rewrite Forall_forall in Hall. destruct (Hall n) as [? ?]; [|done].
    apply list_elem_of_filter. split; [by rewrite V|done].
  - destruct (Hc q n Hq) as [? ?]; [|done]. split; [done|by rewrite V].
Qed.

Lemma marks_visited_inv g ps g' q :
  marks g ps g' → is_visited g' q = true →
  is_visited g q = true ∨ ∃ p, p ∈ ps ∧ cell_index g p = cell_index g q.
Proof.
  induction 1 as [|g p cell g1 ps g' Hc Hv Hset Hm IH]; [by left|].
  intros Hvis. destruct (mark_step _ _ _ q Hset) as (Hidx & _ & _ & Hother & _).
  destruct (decide (cell_index g q = cell_index g p)) as [Heq|Hne].
  { right. exists p. split; [by left|done]. }
  destruct (IH Hvis) as [Hv1|(p' & Hp' & Heq)].
  - left. unfold is_visited in *. by rewrite <- (Hother Hne).
  - right. exists p'. split; [by right|].
    destruct (mark_step _ _ _ p' Hset) as (Hidx' & _). by rewrite <- Hidx, <- Hidx'.
Qed.

End dfs.

Lemma unvisited_grid g :
  Forall (Forall (λ cell, visited cell = false)) g → ∀ q, is_visited g q = false.
Proof.
  intros Hall q. unfold is_visited.
  destruct (grid_get g q) as [cell|] eqn:Hc; [|done].
  apply grid_get_Some in Hc as (i & j & r & _ & Hr & Hcell).
  rewrite Forall_forall in Hall. specialize (Hall r (list_elem_of_lookup_2 _ _ _ Hr)).
  rewrite Forall_forall in Hall. by apply Hall, (list_elem_of_lookup_2 _ j).
Qed.

Lemma find_way_out_closed (Tiles : TilesEnum) (m : Maze) (s' : search) :
  grid_shape m → in_bounds m (start_position m) →
  Forall (Forall (λ cell, visited cell = false)) (grid m) →
  find_way_out Tiles m = Returns (None, s') →
  ∀ ps e, route Tiles m (start_position m) ps →
          last (start_position m :: ps) = Some e → e ∉ end_positions m.
Proof.
  intros Hs Hb Hunv Hcall. unfold find_way_out in Hcall.
  assert (Hun := unvisited_grid _ Hunv).
  assert (Hpost := find_path_aux_post _ _ _ _ _ _ Hcall).
  destruct Hpost as (new & Enew & Hm & _ & Hne & _). cbn in Enew, Hm, Hne.
  destruct (find_path_aux_closed Tiles _ (mkSearch m [] []) _ _ Hs Hcall)
    as (Hstart & Hvis & new' & E' & Hc).
  cbn in Hstart, E', Hc. rewrite Enew in E'. subst new'.
  assert (Hnn : nonneg (start_position m)) by (destruct Hb; split; lia).
  destruct (find_path_aux_nonneg Tiles _ _ _ _ _ Hnn Hcall) as (new' & E' & Hnonneg).
  cbn in E'. rewrite Enew in E'. subst new'.
  assert (Hin : ∀ q, nonneg q → is_visited (grid (s_maze s')) q = true → q ∈ new).
  { intros q Hq Hv. destruct (marks_visited_inv _ _ _ q Hm Hv) as [Hv0|(p & Hp & Heq)].
    { by rewrite Hun in Hv0. }
    replace q with p; [done|].
    rewrite Forall_forall in Hnonneg.
    apply (cell_index_nonneg_inj (grid m)); [by apply Hnonneg|done| |done].
    destruct (marks_marked _ _ _ p Hm Hp) as [_ Hvp].
    rewrite <- (marks_index _ _ _ p Hm). apply grid_get_is_Some.
    unfold is_visited in Hvp. destruct (grid_get _ p); [by eexists|done]. }
  assert (Hgen : ∀ ps p e, p ∈ new → route Tiles m p ps → last (p :: ps) = Some e →
                           e ∉ end_positions m).
  { induction ps as [|q ps IH]; intros p e Hp Hr Hl.
    - cbn in Hl. injection Hl as <-. rewrite Forall_forall in Hne. by apply Hne.
    - destruct Hr as [Hstep Hr]. destruct (Hc p q Hp Hstep) as [_ Hvq].
      apply (IH q); [|done|by rewrite last_cons_cons in Hl].
      apply Hin; [|done]. destruct Hstep as [_ Hv].
      apply is_valid_position_true in Hv as [[? ?] _]. split; lia. }
  intros ps e. apply Hgen. by apply Hin.
Qed.

Lemma find_way_out_total (Tiles : TilesEnum) (m : Maze) :
  grid_shape m →
  start_position m ∈ end_positions m ∨ in_bounds m (start_position m) →
  ∃ r s', find_way_out Tiles m = Returns (r, s').
Proof.
  intros Hs Hp.
  assert (Hf := find_way_out_fuel Tiles m).
  assert (Hr : find_way_out Tiles m ≠ Raises).
  { unfold find_way_out. apply find_path_aux_no_raise; [done|done|].
    split; cbn; [constructor|]. by intros q ?%elem_of_nil. }
  destruct (find_way_out Tiles m) as [[r s']| |]; [by eexists _, _|done..].
Qed.

Lemma find_way_out_route (Tiles : TilesEnum) (m : Maze) (path : list Position) (s' : search) :
  find_way_out Tiles m = Returns (Some path, s') →
  ∃ rest e, path = start_position m :: rest
            ∧ route Tiles m (start_position m) rest
            ∧ last path = Some e ∧ e ∈ end_positions m
            ∧ NoDup path.
Proof.
  intros Hcall. unfold find_way_out in Hcall.
  apply find_path_aux_path in Hcall as [_ (rest & e & -> & Hr & Hl & He & Hnd)].
  - by exists rest, e.
  - split; cbn; [constructor|]. by intros q ?%elem_of_nil.
Qed.

(** X12: on a maze whose grid has its [rows] by [cols] cells, from a start
    position that is an end position or lies inside the grid,
    [find_way_out] returns: it raises no exception, and the recursion is
    never deeper than the grid has cells. *)
Theorem find_way_out_returns (Tiles : TilesEnum) (m : Maze) :
  grid_shape m →
  start_position m ∈ end_positions m ∨ in_bounds m (start_position m) →
  ∃ r s', find_way_out Tiles m = Returns (r, s').
Proof. apply find_way_out_total. Qed.

(** X13: a path that [find_way_out] returns starts at the start position
    and ends at an end position; each of its positions is next to the one
    before it (up, down, left or right) and is a valid position, inside the
    grid and no wall; no position occurs twice. *)
Theorem find_way_out_path_valid (Tiles : TilesEnum) (m : Maze) (path : list Position)
    (s' : search) :
  find_way_out Tiles m = Returns (Some path, s') →
  ∃ rest e, path = start_position m :: rest
            ∧ route Tiles m (start_position m) rest
            ∧ last path = Some e ∧ e ∈ end_positions m
            ∧ NoDup path.
Proof. apply find_way_out_route. Qed.

(** X14: when [find_way_out] returns [None] on a maze whose grid has its
    [rows] by [cols] cells, none of them visited yet, from a start position
    inside the grid, then no end position can be reached: no route of valid
    moves from the start position ends at one. *)
Theorem find_way_out_none_unreachable (Tiles : TilesEnum) (m : Maze) (s' : search) :
  grid_shape m → in_bounds m (start_position m) →
  Forall (Forall (λ cell, visited cell = false)) (grid m) →
  find_way_out Tiles m = Returns (None, s') →
  ∀ ps e, route Tiles m (start_position m) ps →
          last (start_position m :: ps) = Some e → e ∉ end_positions m.
Proof. apply find_way_out_closed. Qed.

Lemma find_way_out_returns_witness :
  let Tiles := mkTiles "S" "M" "#" "E" "P" ["S"; "M"; "#"; "E"; "P"; " "] in
  let m := mkMaze (mkPosition 0 0) [mkPosition 1 1] 2 2
             [[mkMazeCell (TileStr "P") (mkPosition 0 0) false;
               mkMazeCell (TileStr "#") (mkPosition 0 1) false];
              [mkMazeCell (TileHollow 0%nat) (mkPosition 1 0) false;
               mkMazeCell (TileStr "E") (mkPosition 1 1) false]] in
  ∃ r s', find_way_out Tiles m = Returns (r, s').
Proof.
  intros Tiles m. apply (find_way_out_returns Tiles m).
  - split; [done|]. by repeat constructor.
  - right. split; cbn; lia.
Defined.

Lemma find_way_out_path_valid_witness :
  let Tiles := mkTiles "S" "M" "#" "E" "P" ["S"; "M"; "#"; "E"; "P"; " "] in
  let m := mkMaze (mkPosition 0 0) [mkPosition 1 1] 2 2
             [[mkMazeCell (TileStr "P") (mkPosition 0 0) false;
               mkMazeCell (TileStr "#") (mkPosition 0 1) false];
              [mkMazeCell (TileHollow 0%nat) (mkPosition 1 0) false;
               mkMazeCell (TileStr "E") (mkPosition 1 1) false]] in
  ∃ path s', find_way_out Tiles m = Returns (Some path, s')
    ∧ ∃ rest e, path = start_position m :: rest
                ∧ route Tiles m (start_position m) rest
                ∧ last path = Some e ∧ e ∈ end_positions m
                ∧ NoDup path.
Proof.
  intros Tiles m. eexists _, _. split; [reflexivity|].
  apply (find_way_out_path_valid Tiles m _ _ eq_refl).
Defined.

Lemma find_way_out_none_unreachable_witness :
  let Tiles := mkTiles "S" "M" "#" "E" "P" ["S"; "M"; "#"; "E"; "P"; " "] in
  let m := mkMaze (mkPosition 0 0) [mkPosition 0 2] 1 3
             [[mkMazeCell (TileStr "P") (mkPosition 0 0) false;
               mkMazeCell (TileStr "#") (mkPosition 0 1) false;
               mkMazeCell (TileStr "E") (mkPosition 0 2) false]] in
  ∃ s', find_way_out Tiles m = Returns (None, s')
        ∧ ∀ ps e, route Tiles m (start_position m) ps →
                  last (start_position m :: ps) = Some e → e ∉ end_positions m.
Proof.
  intros Tiles m. eexists. split; [reflexivity|].
  eapply (find_way_out_none_unreachable Tiles m).
  - split; [done|]. by repeat constructor.
  - split; cbn; lia.
  - by repeat constructor.
  - reflexivity.
Defined.

Lemma find_path_aux_visited (Tiles : TilesEnum) fuel s p r s' :
  find_path_aux Tiles fuel s p = Returns (r, s') →
  p ∉ end_positions (s_maze s) →
  is_visited (grid (s_maze s')) p = true.
Proof.
  destruct fuel as [|fuel]; [done|].
  cbn [find_path_aux]. intros Hcall Hend. rewrite bool_decide_false in Hcall by done.
  destruct (grid_get _ p) as [cell|] eqn:Hget; [|done].
  destruct (visited cell) eqn:Hv.
  { injection Hcall as <- <-. unfold is_visited. by rewrite Hget. }
  destruct (grid_set_visited _ p) as [g1|] eqn:Hset; [|done].
  destruct (get_available_positions _ _ _) as [avail|]; [|done].
  apply explore_post in Hcall; [|apply find_path_aux_post].
  apply (search_post_same_maze Tiles) in Hcall. apply Hcall. cbn.
  assert (Hm1 : marks (grid (s_maze s)) [p] g1) by (econstructor; [done..|constructor]).
  apply (marks_marked _ _ _ p Hm1). by left.
Qed.

(** X20: [find_way_out] leaves its marks in the maze: after a call from a
    start position that is no end position, a second call on the same maze
    returns [None] at once and changes nothing, whether or not the first
    call found a path. *)
Theorem find_way_out_second_call (Tiles : TilesEnum) (m : Maze)
    (r : option (list Position)) (s' : search) :
  find_way_out Tiles m = Returns (r, s') →
  start_position m ∉ end_positions m →
  find_way_out Tiles (s_maze s') = Returns (None, mkSearch (s_maze s') [] []).
Proof.
  intros Hcall Hend.
  assert (Hpost := find_path_aux_post _ _ _ _ _ _ Hcall).
  destruct Hpost as (new & _ & _ & Em & _). cbn in Em.
  assert (Hv := find_path_aux_visited _ _ _ _ _ _ Hcall Hend). cbn in Hv.
  unfold find_way_out. cbn [find_path_aux s_maze].
  assert (Hs : start_position (s_maze s') = start_position m) by by rewrite Em.
  assert (He : end_positions (s_maze s') = end_positions m) by by rewrite Em.
  rewrite Hs, He, bool_decide_false by done.
  unfold is_visited in Hv. destruct (grid_get _ _) as [cell|]; [|done]. by rewrite Hv.
Qed.

Lemma find_way_out_second_call_witness :
  let Tiles := mkTiles "S" "M" "#" "E" "P" ["S"; "M"; "#"; "E"; "P"; " "] in
  let m := mkMaze (mkPosition 0 0) [mkPosition 1 1] 2 2
             [[mkMazeCell (TileStr "P") (mkPosition 0 0) false;
               mkMazeCell (TileStr "#") (mkPosition 0 1) false];
              [mkMazeCell (TileHollow 0%nat) (mkPosition 1 0) false;
               mkMazeCell (TileStr "E") (mkPosition 1 1) false]] in
  ∃ path s', find_way_out Tiles m = Returns (Some path, s')
             ∧ find_way_out Tiles (s_maze s') = Returns (None, mkSearch (s_maze s') [] []).
Proof.
  intros Tiles m. eexists _, _. split; [reflexivity|].
  apply (find_way_out_second_call Tiles m _ _ eq_refl).
  by intros ?%list_elem_of_singleton.
Defined.

(** ** Taking treasures: what the hollows keep *)

Lemma store_treasures_insert (σ : store) h hollow hollow' :
  σ !! h = Some hollow →
  (store_treasures (<[h := hollow']> σ) + hollow_len hollow
   = store_treasures σ + hollow_len hollow')%nat.
Proof.
  intros Hh. unfold store_treasures.
  rewrite (map_fold_delete_L _ _ h hollow σ); [|intros; lia|done].
  rewrite <- (insert_delete_eq σ h hollow').
  rewrite map_fold_insert_L; [lia|intros; lia|apply lookup_delete_eq].
Qed.

Lemma walk_count σ cap path ts cap' σ' :
  walk σ cap path ts cap' σ' → store_ok σ →
  store_treasures σ = (store_treasures σ' + length ts)%nat ∧ store_ok σ'.
Proof.
  induction 1 as [σ cap|σ cap cell s path ts cap' σ' Ht Hw IH
                  |σ cap cell h hollow t hollow' path ts cap' σ' Ht Hh Hg Hw IH
                  |σ cap cell h hollow hollow' path ts cap' σ' Ht Hh Hg Hw IH]; intros Hok.
  - split; [cbn; lia|done].
  - by apply IH.
  - destruct (get_optimal_treasure_spec hollow cap (Hok _ _ Hh)) as (r & self' & E & Hok' & Hlen).
    rewrite Hg in E. injection E as <- <-.
    destruct IH as [IH1 IH2]; [by apply store_ok_insert|].
    split; [|done]. pose proof (store_treasures_insert σ h hollow hollow' Hh). cbn. lia.
  - destruct (get_optimal_treasure_spec hollow cap (Hok _ _ Hh)) as (r & self' & E & Hok' & Hlen).
    rewrite Hg in E. injection E as <- <-. destruct Hlen as [Hlen _].
    destruct IH as [IH1 IH2]; [by apply store_ok_insert|].
    split; [|done]. pose proof (store_treasures_insert σ h hollow hollow' Hh). lia.
Qed.

Lemma walk_frame σ cap path ts cap' σ' :
  walk σ cap path ts cap' σ' →
  (∀ h, (∀ cell, cell ∈ path → tile cell ≠ TileHollow h) → σ' !! h = σ !! h)
  ∧ (∀ h, is_Some (σ' !! h) ↔ is_Some (σ !! h)).
Proof.
  induction 1 as [σ cap|σ cap cell s path ts cap' σ' Ht Hw [IH1 IH2]
                  |σ cap cell h hollow t hollow' path ts cap' σ' Ht Hh Hg Hw [IH1 IH2]
                  |σ cap cell h hollow hollow' path ts cap' σ' Ht Hh Hg Hw [IH1 IH2]].
  - done.
  - split; [|done]. intros h Hn. apply IH1. intros c Hc. apply Hn. by right.
  - split.
    + intros h0 Hn. rewrite IH1 by (intros c Hc; apply Hn; by right).
      apply lookup_insert_ne. intros ->. apply (Hn cell); [by left|done].
    + intros h0. rewrite IH2. destruct (decide (h0 = h)) as [->|Hne].
      * rewrite lookup_insert_eq, Hh. by split; eexists.
      * by rewrite lookup_insert_ne.
  - split.
    + intros h0 Hn. rewrite IH1 by (intros c Hc; apply Hn; by right).
      apply lookup_insert_ne. intros ->. apply (Hn cell); [by left|done].
    + intros h0. rewrite IH2. destruct (decide (h0 = h)) as [->|Hne].
      * rewrite lookup_insert_eq, Hh. by split; eexists.
      * by rewrite lookup_insert_ne.
Qed.

Lemma take_treasures_inv path cap σ r σ' :
  take_treasures path cap σ = Returns (r, σ') →
  ∃ ts cap', walk σ cap path ts cap' σ' ∧ r = match ts with [] => None | _ => Some ts end.
Proof.
  unfold take_treasures.
  destruct (take_loop path cap [] σ) as [[[ts cap'] σ1]| |] eqn:E; [|done..].
  intros [= <- <-]. apply take_loop_walk in E as (ts' & -> & Hw). by exists ts', cap'.
Qed.

(** X15: [take_treasures] loses no treasure and makes none: the hollows
    hold, after the call, as many treasures less as the call returns.  A
    treasure that a hollow hands out is always put in the backpack. *)
Theorem take_treasures_conserves (path : list MazeCell) (backpack_capacity : Z) (σ : store)
    (r : option (list Treasure)) (σ' : store) :
  store_ok σ →
  take_treasures path backpack_capacity σ = Returns (r, σ') →
  store_treasures σ = (store_treasures σ' + length (default [] r))%nat
  ∧ store_ok σ'.
Proof.
  intros Hok (ts & cap' & Hw & ->)%take_treasures_inv.
  destruct (walk_count _ _ _ _ _ _ Hw Hok) as [Hc Hok']. split; [|done].
  by destruct ts.
Qed.

(** X16: [take_treasures] touches only the hollows on the path: every other
    hollow of the maze is as it was, and a path without a hollow gives
    [None] and changes nothing. *)
Theorem take_treasures_frame (path : list MazeCell) (backpack_capacity : Z) (σ : store)
    (r : option (list Treasure)) (σ' : store) :
  take_treasures path backpack_capacity σ = Returns (r, σ') →
  (∀ h, (∀ cell, cell ∈ path → tile cell ≠ TileHollow h) → σ' !! h = σ !! h)
  ∧ (∀ h, is_Some (σ' !! h) ↔ is_Some (σ !! h))
  ∧ ((∀ cell h, cell ∈ path → tile cell ≠ TileHollow h) → r = None ∧ σ' = σ).
Proof.
  intros (ts & cap' & Hw & ->)%take_treasures_inv.
  destruct (walk_frame _ _ _ _ _ _ Hw) as [Hf Hd]. split_and!; [done..|].
  intros Hn. split.
  - clear Hf Hd. induction Hw as [| | |]; [done|..].
    + apply IHHw. intros c h Hc. apply Hn. by right.
    + destruct (Hn cell h); [by left|done].
    + destruct (Hn cell h); [by left|done].
  - apply map_eq. intros h. apply Hf. intros c Hc. by apply Hn.
Qed.

Lemma take_treasures_conserves_witness :
  let hollow := MysticalHollow (MaxHeap.heapify [(2%Q, mkTreasure 10 5); (2%Q, mkTreasure 4 2)]) in
  let σ : store := {[ 0%nat := hollow ]} in
  let path := [mkMazeCell (TileStr "P") (mkPosition 0 0) true;
               mkMazeCell (TileHollow 0%nat) (mkPosition 0 1) true;
               mkMazeCell (TileStr "E") (mkPosition 0 2) false] in
  ∃ r σ', take_treasures path 6 σ = Returns (r, σ')
          ∧ store_treasures σ = (store_treasures σ' + length (default [] r))%nat
          ∧ store_ok σ'.
Proof.
  intros hollow σ path. eexists _, _. split; [reflexivity|].
  apply (take_treasures_conserves path 6 σ); [|reflexivity].
  intros h hollow' [<- <-]%lookup_singleton_Some. apply heapify_max_heap.
Defined.

Lemma take_treasures_frame_witness :
  let hollow := MysticalHollow (MaxHeap.heapify [(2%Q, mkTreasure 10 5); (2%Q, mkTreasure 4 2)]) in
  let σ : store := {[ 0%nat := hollow ]} in
  let path := [mkMazeCell (TileStr "P") (mkPosition 0 0) true;
               mkMazeCell (TileHollow 0%nat) (mkPosition 0 1) true;
               mkMazeCell (TileStr "E") (mkPosition 0 2) false] in
  ∃ r σ', take_treasures path 6 σ = Returns (r, σ')
          ∧ (∀ h, (∀ cell, cell ∈ path → tile cell ≠ TileHollow h) → σ' !! h = σ !! h)
          ∧ (∀ h, is_Some (σ' !! h) ↔ is_Some (σ !! h))
          ∧ ((∀ cell h, cell ∈ path → tile cell ≠ TileHollow h) → r = None ∧ σ' = σ).
Proof.
  intros hollow σ path. eexists _, _. split; [reflexivity|].
  apply (take_treasures_frame path 6 σ). reflexivity.
Defined.

(** ** The loaded grid and the file *)

Section mirror.
Context (Tiles : TilesEnum) (gen_treasures : nat → list Treasure) (lines : list string).

Lemma load_tile_mirrors i ld jt ld' :
  0 ≤ i → 0 ≤ jt.1 → tile_at lines (mkPosition i jt.1) = Some jt.2 →
  loader_mirrors Tiles lines ld →
  load_tile Tiles gen_treasures 0%nat i (Some ld) jt = Some ld' →
  loader_mirrors Tiles lines ld'
  ∧ recorded Tiles (mkPosition i jt.1) jt.2 ld'
  ∧ ∀ p c, recorded Tiles p c ld → recorded Tiles p c ld'.
Proof.
  intros Hi Hj Hat (Hstart & Hends & Hwalls & Hhollows). destruct jt as [j tile].
  cbn in Hj, Hat.
  assert (Hnn : nonneg (mkPosition i j)) by by split.
  unfold load_tile, recorded, loader_mirrors, wall_tile, exit_tile.
  cbn [mbind option_bind fst snd].
  repeat case_bool_decide.
  - intros [= <-]. cbn. split_and!; try done.
    + intros p [= <-]. split; [done|]. by subst.
    + by intros [].
    + by intros [].
  - intros [= <-]. cbn. split_and!; try done.
    + apply Forall_app. split; [done|]. apply Forall_singleton. split; [done|].
      by exists tile.
    + intros _. apply elem_of_app. right. by left.
    + by intros (_ & ? & _).
    + intros p c [He Hw]. split; [|done]. intros Hc. apply elem_of_app. left. by apply He.
  - intros [= <-]. cbn. split_and!; try done.
    + apply Forall_app. split; [done|]. apply Forall_singleton. split; [done|].
      by exists tile.
    + by intros [_ ?].
    + intros _. apply elem_of_app. right. by left.
    + intros p c [He Hw]. split; [done|]. intros Hc. apply elem_of_app. left. by apply Hw.
  - unfold new_hollow.
    destruct (SpookyHollow.restructure_hollow _) as [hollow|]; [|done]. cbn.
    intros [= <-]. cbn. split_and!; try done.
    + apply Forall_app. split; [done|]. apply Forall_singleton. split; [done|].
      exists tile. split; [done|]. by left.
    + by intros [_ ?].
    + by intros (_ & _ & ?).
  - intros [= <-]. cbn. split_and!; try done.
    + apply Forall_app. split; [done|]. apply Forall_singleton. split; [done|].
      exists tile. split; [done|]. by right.
    + by intros [_ ?].
    + by intros (_ & _ & ?).
  - intros [= <-]. split_and!; try done.
    + by intros [_ ?].
    + by intros (_ & _ & ?).
Qed.

Lemma load_tile_None i jt : load_tile Tiles gen_treasures 0%nat i None jt = None.
Proof. done. Qed.

Lemma recorded_mono p c ld ld' :
  ld_ends ld ⊆ ld_ends ld' → ld_walls ld ⊆ ld_walls ld' →
  recorded Tiles p c ld → recorded Tiles p c ld'.
Proof. intros He Hw [H1 H2]. split; intros Hc; [by apply He, H1|by apply Hw, H2]. Qed.

Lemma load_tile_grows i ld jt ld' :
  load_tile Tiles gen_treasures 0%nat i (Some ld) jt = Some ld' →
  ld_ends ld ⊆ ld_ends ld' ∧ ld_walls ld ⊆ ld_walls ld'.
Proof.
  destruct jt as [j tile]. unfold load_tile. cbn [mbind option_bind].
  repeat case_bool_decide.
  - by intros [= <-].
  - intros [= <-]. cbn. split; [|done]. intros x Hx. apply elem_of_app. by left.
  - intros [= <-]. cbn. split; [done|]. intros x Hx. apply elem_of_app. by left.
  - unfold new_hollow.
    destruct (SpookyHollow.restructure_hollow _) as [hollow|]; [|done]. cbn.
    by intros [= <-].
  - by intros [= <-].
  - by intros [= <-].
Qed.

Lemma load_line_mirrors ld il ld' :
  0 ≤ il.1 → lines !! Z.to_nat il.1 = Some il.2 →
  loader_mirrors Tiles lines ld →
  load_line Tiles gen_treasures 0%nat (Some ld) il = Some ld' →
  loader_mirrors Tiles lines ld'
  ∧ (ld_ends ld ⊆ ld_ends ld' ∧ ld_walls ld ⊆ ld_walls ld')
  ∧ ∀ (j : nat) c, py_strip il.2 !! j = Some c →
                   recorded Tiles (mkPosition il.1 (Z.of_nat j)) c ld'.
Proof.
  intros Hi Hline Hld Hfold. destruct il as [i line]. cbn in Hi, Hline.
  unfold load_line in Hfold. cbn [fst snd] in *.
  destruct (foldl_Some_elem (load_tile Tiles gen_treasures 0%nat i)
              (λ a, loader_mirrors Tiles lines a
                    ∧ ld_ends ld ⊆ ld_ends a ∧ ld_walls ld ⊆ ld_walls a)
              (λ jt : Z * string, 0 ≤ jt.1 ∧ py_strip line !! Z.to_nat jt.1 = Some jt.2)
              (λ jt a, recorded Tiles (mkPosition i jt.1) jt.2 a)
              (load_tile_None i))
    with (l := py_enumerate (py_strip line)) (a := ld) (a' := ld')
    as ((Hld' & He & Hw) & Hrec & Hmono).
  - intros a [j tile] a' [Hj Hjt] (Ha & He & Hw) Hstep. cbn in Hj, Hjt.
    destruct (load_tile_mirrors i a (j, tile) a') as (Ha' & Hr & Hm); [done..| |done|done|].
    { unfold tile_at. cbn. by rewrite Hline. }
    destruct (load_tile_grows _ _ _ _ Hstep) as [He' Hw'].
    split_and!; [done|by etrans|by etrans|done|].
    intros b0 Hb0. by apply Hm.
  - apply py_enumerate_lookup.
  - done.
  - done.
  - split_and!; [done..|].
    intros j c Hj. by apply (Hrec (Z.of_nat j, c)), py_enumerate_elem.
Qed.


Lemma load_lines_mirrors ld ld' :
  loader_mirrors Tiles lines ld →
  foldl (load_line Tiles gen_treasures 0%nat) (Some ld) (py_enumerate lines) = Some ld' →
  loader_mirrors Tiles lines ld'
  ∧ ∀ p c, nonneg p → tile_at lines p = Some c → recorded Tiles p c ld'.
Proof.
  intros Hld Hfold.
  destruct (foldl_Some_elem (load_line Tiles gen_treasures 0%nat)
              (loader_mirrors Tiles lines)
              (λ il : Z * string, 0 ≤ il.1 ∧ lines !! Z.to_nat il.1 = Some il.2)
              (λ il a, ∀ (j : nat) c, py_strip il.2 !! j = Some c →
                         recorded Tiles (mkPosition il.1 (Z.of_nat j)) c a)
              (load_line_None Tiles gen_treasures))
    with (l := py_enumerate lines) (a := ld) (a' := ld')
    as (Hld' & Hrec & Hmono).
  - intros a [i line] a' [Hi Hil] Ha Hstep. cbn in Hi, Hil.
    destruct (load_line_mirrors a (i, line) a') as (Ha' & [He Hw] & Hr); [done..|].
    split_and!; [done..|].
    intros b0 Hb0 j c Hj. apply (recorded_mono _ _ a); [done..|]. by apply Hb0.
  - apply py_enumerate_lookup.
  - done.
  - done.
  - split; [done|]. intros [i j] c [Hi Hj] Hat. cbn in Hi, Hj.
    unfold tile_at in Hat. cbn in Hat.
    destruct (lines !! Z.to_nat i) as [line|] eqn:Hline; [|done]. cbn in Hat.
    pose proof (Hrec (Z.of_nat (Z.to_nat i), line) (py_enumerate_elem _ _ _ Hline)
                  (Z.to_nat j) c Hat) as Hr.
    cbn in Hr. by rewrite !Z2Nat.id in Hr by done.
Qed.

End mirror.

Lemma load_maze_from_file_cells (Tiles : TilesEnum) (gen_treasures : nat → list Treasure)
    (lines : list string) (m : Maze) (σ : store) :
  load_maze_from_file Tiles gen_treasures lines = Some (m, σ) →
  ∃ ld start line0,
    lines !! 0%nat = Some line0
    ∧ Forall (λ line, length (py_strip line) = length (py_strip line0)) lines
    ∧ m = mkMaze start (ld_ends ld) (Z.of_nat (length lines))
            (Z.of_nat (length (py_strip line0))) (grid m)
    ∧ grid_shape m ∧ in_bounds m start
    ∧ ld_start ld = Some start
    ∧ loader_mirrors Tiles lines ld
    ∧ (∀ p c, nonneg p → tile_at lines p = Some c → recorded Tiles p c ld)
    ∧ ∀ p c, nonneg p → tile_at lines p = Some c →
        grid_get (grid m) p
        = Some (mkMazeCell (tile_of Tiles start (ld_walls ld) (ld_hollows ld) (ld_ends ld) p)
                  p false).
Proof.
  unfold load_maze_from_file.
  destruct (validate_maze_file Tiles lines) as [[]|] eqn:Hval; [|done]. cbn.
  apply validate_maze_file_iff in Hval as (line0 & Hl0 & Hcols & _).
  unfold new_hollow at 1.
  destruct (MysticalHollow.restructure_hollow _) as [hollow|] eqn:Hr; [|done]. cbn.
  rewrite Hl0. cbn.
  destruct (foldl _ _ _) as [ld|] eqn:Hfold; [|done]. cbn.
  destruct (ld_start ld) as [start|] eqn:Hs; [|done]. cbn.
  unfold Maze_init.
  destruct (_create_grid _ _ _ _ _ _ _) as [g|] eqn:Hg; [|done]. cbn.
  intros [= <- <-]. cbn.
  destruct (load_lines_mirrors Tiles gen_treasures lines
              (mkLoader None [] [] [] (<[0%nat := hollow]> ∅) 1) ld) as [Hld Hrec]; [|done|].
  { unfold loader_mirrors. cbn. by split_and!. }
  assert (Hin : ∀ p c, nonneg p → tile_at lines p = Some c →
                  0 ≤ row p < Z.of_nat (length lines)
                  ∧ 0 ≤ col p < Z.of_nat (length (py_strip line0))).
  { intros p c Hp Hat. unfold tile_at in Hat.
    destruct (lines !! Z.to_nat (row p)) as [line|] eqn:Hline; [|done].
    cbn in Hat. apply lookup_lt_Some in Hat.
    rewrite Forall_forall in Hcols.
    rewrite <- (Hcols line (list_elem_of_lookup_2 _ _ _ Hline)).
    apply lookup_lt_Some in Hline. destruct Hp. lia. }
  exists ld, start, line0. split_and!; [done..| | |done|done|done|].
  { apply (Maze_init_shape Tiles start (ld_ends ld) (ld_walls ld) (ld_hollows ld)
             (Z.of_nat (length lines)) (Z.of_nat (length (py_strip line0)))).
    unfold Maze_init. by rewrite Hg. }
  { destruct (proj1 Hld start Hs) as [Hnn Hst]. by apply (Hin start _ Hnn Hst). }
  intros p c Hp Hat.
  destruct Hld as (Hstart & Hends & Hwalls & Hhollows).
  apply (create_grid_get Tiles start (Z.of_nat (length lines))
           (Z.of_nat (length (py_strip line0)))); [done|by apply Hstart|..].
  - eapply Forall_impl; [exact Hwalls|]. by intros q [? _].
  - eapply Forall_impl; [exact Hhollows|]. by intros q [? _].
  - eapply Forall_impl; [exact Hends|]. by intros q [? _].
  - by apply (Hin p c).
  - by apply (Hin p c).
Qed.

(** X18: the grid of a maze that [load_maze_from_file] returns shows the
    file: the cell at line [i], column [j] knows its position, is not
    visited, and has the exit, the wall or a blank where the file has the
    exit tile, the wall tile or a tile that the loader passes over; the
    cell of the start position has the start tile. *)
Theorem load_maze_from_file_mirrors (Tiles : TilesEnum) (gen_treasures : nat → list Treasure)
    (lines : list string) (m : Maze) (σ : store) (p : Position) (c : string) :
  load_maze_from_file Tiles gen_treasures lines = Some (m, σ) →
  nonneg p → tile_at lines p = Some c →
  ∃ cell, grid_get (grid m) p = Some cell
          ∧ position cell = p ∧ visited cell = false
          ∧ (p = start_position m → tile cell = TileStr (START_POSITION Tiles))
          ∧ (exit_tile Tiles c → tile cell = TileStr (EXIT Tiles))
          ∧ (wall_tile Tiles c → tile cell = TileStr (WALL Tiles))
          ∧ (blank_tile Tiles c → tile cell = TileStr " ").
Proof.
  intros (ld & start & line0 & _ & _ & Em & _ & _ & Hs & Hld & Hrec & Hget)%load_maze_from_file_cells
    Hp Hat.
  eexists. split; [by apply (Hget p c)|]. cbn. split; [done|]. split; [done|].
  destruct Hld as (Hstart & Hends & Hwalls & Hhollows).
  rewrite Forall_forall in Hends. rewrite Forall_forall in Hwalls.
  rewrite Forall_forall in Hhollows.
  destruct (Hrec p c Hp Hat) as [Hre Hrw].
  assert (Hno_end : ¬ exit_tile Tiles c → p ∉ ld_ends ld).
  { intros Hn Hin. destruct (Hends p Hin) as (_ & c' & Hc' & Hx). congruence. }
  assert (Hno_hollow : ¬ (spooky_tile Tiles c ∨ mystical_tile Tiles c) →
                       last (filter (λ hp : loc * Position, hp.2 = p) (ld_hollows ld)) = None).
  { intros Hn. apply last_filter_None, Forall_forall. intros hp Hin Heq.
    destruct (Hhollows hp Hin) as (_ & c' & Hc' & Hx). rewrite Heq in Hc'. congruence. }
  assert (Hno_wall : ¬ wall_tile Tiles c → p ∉ ld_walls ld).
  { intros Hn Hin. destruct (Hwalls p Hin) as (_ & c' & Hc' & Hx). congruence. }
  unfold tile_of. split_and!.
  - intros ->. rewrite Em in *. cbn in *.
    destruct (Hstart start Hs) as [_ Hst]. assert (c = START_POSITION Tiles) as -> by congruence.
    rewrite decide_False by (apply Hno_end; by intros [? _]).
    rewrite Hno_hollow by (intros [(? & _)|(? & _)]; done).
    rewrite decide_False by (apply Hno_wall; by intros [? _]).
    by rewrite decide_True.
  - intros Hx. by rewrite decide_True by by apply Hre.
  - intros Hw. assert (Hw' := Hw). destruct Hw' as (H1 & H2 & H3).
    rewrite decide_False by (apply Hno_end; by intros [_ ?]).
    rewrite Hno_hollow by (intros [(_ & _ & ? & _)|(_ & _ & ? & _)]; done).
    by rewrite decide_True by by apply Hrw.
  - intros (H1 & H2 & H3 & H4 & H5).
    rewrite decide_False by (apply Hno_end; by intros [_ ?]).
    rewrite Hno_hollow by (intros [(_ & _ & _ & ?)|(_ & _ & _ & _ & ?)]; done).
    rewrite decide_False by (apply Hno_wall; by intros (_ & _ & ?)).
    rewrite decide_False; [done|]. intros ->.
    destruct (Hstart start Hs) as [_ Hst]. congruence.
Qed.

Lemma load_maze_from_file_mirrors_witness :
  let Tiles := mkTiles "S" "M" "#" "E" "P" ["S"; "M"; "#"; "E"; "P"; " "] in
  let gen_treasures := λ _ : nat, [mkTreasure 10 5; mkTreasure 4 2] in
  let lines := ["P M" +:+ String (Ascii.ascii_of_nat 10) EmptyString; "S#E"] in
  ∃ m σ, load_maze_from_file Tiles gen_treasures lines = Some (m, σ)
         ∧ ∃ cell, grid_get (grid m) (mkPosition 1 1) = Some cell
                   ∧ tile cell = TileStr "#".
Proof.
  intros Tiles gen_treasures lines.
  destruct (load_maze_from_file Tiles gen_treasures lines) as [[m σ]|] eqn:Hload;
    [|by vm_compute in Hload].
  exists m, σ. split; [done|].
  destruct (load_maze_from_file_mirrors Tiles gen_treasures lines m σ (mkPosition 1 1) "#" Hload)
    as (cell & Hc & _ & _ & _ & _ & Hw & _); [by split|reflexivity|].
  exists cell. split; [done|]. apply Hw. by split_and!.
Defined.

(** X21: the start position of a maze that [load_maze_from_file] returns is
    where the file has the start tile, and its end positions are exactly
    the positions of the exit tiles of the file; the maze has a row for
    every line of the file. *)
Theorem load_maze_from_file_positions (Tiles : TilesEnum)
    (gen_treasures : nat → list Treasure) (lines : list string) (m : Maze) (σ : store) :
  load_maze_from_file Tiles gen_treasures lines = Some (m, σ) →
  rows m = Z.of_nat (length lines)
  ∧ in_bounds m (start_position m)
  ∧ tile_at lines (start_position m) = Some (START_POSITION Tiles)
  ∧ ∀ e, e ∈ end_positions m
         ↔ nonneg e ∧ ∃ c, tile_at lines e = Some c ∧ exit_tile Tiles c.
Proof.
  intros (ld & start & line0 & _ & _ & Em & _ & Hb & Hs & Hld & Hrec & _)
    %load_maze_from_file_cells.
  destruct Hld as (Hstart & Hends & _).
  rewrite Em in *. cbn. split_and!; [done|done|by apply Hstart|].
  intros e. split.
  - intros He. rewrite Forall_forall in Hends. by apply Hends.
  - intros (Hnn & c & Hc & Hx). by apply (Hrec e c Hnn Hc).
Qed.

Lemma load_maze_from_file_positions_witness :
  let Tiles := mkTiles "S" "M" "#" "E" "P" ["S"; "M"; "#"; "E"; "P"; " "] in
  let gen_treasures := λ _ : nat, [mkTreasure 10 5; mkTreasure 4 2] in
  let lines := ["P M" +:+ String (Ascii.ascii_of_nat 10) EmptyString; "S#E"] in
  ∃ m σ, load_maze_from_file Tiles gen_treasures lines = Some (m, σ)
         ∧ rows m = Z.of_nat (length lines)
         ∧ in_bounds m (start_position m)
         ∧ tile_at lines (start_position m) = Some (START_POSITION Tiles)
         ∧ ∀ e, e ∈ end_positions m
                ↔ nonneg e ∧ ∃ c, tile_at lines e = Some c ∧ exit_tile Tiles c.
Proof.
  intros Tiles gen_treasures lines.
  destruct (load_maze_from_file Tiles gen_treasures lines) as [[m σ]|] eqn:Hload;
    [|by vm_compute in Hload].
  exists m, σ. split; [done|].
  exact (load_maze_from_file_positions Tiles gen_treasures lines m σ Hload).
Defined.

(** ** A loaded maze and its way out *)



